(** * Lightmetrica v3: path tracing integrators, materials and scene queries

    A shallow embedding of the parts of the renderer that the specification
    speaks about:

    - [Renderer_PT::render] and [Renderer_VolPT::render]
      (src/renderer/renderer_pt_pixel.cpp, src/renderer/renderer_volpt.cpp);
    - [Scene::visible] and [Scene::require_renderable] (the scene header);
    - [Material_Glass], [Phase_HenyeyGreenstein] and the two
      [Material_WavefrontObj_Mixture] classes;
    - the material callback of [Model_WavefrontObj::construct].

    The source type [Float] is a build-time alias (float or double).  The
    development is parametric in it: [FloatOps] lists the operations the code
    uses, with two instances, the real numbers (ideal arithmetic, for the
    analytic statements) and IEEE-754 binary64 (for evaluation). *)

From Stdlib Require Import ZArith Reals Lra Lia Bool Floats.
From stdpp Require Import gmap strings.
From stdpp Require Import pretty.

Set Default Proof Using "Type".

(* ===================================================================== *)
(** ** Numbers and vectors *)
(* ===================================================================== *)

(** The arithmetic the source performs on [Float]. [fpown x n] stands for
    [std::pow(x, n_f)] with an integral literal exponent. *)
Class FloatOps := {
  Float : Type;
  fadd : Float -> Float -> Float;
  fsub : Float -> Float -> Float;
  fmul : Float -> Float -> Float;
  fdiv : Float -> Float -> Float;
  fneg : Float -> Float;
  fsqrt : Float -> Float;
  fpown : Float -> nat -> Float;
  feqb : Float -> Float -> bool;
  fltb : Float -> Float -> bool;
  of_int : Z -> Float
}.

Declare Scope fl_scope.
Delimit Scope fl_scope with fl.
Notation "x + y" := (fadd x y) : fl_scope.
Notation "x - y" := (fsub x y) : fl_scope.
Notation "x * y" := (fmul x y) : fl_scope.
Notation "x / y" := (fdiv x y) : fl_scope.
Notation "- x" := (fneg x) : fl_scope.
Notation "x =? y" := (feqb x y) : fl_scope.
Notation "x <? y" := (fltb x y) : fl_scope.
Notation "x >? y" := (fltb y x) : fl_scope.

Section Numbers.
Context `{FloatOps}.
Local Open Scope fl_scope.

(** Literals: [0_f], [1_f], an integral literal [n_f] is [of_int n], and a
    decimal literal is a quotient ([.2_f] is [lit 2 10]).  Division is
    correctly rounded in IEEE arithmetic, so the quotient of two exactly
    representable integers is the value of the decimal literal. *)
Definition f0 : Float := of_int 0.
Definition f1 : Float := of_int 1.
Definition lit (p q : Z) : Float := of_int p / of_int q.

(** [std::max] and [glm::max] on scalars: [(a < b) ? b : a]. *)
Definition fmax (a b : Float) : Float := if a <? b then b else a.

(** The sign of a number, and whether two numbers differ in sign. *)
Definition sign (x : Float) : Z :=
  if x <? f0 then (-1)%Z else if f0 <? x then 1%Z else 0%Z.
Definition sign_differs (a b : Float) : bool := negb (sign a =? sign b)%Z.

Record Vec2 := mkVec2 { v2x : Float; v2y : Float }.
Record Vec3 := mkVec3 { vx : Float; vy : Float; vz : Float }.
Record Vec4 := mkVec4 { v4x : Float; v4y : Float; v4z : Float; v4w : Float }.

(** [Vec3(s)], [Vec3{}] and the component-wise glm operators. *)
Definition vec3 (s : Float) : Vec3 := mkVec3 s s s.
Definition vzero : Vec3 := vec3 f0.
Definition v2zero : Vec2 := mkVec2 f0 f0.
Definition vadd (a b : Vec3) : Vec3 := mkVec3 (vx a + vx b) (vy a + vy b) (vz a + vz b).
Definition vsub (a b : Vec3) : Vec3 := mkVec3 (vx a - vx b) (vy a - vy b) (vz a - vz b).
Definition vmul (a b : Vec3) : Vec3 := mkVec3 (vx a * vx b) (vy a * vy b) (vz a * vz b).
Definition vneg (a : Vec3) : Vec3 := mkVec3 (- vx a) (- vy a) (- vz a).
Definition vscale (a : Vec3) (s : Float) : Vec3 := mkVec3 (vx a * s) (vy a * s) (vz a * s).
Definition sscale (s : Float) (a : Vec3) : Vec3 := mkVec3 (s * vx a) (s * vy a) (s * vz a).
Definition vdivs (a : Vec3) (s : Float) : Vec3 := mkVec3 (vx a / s) (vy a / s) (vz a / s).

(** [glm::dot], [glm::compMax], [glm::distance p0 p1 = length (p1 - p0)] and
    [glm::normalize] (it multiplies by the inverse square root of the squared
    length). *)
Definition dot (a b : Vec3) : Float := vx a * vx b + vy a * vy b + vz a * vz b.
Definition compMax (a : Vec3) : Float := fmax (fmax (vx a) (vy a)) (vz a).
Definition length3 (a : Vec3) : Float := fsqrt (dot a a).
Definition distance (a b : Vec3) : Float := length3 (vsub b a).
Definition normalize (a : Vec3) : Vec3 := vscale a (f1 / fsqrt (dot a a)).

End Numbers.

Arguments Vec2 {_}.
Arguments Vec3 {_}.
Arguments Vec4 {_}.

(** *** The real numbers as ideal arithmetic *)

Definition Reqb (a b : R) : bool := if Req_dec_T a b then true else false.
Definition Rltb (a b : R) : bool := if Rlt_dec a b then true else false.

Definition RealOps : FloatOps := {|
  Float := R;
  fadd := Rplus; fsub := Rminus; fmul := Rmult; fdiv := Rdiv; fneg := Ropp;
  fsqrt := R_sqrt.sqrt; fpown := Rpow_def.pow;
  feqb := Reqb; fltb := Rltb;
  of_int := IZR
|}.

(** *** IEEE-754 binary64 *)

Definition b64_of_int (z : Z) : float :=
  match z with
  | Z0 => PrimFloat.zero
  | Zpos _ => PrimFloat.of_uint63 (Uint63.of_Z z)
  | Zneg p => PrimFloat.opp (PrimFloat.of_uint63 (Uint63.of_Z (Zpos p)))
  end.

(** [std::pow] is not a basic IEEE operation; for the small integral exponents
    of the source the product below is what the instance evaluates. *)
Fixpoint b64_pown (x : float) (n : nat) : float :=
  match n with
  | O => PrimFloat.one
  | S n' => PrimFloat.mul x (b64_pown x n')
  end.

Definition Binary64Ops : FloatOps := {|
  Float := float;
  fadd := PrimFloat.add; fsub := PrimFloat.sub; fmul := PrimFloat.mul;
  fdiv := PrimFloat.div; fneg := PrimFloat.opp;
  fsqrt := PrimFloat.sqrt; fpown := b64_pown;
  feqb := PrimFloat.eqb; fltb := PrimFloat.ltb;
  of_int := b64_of_int
|}.

(* ===================================================================== *)
(** ** Surface records, random numbers, film, scheduler *)
(* ===================================================================== *)

Section Records.
Context `{FloatOps}.

(** Modelled from the spec: [PointGeometry] and [SceneInteraction]
    (lm/surface.h) are not under src/; section 3 of the specification gives
    their fields, the variants of the tag and the re-tagging helper
    [as_type]. *)
Record PointGeometry := mkGeom {
  pg_p : Vec3;              (* position *)
  pg_n : Vec3;              (* shading normal *)
  pg_infinite : bool;
  pg_degenerated : bool;
  pg_t : Vec2;              (* texture coordinates *)
  pg_wo : Vec3              (* direction, only when infinite *)
}.

Inductive InteractionType :=
  | SurfacePoint | MediumPoint | CameraEndpoint | LightEndpoint | InfiniteEnvHit.

Record SceneInteraction := mkSI {
  si_type : InteractionType;
  si_primitive : Z;
  geom : PointGeometry
}.

Definition as_type (sp : SceneInteraction) (ty : InteractionType) : SceneInteraction :=
  mkSI ty (si_primitive sp) (geom sp).

(** [Ray { o, d }]. *)
Record Ray := mkRay { ray_o : Vec3; ray_d : Vec3 }.

(** The sample records of the scene header. *)
Record RaySample := mkRaySample {
  rs_sp : SceneInteraction;
  rs_comp : Z;
  rs_wo : Vec3;
  rs_weight : Vec3
}.

(** [RaySample::ray()]: [{ sp.geom.p, wo }] (its assertion that the point is
    not infinite is a debug check only). *)
Definition ray (s : RaySample) : Ray := mkRay (pg_p (geom (rs_sp s))) (rs_wo s).

Record DirectionSample := mkDirectionSample {
  ds_wo : Vec3;
  ds_comp : Z;
  ds_weight : Vec3
}.

Record DistanceSample := mkDistanceSample {
  dd_sp : SceneInteraction;
  dd_weight : Vec3
}.

(** [MaterialDirectionSample { wo, comp, weight }] as the glass, mirror and
    mask materials build it. *)
Record MaterialDirectionSample := mkMDS {
  mds_wo : Vec3;
  mds_comp : Z;
  mds_weight : Vec3
}.

End Records.

Arguments PointGeometry {_}.
Arguments SceneInteraction {_}.
Arguments Ray {_}.
Arguments RaySample {_}.
Arguments DirectionSample {_}.
Arguments DistanceSample {_}.
Arguments MaterialDirectionSample {_}.

(** Constants and helpers of the repository's math and surface headers that
    the source calls but that are not under src/: they are parameters. *)
Class MathLib `{FloatOps} := {
  Eps : Float;
  Inf : Float;
  Pi : Float;
  safe_sqrt : Float -> Float;
  is_zero : Vec3 -> bool;
  (* PointGeometry::opposite(w1, w2) *)
  opposite : PointGeometry -> Vec3 -> Vec3 -> bool;
  (* SceneInteraction::make_camera_term(window, aspect) *)
  make_camera_term : Vec4 -> Float -> SceneInteraction
}.

(** [Rng]: a stream of uniform numbers in [0,1); [u()] advances the state.
    [rng_seed tid] is what [math::rng_seed()] hands to thread [tid]. *)
Class RngOps `{FloatOps} := {
  Rng : Type;
  Rng_new : Z -> Rng;
  rng_u : Rng -> Float * Rng;
  rng_seed : Z -> Z
}.

(** [Film]: the operations the renderers call. *)
Record FilmSize := mkFilmSize { size_w : Z; size_h : Z }.

Class FilmOps `{FloatOps} := {
  Film : Type;
  film_clear : Film -> Film;
  film_size : Film -> FilmSize;
  film_aspect : Film -> Float;
  film_splat : Film -> Vec2 -> Vec3 -> Film;
  film_rescale : Film -> Float -> Film
}.

(** [scheduler::Scheduler::run(process)]: runs
    [process(pixel_index, sample_index, threadid)] over the shared state and
    returns the number of processed samples. *)
Record Scheduler := mkScheduler {
  run : forall St : Type, (Z -> Z -> Z -> St -> St) -> St -> Z * St
}.

(** Error kinds of section 7 of the specification and the exception thrown by
    [LM_THROW_EXCEPTION(kind, message)]. *)
Inductive Error := Unsupported | IOError | InvalidArgument | NotFound.

Inductive Result (A : Type) :=
  | Ok (a : A)
  | Throw (e : Error) (msg : string).
Arguments Ok {A} a.
Arguments Throw {A} e msg.

(** Transport direction, [TransDir::EL] and [TransDir::LE]. *)
Inductive TransDir := EL | LE.

(* ===================================================================== *)
(** ** The scene interface (lm/scene.h) *)
(* ===================================================================== *)

Section SceneInterface.
Context `{FloatOps} `{!MathLib} `{!RngOps}.
Local Open Scope fl_scope.

(** A scene object: one field per pure virtual member function the modelled
    code calls.  [accel] is a nullable pointer, [None] is [nullptr].  The
    sampling functions draw from the generator they are handed and return its
    new state.  [eval_contrb_position] is the name Renderer_PT calls;
    the header under src/ declares [eval_contrb_endpoint]. *)
Record Scene := mkScene {
  num_nodes : Z;
  num_lights : Z;
  camera_node : Z;
  env_light_node : Z;
  accel : option positive;
  intersect : Ray -> Float -> Float -> option SceneInteraction;
  is_light : SceneInteraction -> bool;
  is_specular : SceneInteraction -> Z -> bool;
  sample_ray : Rng -> SceneInteraction -> Vec3 -> option RaySample * Rng;
  sample_direction : Rng -> SceneInteraction -> Vec3 -> option DirectionSample * Rng;
  pdf_direction : SceneInteraction -> Z -> Vec3 -> Vec3 -> Float;
  sample_direct_light : Rng -> SceneInteraction -> option RaySample * Rng;
  pdf_direct : SceneInteraction -> SceneInteraction -> Z -> Vec3 -> Float;
  sample_distance : Rng -> SceneInteraction -> Vec3 -> option DistanceSample * Rng;
  eval_transmittance : Rng -> SceneInteraction -> SceneInteraction -> Vec3 * Rng;
  raster_position : Vec3 -> Float -> option Vec2;
  eval_contrb : SceneInteraction -> Z -> Vec3 -> Vec3 -> Vec3;
  eval_contrb_endpoint : SceneInteraction -> Vec3;
  eval_contrb_position : SceneInteraction -> Vec3 -> Vec3
}.

(** *** Requirement checks

    The checks are const member functions that either return or throw.  They
    are computations over the scene: the result, and the scene afterwards. *)
Definition SceneM (A : Type) : Type := Scene -> Result A * Scene.

Definition throw {A} (e : Error) (msg : string) : SceneM A := fun s => (Throw e msg, s).
Definition ask {A} (f : Scene -> A) : SceneM A := fun s => (Ok (f s), s).

#[export] Instance SceneM_ret : MRet SceneM := fun A a s => (Ok a, s).
#[export] Instance SceneM_bind : MBind SceneM := fun A B k m s =>
  match m s with
  | (Ok a, s') => k a s'
  | (Throw e msg, s') => (Throw e msg, s')
  end.

Definition require_primitive : SceneM unit :=
  n ← ask num_nodes;
  if (n >? 1)%Z then mret tt
  else throw Unsupported
    "Missing primitives. Use lm::primitive() function to add primitives.".

Definition require_camera : SceneM unit :=
  c ← ask camera_node;
  if negb (c =? -1)%Z then mret tt
  else throw Unsupported
    "Missing camera primitive. Use lm::primitive() function to add camera primitive.".

Definition require_light : SceneM unit :=
  n ← ask num_lights;
  if (n >? 0)%Z then mret tt
  else throw Unsupported
    "No light in the scene. Add at least one light sources to the scene.".

Definition require_accel : SceneM unit :=
  a ← ask accel;
  if bool_decide (is_Some a) then mret tt
  else throw Unsupported
    "Missing acceleration structure. Use lm::build() function before rendering.".

Definition require_renderable : SceneM unit :=
  require_primitive;; require_camera;; require_light;; require_accel.

(** *** Visibility *)

(** The local lambda [visible_] of [Scene::visible] (its assertion on [sp1]
    is a debug check only), and [visible] itself. *)
Definition visible_ (scene : Scene) (sp1 sp2 : SceneInteraction) : bool :=
  let wo :=
    if pg_infinite (geom sp2) then vneg (pg_wo (geom sp2))
    else normalize (vsub (pg_p (geom sp2)) (pg_p (geom sp1))) in
  let tmax :=
    if pg_infinite (geom sp2) then Inf - f1
    else
      let d := distance (pg_p (geom sp1)) (pg_p (geom sp2)) in
      d * (f1 - Eps) in
  negb (bool_decide (is_Some (intersect scene (mkRay (pg_p (geom sp1)) wo) Eps tmax))).

Definition visible (scene : Scene) (sp1 sp2 : SceneInteraction) : bool :=
  if pg_infinite (geom sp1) then visible_ scene sp2 sp1
  else visible_ scene sp1 sp2.

End SceneInterface.

Arguments Scene {_ _}.
Arguments SceneM {_ _} A.

(* ===================================================================== *)
(** ** Helpers of lm/math.h *)
(* ===================================================================== *)

Section MathHelpers.
Context `{FloatOps}.
Local Open Scope fl_scope.

(** Modelled from the spec: [math::balance_heuristic] is not under src/.
    Section 4.4: "balance_heuristic(a, b) = a / (a + b) with 0/0 := 0". *)
Definition balance_heuristic (a b : Float) : Float :=
  if (a =? f0) && (a + b =? f0) then f0 else a / (a + b).

(** [math::reflection] is not under src/ either; the documentation comment of
    Material_Glass and Material_Mirror gives the reflected direction,
    [2 (wi . n) n - wi]. *)
Definition reflection (wi n : Vec3) : Vec3 :=
  vsub (sscale (of_int 2 * dot wi n) n) wi.

(** The discriminant [1 - eta^2 (1 - (wi.n)^2)] of the refraction formula. *)
Definition discriminant (wi n : Vec3) (eta : Float) : Float :=
  f1 - eta * eta * (f1 - dot wi n * dot wi n).

(** Modelled from the spec: [math::refraction] is not under src/.  Section 4.2:
    "wt = -eta wi + (eta (wi.n) - sqrt(1 - eta^2 (1 - (wi.n)^2))) n; if
    discriminant < 0, total_internal = true".  The specification leaves the
    direction open under total internal reflection; the zero vector stands
    for it. *)
Definition refraction (wi n : Vec3) (eta : Float) : Vec3 * bool :=
  let t2 := discriminant wi n eta in
  if t2 <? f0 then (vzero, true)
  else (vadd (sscale (- eta) wi) (sscale (eta * dot wi n - fsqrt t2) n), false).

End MathHelpers.

(* ===================================================================== *)
(** ** Materials and phase functions *)
(* ===================================================================== *)

(** *** material::glass *)
Module Material_Glass.
Section Glass.
Context `{FloatOps} `{!MathLib} `{!RngOps}.
Local Open Scope fl_scope.

(** The member [Ni_]. *)
Variable Ni_ : Float.

Definition is_specular (geom : PointGeometry) (comp : Z) : bool := true.

(** The cosine that [fresnel] feeds to Schlick's formula. *)
Definition fresnel_cos (wi wt : Vec3) (geom : PointGeometry) : Float :=
  let in_ := dot wi (pg_n geom) >? f0 in
  if in_ then dot wi (pg_n geom) else dot wt (pg_n geom).

(** [fresnel]: the locals [n] and [eta] of the source are not used by the
    result. *)
Definition fresnel (wi wt : Vec3) (geom : PointGeometry) : Float :=
  let cos := fresnel_cos wi wt geom in
  let r := (f1 - Ni_) / (f1 + Ni_) in
  let r2 := r * r in
  r2 + (f1 - r2) * fpown (f1 - cos) 5.

Definition sample_direction (rng : Rng) (geom : PointGeometry) (wi : Vec3)
  : option MaterialDirectionSample * Rng :=
  let in_ := dot wi (pg_n geom) >? f0 in
  let n := if in_ then pg_n geom else vneg (pg_n geom) in
  let eta := if in_ then f1 / Ni_ else Ni_ in
  let '(wt, total) := refraction wi n eta in
  let Fr := if total then f1 else fresnel wi wt geom in
  let '(u, rng') := rng_u rng in
  if u <? Fr then
    (* Reflection *)
    (Some (mkMDS (reflection wi (pg_n geom)) 0 (vec3 f1)), rng')
  else
    (* Refraction *)
    (Some (mkMDS wt 1 (vec3 (eta * eta))), rng').

Definition pdf_direction (geom : PointGeometry) (comp : Z) (wi wo : Vec3) : Float := f0.
Definition eval (geom : PointGeometry) (comp : Z) (wi wo : Vec3) : Vec3 := vec3 f0.

End Glass.
End Material_Glass.

(** *** phase::hg *)
Module Phase_HenyeyGreenstein.
Section HG.
Context `{FloatOps} `{!MathLib}.
Local Open Scope fl_scope.

(** The member [g_], the asymmetry parameter. *)
Variable g_ : Float.

Definition pdf_direction (geom : PointGeometry) (wi wo : Vec3) : Float :=
  let t := f1 + g_ * g_ + of_int 2 * g_ * dot wi wo in
  (f1 - g_ * g_) / (t * fsqrt t) / (Pi * of_int 4).

Definition eval (geom : PointGeometry) (wi wo : Vec3) : Vec3 :=
  vec3 (pdf_direction geom wi wo).

End HG.
End Phase_HenyeyGreenstein.

(** *** material::wavefrontobj_mixture *)
Module Material_WavefrontObj_Mixture.
Section Mixture.
Context `{FloatOps} `{!MathLib} `{!RngOps}.
Local Open Scope fl_scope.

(** [MaterialDirectionSample { wo, weight, specular }] and the [Material] and
    [Texture] interfaces as this file uses them. *)
Record MaterialSample := mkMaterialSample {
  ms_wo : Vec3;
  ms_weight : Vec3;
  ms_specular : bool
}.

Record Material := mkMaterial {
  m_sample_direction : Rng -> PointGeometry -> Vec3 -> TransDir -> option MaterialSample * Rng;
  m_reflectance : PointGeometry -> option Vec3;
  m_pdf_direction : PointGeometry -> Vec3 -> Vec3 -> bool -> Float;
  m_eval : PointGeometry -> Vec3 -> Vec3 -> TransDir -> bool -> Vec3
}.

Record Texture := mkTexture {
  tex_eval_alpha : Vec2 -> Float;
  tex_has_alpha : bool
}.

(** The members; [mask_tex_] is a nullable pointer. *)
Variable diffuse_ : Material.
Variable glossy_ : Material.
Variable alpha_mask_ : Material.
Variable mask_tex_ : option Texture.

(** Component indices. *)
Inductive Comp := Comp_Diffuse | Comp_Glossy | Comp_Alpha.

Definition comp_index (c : Comp) : Z :=
  match c with Comp_Diffuse => 0 | Comp_Glossy => 1 | Comp_Alpha => 2 end.

Definition material_by_comp (comp : Comp) : Material :=
  match comp with
  | Comp_Diffuse => diffuse_
  | Comp_Glossy => glossy_
  | Comp_Alpha => alpha_mask_
  end.

Definition is_specular_comp (comp : Comp) : bool :=
  match comp with Comp_Alpha => true | _ => false end.

(** [diffuse_selection_weight] dereferences the optional reflectances of the
    two lobes; [None] is the undefined dereference of an empty optional. *)
Definition diffuse_selection_weight (geom : PointGeometry) : option Float :=
  rd ← m_reflectance diffuse_ geom;
  rg ← m_reflectance glossy_ geom;
  let weight_d := compMax rd in
  let weight_g := compMax rg in
  Some (if (weight_d =? f0) && (weight_g =? f0) then f1
        else weight_d / (weight_d + weight_g)).

Definition eval_alpha (geom : PointGeometry) : Float :=
  match mask_tex_ with
  | None => f1
  | Some tex => tex_eval_alpha tex (pg_t geom)
  end.

Definition sample_comp_select (rng : Rng) (geom : PointGeometry) : option Comp * Rng :=
  let alpha := eval_alpha geom in
  let '(u, rng1) := rng_u rng in
  if u >? alpha then (Some Comp_Alpha, rng1)
  else
    match diffuse_selection_weight geom with
    | None => (None, rng1)
    | Some weight_d =>
        let '(u', rng2) := rng_u rng1 in
        if u' <? weight_d then (Some Comp_Diffuse, rng2) else (Some Comp_Glossy, rng2)
    end.

Definition pdf_comp_select (geom : PointGeometry) (comp : Comp) : option Float :=
  let alpha := eval_alpha geom in
  match comp with
  | Comp_Alpha => Some (f1 - alpha)
  | Comp_Diffuse => weight_d ← diffuse_selection_weight geom; Some (alpha * weight_d)
  | Comp_Glossy => weight_d ← diffuse_selection_weight geom; Some (alpha * (f1 - weight_d))
  end.

Definition eval_mix_weight (geom : PointGeometry) (comp : Comp) : Float :=
  let alpha := eval_alpha geom in
  match comp with Comp_Alpha => f1 - alpha | _ => alpha end.

Definition is_samplable (comp other_comp : Comp) : bool :=
  match comp with
  | Comp_Diffuse | Comp_Glossy => negb (is_specular_comp other_comp)
  | Comp_Alpha => is_specular_comp other_comp
  end.

(** The lambdas [eval_pdf] and [eval_f]. *)
Definition eval_pdf (geom : PointGeometry) (wi wo : Vec3) (eval_delta : bool) (c : Comp)
  : option Float :=
  p_sel ← pdf_comp_select geom c;
  let p := m_pdf_direction (material_by_comp c) geom wi wo eval_delta in
  Some (p_sel * p).

Definition eval_f (geom : PointGeometry) (wi wo : Vec3) (trans_dir : TransDir)
  (eval_delta : bool) (c : Comp) : Vec3 :=
  let w := eval_mix_weight geom c in
  let f := m_eval (material_by_comp c) geom wi wo trans_dir eval_delta in
  sscale w f.

Definition pdf_direction (geom : PointGeometry) (wi wo : Vec3) (eval_delta : bool)
  : option Float :=
  if opposite geom wi wo then
    eval_pdf geom wi wo eval_delta Comp_Alpha
  else
    pd ← eval_pdf geom wi wo eval_delta Comp_Diffuse;
    let p_maginal := f0 + pd in
    pg ← eval_pdf geom wi wo eval_delta Comp_Glossy;
    Some (p_maginal + pg).

Definition eval (geom : PointGeometry) (wi wo : Vec3) (trans_dir : TransDir)
  (eval_delta : bool) : Vec3 :=
  if opposite geom wi wo then
    eval_f geom wi wo trans_dir eval_delta Comp_Alpha
  else
    let f_mixture := vec3 f0 in
    let f_mixture := vadd f_mixture (eval_f geom wi wo trans_dir eval_delta Comp_Diffuse) in
    vadd f_mixture (eval_f geom wi wo trans_dir eval_delta Comp_Glossy).

(** [sample_direction]: the outer [None] is the undefined dereference inside
    the component selection or the density; [Some None] is the empty sample
    the source returns when the chosen lobe fails to sample. *)
Definition sample_direction (rng : Rng) (geom : PointGeometry) (wi : Vec3)
  (trans_dir : TransDir) : option (option MaterialSample) * Rng :=
  match sample_comp_select rng geom with
  | (None, rng1) => (None, rng1)
  | (Some comp, rng1) =>
      match m_sample_direction (material_by_comp comp) rng1 geom wi trans_dir with
      | (None, rng2) => (Some None, rng2)
      | (Some s, rng2) =>
          let f := eval geom wi (ms_wo s) trans_dir false in
          match pdf_direction geom wi (ms_wo s) false with
          | None => (None, rng2)
          | Some p =>
              let C := vdivs f p in
              (Some (Some (mkMaterialSample (ms_wo s) C (is_specular_comp comp))), rng2)
          end
      end
  end.

Definition reflectance (geom : PointGeometry) : option Vec3 :=
  m_reflectance diffuse_ geom.

End Mixture.
End Material_WavefrontObj_Mixture.

(* ===================================================================== *)
(** ** model::wavefrontobj: the material callback of construct *)
(* ===================================================================== *)

(** A property value inside the JSON object handed to [comp::create]. *)
Inductive PropValue `{FloatOps} {Json : Type} :=
  | PFloat (x : Float)
  | PVec3 (v : Vec3)
  | PString (s : string)
  | PJson (j : Json).
Arguments PropValue {_} Json.

(** What the callback needs from the framework and that is not under src/:
    the JSON configuration ([prop.find], [json::value] with a default), the
    component factory [comp::create] (a null pointer is [None]), the locator
    [make_loc], and the two std::filesystem computations on the texture path
    ([stem()], and [remove_filename() / name]). *)
Class Framework `{FloatOps} := {
  Json : Type;
  Component : Type;
  json_find : Json -> string -> option Json;
  json_value_bool : Json -> string -> bool -> bool;
  json_value_string : Json -> string -> string -> string;
  create : string -> string -> list (string * PropValue Json) -> option Component;
  make_loc : string -> string;
  path_stem : string -> string;
  path_sibling : string -> string -> string
}.

Module Model_WavefrontObj.
Section Construct.
Context `{FloatOps} `{!MathLib} `{!Framework}.
Local Open Scope fl_scope.

(** [MTLMatParams], the material record of the OBJ/MTL loader. *)
Record MTLMatParams := mkMTL {
  name : string;
  Kd : Vec3;
  Ks : Vec3;
  Ke : Vec3;
  Ns : Float;
  Ni : Float;
  illum : Z;
  mapKd : string;
  an : Float
}.

(** The members [assets_] and [assets_map_]. *)
Record Model := mkModel {
  assets_ : list Component;
  assets_map_ : gmap string Z
}.

(** [assets_map_[key] = int(assets_.size()); assets_.push_back(c)]. *)
Definition register (key : string) (c : Component) (st : Model) : Model :=
  mkModel (assets_ st ++ [c])
          (<[key := Z.of_nat (length (assets_ st))]> (assets_map_ st)).

(** "Load texture": the locator [mapKd_loc] and the model afterwards, or
    [None] when the texture could not be created. *)
Definition load_texture (prop : Json) (path : string) (m : MTLMatParams) (st : Model)
  : option (string * Model) :=
  if bool_decide (mapKd m = "") then Some ("", st)
  else
    let id := "texture_" +:+ path_stem (mapKd m) in
    match assets_map_ st !! id with
    | Some _ => Some (make_loc id, st)
    | None =>
        let textureAssetName := json_value_string prop "texture" "texture::bitmap" in
        match create textureAssetName (make_loc id)
                [("path", PString (path_sibling path (mapKd m)))] with
        | None => None
        | Some texture => Some (make_loc id, register id texture st)
        end
    end.

(** "Load material": the pointer [mat] after the branches (NO_MIXTURE_MATERIAL
    is 0). *)
Definition load_material (prop : Json) (m : MTLMatParams) (mapKd_loc : string)
  : option Component :=
  let skip_specular_mat := json_value_bool prop "skip_specular_mat" false in
  if (illum m =? 5)%Z || (illum m =? 7)%Z then
    if skip_specular_mat then
      create "material::diffuse" (make_loc (name m)) [("Kd", PVec3 (vec3 f0))]
    else if (illum m =? 7)%Z then
      create "material::glass" (make_loc (name m)) [("Ni", PFloat (Ni m))]
    else if (illum m =? 5)%Z then
      create "material::mirror" (make_loc (name m)) []
    else None
  else
    let r := of_int 2 / (of_int 2 + Ns m) in
    let as_ := safe_sqrt (f1 - an m * lit 9 10) in
    create
      (if skip_specular_mat then "material::wavefrontobj_marginal_without_alpha"
       else "material::wavefrontobj_mixture")
      (make_loc (name m))
      [("Kd", PVec3 (Kd m));
       ("mapKd", PString mapKd_loc);
       ("Ks", PVec3 (Ks m));
       ("ax", PFloat (fmax (lit 1 1000) (r / as_)));
       ("ay", PFloat (fmax (lit 1 1000) (r * as_)))].

(** The "Process material" callback: its return value and the model after. *)
Definition process_material (prop : Json) (path : string) (m : MTLMatParams) (st : Model)
  : bool * Model :=
  match json_find prop "base_material" with
  | Some it =>
      match create "material::proxy" (make_loc (name m)) [("ref", PJson it)] with
      | None => (false, st)
      | Some mat => (true, register (name m) mat st)
      end
  | None =>
      match load_texture prop path m st with
      | None => (false, st)
      | Some (mapKd_loc, st1) =>
          match load_material prop m mapKd_loc with
          | None => (false, st1)
          | Some mat => (true, register (name m) mat st1)
          end
      end
  end.

(** The material asset registered under the name of [m], when the callback
    succeeds. *)
Definition created_material (prop : Json) (path : string) (m : MTLMatParams) (st : Model)
  : option Component :=
  match process_material prop path m st with
  | (true, st') =>
      i ← assets_map_ st' !! name m;
      assets_ st' !! Z.to_nat i
  | (false, _) => None
  end.

End Construct.
End Model_WavefrontObj.

(* ===================================================================== *)
(** ** renderer::pt *)
(* ===================================================================== *)

(** The outcome of one iteration of a random walk: [break], fall through to
    the next iteration, or undefined behaviour (an empty optional is
    dereferenced). *)
Inductive Step (A : Type) :=
  | Break (a : A)
  | Continue (a : A)
  | Undefined.
Arguments Break {A} a.
Arguments Continue {A} a.
Arguments Undefined {A}.

(** Conversion to [int] (32 bits, two's complement). *)
Definition to_int (z : Z) : Z := (z + 2 ^ 31) mod 2 ^ 32 - 2 ^ 31.

(** The product of two [int]s, [a * b]: a product outside the range of [int]
    is signed overflow, which is undefined ([None]). *)
Definition int_mul (a b : Z) : option Z :=
  if (- 2 ^ 31 <=? a * b)%Z && (a * b <? 2 ^ 31)%Z then Some (a * b)%Z else None.

Inductive PTMode := Naive | NEE | MIS.
Inductive ImageSampleMode := Pixel | Image.

Module Renderer_PT.
Section PT.
Context `{FloatOps} `{!MathLib} `{!RngOps} `{!FilmOps}.
Local Open Scope fl_scope.

(** The members of the renderer; the film behind [film_] is threaded through
    the functions below. *)
Variable scene_ : Scene.
Variable max_length_ : Z.
Variable seed_ : option Z.
Variable pt_mode_ : PTMode.
Variable image_sample_mode_ : ImageSampleMode.
Variable sched_ : Scheduler.

(** The variables of one walk. *)
Record Walk := mkWalk {
  throughput : Vec3;
  wi : Vec3;
  sp : SceneInteraction;
  raster_pos : Vec2;
  rng : Rng;
  film : Film
}.

(** "Sample window". *)
Definition window (size : FilmSize) (pixel_index : Z) : Vec4 :=
  match image_sample_mode_ with
  | Pixel =>
      let x := to_int (Z.rem pixel_index (size_w size)) in
      let y := to_int (Z.quot pixel_index (size_w size)) in
      let dx := f1 / of_int (size_w size) in
      let dy := f1 / of_int (size_h size) in
      mkVec4 (dx * of_int x) (dy * of_int y) dx dy
  | Image => mkVec4 f0 f0 f1 f1
  end.

(** The lambda [nee]: is a NEE edge sampled at this vertex? *)
Definition nee (length : Z) (s : RaySample) : bool :=
  match pt_mode_ with
  | Naive => false
  | _ =>
      match image_sample_mode_ with
      | Pixel => (length >? 0)%Z && negb (is_specular scene_ (rs_sp s) (rs_comp s))
      | Image => negb (is_specular scene_ (rs_sp s) (rs_comp s))
      end
  end.

(** [directL] and the lambda [misw] of the NEE edge. *)
Definition directL (sL : RaySample) : bool :=
  negb (is_specular scene_ (rs_sp sL) (rs_comp sL))
  && negb (pg_degenerated (geom (rs_sp sL))).

Definition nee_misw (s sL : RaySample) (wi : Vec3) : Float :=
  let wo := vneg (rs_wo sL) in
  match pt_mode_ with
  | NEE => f1
  | _ =>
      if negb (directL sL) then f1
      else
        balance_heuristic
          (pdf_direct scene_ (rs_sp s) (rs_sp sL) (rs_comp sL) (rs_wo sL))
          (pdf_direction scene_ (rs_sp s) (rs_comp s) wi wo)
  end.

(** The body run when [nee] holds: the film and the generator afterwards. *)
Definition nee_edge (length : Z) (s : RaySample) (w : Walk) (raster_pos : Vec2) (rng : Rng)
  : Film * Rng :=
  let '(sL, rng1) := sample_direct_light scene_ rng (rs_sp s) in
  match sL with
  | None => (film w, rng1)
  | Some sL =>
      if negb (visible scene_ (rs_sp s) (rs_sp sL)) then (film w, rng1)
      else
        let rp :=
          if (length =? 0)%Z
          then raster_position scene_ (vneg (rs_wo sL)) (film_aspect (film w))
          else Some raster_pos in
        match rp with
        | None => (film w, rng1)
        | Some rp =>
            let wo := vneg (rs_wo sL) in
            let fs := eval_contrb scene_ (rs_sp s) (rs_comp s) (wi w) wo in
            let misw := nee_misw s sL (wi w) in
            let C := vscale (vmul (vmul (throughput w) fs) (rs_weight sL)) misw in
            (film_splat (film w) rp C, rng1)
        end
  end.

(** The lambdas [direct] and [misw] of the light hit. *)
Definition direct (nee : bool) (hit : SceneInteraction) : bool :=
  match pt_mode_ with
  | NEE => negb nee && is_light scene_ hit
  | _ => is_light scene_ hit
  end.

Definition direct_misw (nee : bool) (s : RaySample) (spL : SceneInteraction) (wi : Vec3)
  : Float :=
  let woL := vneg (rs_wo s) in
  match pt_mode_ with
  | Naive => f1
  | _ =>
      if negb nee then f1
      else
        balance_heuristic
          (pdf_direction scene_ (rs_sp s) (rs_comp s) wi (rs_wo s))
          (pdf_direct scene_ (rs_sp s) spL (-1) woL)
  end.

(** One iteration of the loop "Perform random walk". *)
Definition walk_body (length : Z) (w : Walk) : Step Walk :=
  let '(s, rng1) := sample_ray scene_ (rng w) (sp w) (wi w) in
  match s with
  | None => Break (mkWalk (throughput w) (wi w) (sp w) (raster_pos w) rng1 (film w))
  | Some s =>
      if is_zero (rs_weight s)
      then Break (mkWalk (throughput w) (wi w) (sp w) (raster_pos w) rng1 (film w))
      else
        let rpos :=
          if (length =? 0)%Z
          then raster_position scene_ (rs_wo s) (film_aspect (film w))
          else Some (raster_pos w) in
        match rpos with
        | None => Undefined
        | Some raster_pos =>
            let nee := nee length s in
            let '(film1, rng2) :=
              if nee then nee_edge length s w raster_pos rng1 else (film w, rng1) in
            match intersect scene_ (ray s) Eps Inf with
            | None => Break (mkWalk (throughput w) (wi w) (sp w) raster_pos rng2 film1)
            | Some hit =>
                let throughput := vmul (throughput w) (rs_weight s) in
                let film2 :=
                  if direct nee hit then
                    let spL := as_type hit LightEndpoint in
                    let woL := vneg (rs_wo s) in
                    let fs := eval_contrb_position scene_ spL woL in
                    let misw := direct_misw nee s spL (wi w) in
                    let C := vscale (vmul throughput fs) misw in
                    film_splat film1 raster_pos C
                  else film1 in
                if (length >? 3)%Z then
                  let q := fmax (lit 2 10) (f1 - compMax throughput) in
                  let '(u, rng3) := rng_u rng2 in
                  if u <? q
                  then Break (mkWalk throughput (wi w) (sp w) raster_pos rng3 film2)
                  else Continue (mkWalk (vdivs throughput (f1 - q)) (vneg (rs_wo s)) hit
                                        raster_pos rng3 film2)
                else Continue (mkWalk throughput (vneg (rs_wo s)) hit raster_pos rng2 film2)
            end
        end
  end.

(** [for (int length = 0; length < max_length_; length++)]: [n] counts the
    iterations that remain. *)
Fixpoint walk (n : nat) (length : Z) (w : Walk) : option Walk :=
  match n with
  | O => Some w
  | S n' =>
      match walk_body length w with
      | Undefined => None
      | Break w' => Some w'
      | Continue w' => walk n' (length + 1)%Z w'
      end
  end.

(** The thread-local generator: constructed the first time a thread runs the
    task, from [*seed_ + threadid] in unsigned arithmetic or from
    [math::rng_seed()]. *)
Definition thread_rng (rngs : gmap Z Rng) (threadid : Z) : Rng :=
  match rngs !! threadid with
  | Some r => r
  | None =>
      Rng_new (match seed_ with
               | Some sd => (sd + threadid) mod 2 ^ 32
               | None => rng_seed threadid
               end)
  end.

(** The task handed to the scheduler, over the film and the generators of the
    threads; [None] once a walk was undefined. *)
Definition process (size : FilmSize) (pixel_index sample_index threadid : Z)
  (st : option (Film * gmap Z Rng)) : option (Film * gmap Z Rng) :=
  '(film0, rngs) ← st;
  let w0 :=
    mkWalk (vec3 f1) vzero
           (make_camera_term (window size pixel_index) (film_aspect film0))
           v2zero (thread_rng rngs threadid) film0 in
  w ← walk (Z.to_nat max_length_) 0 w0;
  Some (film w, <[threadid := rng w]> rngs).

(** "Rescale film": the factor handed to [Film::rescale].  The product
    [size.w * size.h] is taken in [int] before the conversion to [Float];
    [None] when it overflows. *)
Definition rescale_factor (size : FilmSize) (processed : Z) : option Float :=
  match image_sample_mode_ with
  | Pixel => Some (f1 / of_int processed)
  | Image =>
      wh ← int_mul (size_w size) (size_h size);
      Some (of_int wh / of_int processed)
  end.

Definition render (film : Film) (rngs : gmap Z Rng)
  : SceneM (option (Film * gmap Z Rng)) :=
  require_renderable;;
  let film0 := film_clear film in
  let size := film_size film0 in
  let '(processed, st) := run sched_ _ (process size) (Some (film0, rngs)) in
  mret ('(film1, rngs1) ← st;
        factor ← rescale_factor size processed;
        Some (film_rescale film1 factor, rngs1)).

End PT.
End Renderer_PT.

(* ===================================================================== *)
(** ** renderer::volpt *)
(* ===================================================================== *)

Section PathRecords.
Context `{FloatOps}.

(** [PositionSample { sp, weight }] and [ComponentSample { comp, weight }] of
    lm/path.h, with the fields the renderer reads. *)
Record PositionSample := mkPositionSample {
  ps_sp : SceneInteraction;
  ps_weight : Vec3
}.

Record ComponentSample := mkComponentSample {
  cs_comp : Z;
  cs_weight : Float
}.

End PathRecords.
Arguments PositionSample {_}.
Arguments ComponentSample {_}.

(** The functions of namespace [path] that the renderer calls (lm/path.h is
    not under src/). *)
Class PathLib `{FloatOps} `{!MathLib} `{!RngOps} := {
  path_sample_position : Rng -> Scene -> TransDir -> option PositionSample * Rng;
  path_sample_component : Rng -> Scene -> SceneInteraction -> ComponentSample * Rng;
  path_is_specular_component : Scene -> SceneInteraction -> Z -> bool;
  path_sample_direct_light : Rng -> Scene -> SceneInteraction -> option RaySample * Rng;
  path_raster_position : Scene -> Vec3 -> option Vec2;
  path_eval_transmittance :
    Rng -> Scene -> SceneInteraction -> SceneInteraction -> Vec3 * Rng;
  path_eval_contrb_direction :
    Scene -> SceneInteraction -> Vec3 -> Vec3 -> Z -> TransDir -> bool -> Vec3;
  path_sample_direction :
    Rng -> Scene -> SceneInteraction -> Vec3 -> Z -> TransDir -> option DirectionSample * Rng;
  path_sample_distance :
    Rng -> Scene -> SceneInteraction -> Vec3 -> option DistanceSample * Rng
}.

Module Renderer_VolPT.
Section VolPT.
Context `{FloatOps} `{!MathLib} `{!RngOps} `{!FilmOps} `{!PathLib}.
Local Open Scope fl_scope.

Variable scene_ : Scene.
Variable max_verts_ : Z.
Variable rr_prob_ : Float.
Variable seed_ : option Z.
Variable sched_ : Scheduler.

(** The variables of one walk. *)
Record Walk := mkWalk {
  sp : SceneInteraction;
  comp : Z;
  throughput : Vec3;
  wi : Vec3;
  raster_pos : Vec2;
  rng : Rng;
  film : Film
}.

Definition samplable_by_nee (w : Walk) : bool :=
  negb (path_is_specular_component scene_ (sp w) (comp w)).

(** "Sample a NEE edge": the body run when the vertex is samplable. *)
Definition nee_edge (num_verts : Z) (w : Walk) : Film * Rng :=
  let '(sL, rng1) := path_sample_direct_light (rng w) scene_ (sp w) in
  match sL with
  | None => (film w, rng1)
  | Some sL =>
      let rp :=
        if (num_verts =? 1)%Z then path_raster_position scene_ (vneg (rs_wo sL))
        else Some (raster_pos w) in
      match rp with
      | None => (film w, rng1)
      | Some rp =>
          let '(Tr, rng2) := path_eval_transmittance rng1 scene_ (sp w) (rs_sp sL) in
          if is_zero Tr then (film w, rng2)
          else
            let wo := vneg (rs_wo sL) in
            let fs := path_eval_contrb_direction scene_ (sp w) (wi w) wo (comp w) EL true in
            if is_zero fs then (film w, rng2)
            else
              let C := vmul (vmul (vmul (throughput w) Tr) fs) (rs_weight sL) in
              (film_splat (film w) rp C, rng2)
      end
  end.

(** "Accumulate contribution from emissive interaction". *)
Definition emission (samplable_by_nee : bool) (comp : Z) (throughput : Vec3)
  (raster_pos : Vec2) (s : DirectionSample) (sd : DistanceSample) (film : Film) : Film :=
  if negb samplable_by_nee && is_light scene_ (dd_sp sd) then
    let spL := as_type (dd_sp sd) LightEndpoint in
    let woL := vneg (ds_wo s) in
    let Le := path_eval_contrb_direction scene_ spL vzero woL comp LE true in
    let C := vmul throughput Le in
    film_splat film raster_pos C
  else film.

(** One iteration of the loop "Perform random walk". *)
Definition walk_body (num_verts : Z) (w : Walk) : Step Walk :=
  let samplable_by_nee := samplable_by_nee w in
  let '(film1, rng1) :=
    if samplable_by_nee then nee_edge num_verts w else (film w, rng w) in
  let '(s, rng2) :=
    path_sample_direction rng1 scene_ (sp w) (wi w) (comp w) EL in
  match s with
  | None => Break (mkWalk (sp w) (comp w) (throughput w) (wi w) (raster_pos w) rng2 film1)
  | Some s =>
      let rpos :=
        if (num_verts =? 1)%Z then path_raster_position scene_ (ds_wo s)
        else Some (raster_pos w) in
      match rpos with
      | None => Undefined
      | Some raster_pos =>
          let '(sd, rng3) := path_sample_distance rng2 scene_ (sp w) (ds_wo s) in
          match sd with
          | None =>
              Break (mkWalk (sp w) (comp w) (throughput w) (wi w) raster_pos rng3 film1)
          | Some sd =>
              let throughput := vmul (throughput w) (vmul (ds_weight s) (dd_weight sd)) in
              let film2 :=
                emission samplable_by_nee (comp w) throughput raster_pos s sd film1 in
              if pg_infinite (geom (dd_sp sd)) then
                Break (mkWalk (sp w) (comp w) throughput (wi w) raster_pos rng3 film2)
              else
                let '(stop, throughput, rng4) :=
                  if (num_verts >? 5)%Z then
                    let q := fmax rr_prob_ (f1 - compMax throughput) in
                    let '(u, rng4) := rng_u rng3 in
                    if u <? q then (true, throughput, rng4)
                    else (false, vdivs throughput (f1 - q), rng4)
                  else (false, throughput, rng3) in
                if stop then
                  Break (mkWalk (sp w) (comp w) throughput (wi w) raster_pos rng4 film2)
                else
                  let '(s_comp, rng5) := path_sample_component rng4 scene_ (dd_sp sd) in
                  let throughput := vscale throughput (cs_weight s_comp) in
                  Continue (mkWalk (dd_sp sd) (cs_comp s_comp) throughput
                                   (vneg (ds_wo s)) raster_pos rng5 film2)
          end
      end
  end.

(** [for (int num_verts = 1; num_verts < max_verts_; num_verts++)]. *)
Fixpoint walk (n : nat) (num_verts : Z) (w : Walk) : option Walk :=
  match n with
  | O => Some w
  | S n' =>
      match walk_body num_verts w with
      | Undefined => None
      | Break w' => Some w'
      | Continue w' => walk n' (num_verts + 1)%Z w'
      end
  end.

Definition thread_rng (rngs : gmap Z Rng) (threadid : Z) : Rng :=
  match rngs !! threadid with
  | Some r => r
  | None =>
      Rng_new (match seed_ with
               | Some sd => (sd + threadid) mod 2 ^ 32
               | None => rng_seed threadid
               end)
  end.

(** The task: "Sample initial vertex", then the walk. *)
Definition process (pixel_index sample_index threadid : Z)
  (st : option (Film * gmap Z Rng)) : option (Film * gmap Z Rng) :=
  '(film0, rngs) ← st;
  let '(sE, rng1) := path_sample_position (thread_rng rngs threadid) scene_ EL in
  sE ← sE;
  let '(sE_comp, rng2) := path_sample_component rng1 scene_ (ps_sp sE) in
  let w0 :=
    mkWalk (ps_sp sE) (cs_comp sE_comp) (vscale (ps_weight sE) (cs_weight sE_comp))
           vzero v2zero rng2 film0 in
  w ← walk (Z.to_nat (max_verts_ - 1)) 1 w0;
  Some (film w, <[threadid := rng w]> rngs).

Definition render (film : Film) (rngs : gmap Z Rng)
  : SceneM (option (Film * gmap Z Rng) * Z) :=
  require_renderable;;
  let film0 := film_clear film in
  let size := film_size film0 in
  let '(processed, st) := run sched_ _ process (Some (film0, rngs)) in
  (* Rescale film: [Float(size.w * size.h) / processed], the product in [int] *)
  mret ('(film1, rngs1) ← st;
        wh ← int_mul (size_w size) (size_h size);
        Some (film_rescale film1 (of_int wh / of_int processed), rngs1),
        processed).

End VolPT.
End Renderer_VolPT.

(* ===================================================================== *)
(** ** model::wavefrontobj: the mesh callback, groups and lookup *)
(* ===================================================================== *)

(** The outcome of reading a container: the element, the exception
    [std::out_of_range] of a checked access, or an unchecked read outside the
    container (undefined). *)
Inductive Access (A : Type) :=
  | Found (a : A)
  | OutOfRange
  | Wild.
Arguments Found {A} a.
Arguments OutOfRange {A}.
Arguments Wild {A}.

(** [v[i]] and [v.at(i)] for an [int] index: a negative index converts to a
    size beyond every vector. *)
Definition elem {A : Type} (l : list A) (i : Z) : option A :=
  if (0 <=? i)%Z then l !! Z.to_nat i else None.

Module Model_WavefrontObj_Mesh.
Section Groups.
Context `{FloatOps} `{!MathLib} `{!Framework}.
Local Open Scope fl_scope.
Import Model_WavefrontObj.

(** [OBJMeshFaceIndex { p, t, n }]: indices into the geometry pool, negative
    when the attribute is missing; [OBJMeshFace] is a vector of them. *)
Record OBJMeshFaceIndex := mkFaceIndex { fi_p : Z; fi_t : Z; fi_n : Z }.
Definition OBJMeshFace : Type := list OBJMeshFaceIndex.

(** The struct [Group] and the member [groups_] beside the assets. *)
Record Group := mkGroup { g_mesh : Z; g_material : Z; g_light : Z }.

Record ModelState := mkModelState {
  model : Model;
  groups_ : list Group
}.

(** [comp::create<Mesh>("mesh::wavefrontobj", loc, json::merge(prop,
    {model_, fs_}))]: the factory call for the mesh, a parameter. *)
Variable create_mesh : string -> Json -> OBJMeshFace -> option Component.

(** [assets_map_[key]] read as a value: [operator[]] of the unordered map
    inserts 0 under a missing key. *)
Definition index_or_insert (key : string) (st : Model) : Z * Model :=
  match assets_map_ st !! key with
  | Some i => (i, st)
  | None => (0%Z, mkModel (assets_ st) (<[key := 0%Z]> (assets_map_ st)))
  end.

(** The "Process mesh" callback: its return value and the state after. *)
Definition process_mesh (prop : Json) (fs : OBJMeshFace) (m : MTLMatParams)
  (st : ModelState) : bool * ModelState :=
  let mesh_name := "mesh_" +:+ pretty (length (assets_ (model st))) in
  match create_mesh (make_loc mesh_name) prop fs with
  | None => (false, st)
  | Some mesh =>
      let st1 := register mesh_name mesh (model st) in
      (* Create area light if Ke > 0 *)
      let lit_ :=
        if compMax (Ke m) >? f0 then
          let light_impl_name := json_value_string prop "light" "light::area" in
          let light_name := mesh_name +:+ "_light" in
          match create light_impl_name (make_loc light_name)
                  [("Ke", PVec3 (Ke m)); ("mesh", PString (make_loc mesh_name))] with
          | None => None
          | Some light =>
              Some (Z.of_nat (length (assets_ st1)), register light_name light st1)
          end
        else Some ((-1)%Z, st1) in
      match lit_ with
      | None => (false, mkModelState st1 (groups_ st))
      | Some (light_index, st2) =>
          (* Create mesh group *)
          let '(mesh_i, st3) := index_or_insert mesh_name st2 in
          let '(material_i, st4) := index_or_insert (name m) st3 in
          (true, mkModelState st4 (groups_ st ++ [mkGroup mesh_i material_i light_index]))
      end
  end.

(** [underlying(name)]: [assets_[assets_map_.at(name)].get()]. *)
Definition underlying (st : Model) (key : string) : Access Component :=
  match assets_map_ st !! key with
  | None => OutOfRange
  | Some i =>
      match elem (assets_ st) i with
      | Some c => Found c
      | None => Wild
      end
  end.

(** [create_primitives]: the calls of [createPrimitive(mesh, material, light)]
    made so far, and whether [assets_.at] threw. *)
Fixpoint create_primitives_from (st : Model) (gs : list Group)
  (calls : list (Component * Component * option Component))
  : list (Component * Component * option Component) * bool :=
  match gs with
  | [] => (calls, false)
  | g :: gs' =>
      match elem (assets_ st) (g_mesh g) with
      | None => (calls, true)
      | Some meshp =>
          match elem (assets_ st) (g_material g) with
          | None => (calls, true)
          | Some materialp =>
              if (g_light g <? 0)%Z then
                create_primitives_from st gs' (calls ++ [(meshp, materialp, None)])
              else
                match elem (assets_ st) (g_light g) with
                | None => (calls, true)
                | Some lightp =>
                    create_primitives_from st gs' (calls ++ [(meshp, materialp, Some lightp)])
                end
          end
      end
  end.

Definition create_primitives (st : ModelState)
  : list (Component * Component * option Component) * bool :=
  create_primitives_from (model st) (groups_ st) [].

End Groups.
End Model_WavefrontObj_Mesh.

(** *** mesh::wavefrontobj *)
Module Mesh_WavefrontObj.
Section Mesh.
Context `{FloatOps}.
Local Open Scope fl_scope.
Import Model_WavefrontObj_Mesh.

(** [OBJSurfaceGeometry { ps, ns, ts }], the geometry pool of the model. *)
Record OBJSurfaceGeometry := mkGeo {
  ps : list Vec3;
  ns : list Vec3;
  ts : list Vec2
}.

(** [Mesh::Point { p, n, t }], [Mesh::Tri { p1, p2, p3 }] and
    [Mesh::InterpolatedPoint { p, n, gn, t }]. *)
Record Point := mkPoint { pt_p : Vec3; pt_n : Vec3; pt_t : Vec2 }.
Record Tri := mkTri { tri_p1 : Point; tri_p2 : Point; tri_p3 : Point }.
Record InterpolatedPoint := mkIP { ip_p : Vec3; ip_n : Vec3; ip_gn : Vec3; ip_t : Vec2 }.

(** [math::mix_barycentric] (on points and on texture coordinates) and
    [math::geometry_normal] are not under src/: parameters. *)
Variable mix_barycentric : Vec3 -> Vec3 -> Vec3 -> Vec2 -> Vec3.
Variable mix_barycentric2 : Vec2 -> Vec2 -> Vec2 -> Vec2 -> Vec2.
Variable geometry_normal : Vec3 -> Vec3 -> Vec3 -> Vec3.

(** The members: the pool [model_->geo_] and the faces [fs_]. *)
Variable geo_ : OBJSurfaceGeometry.
Variable fs_ : OBJMeshFace.

(** [int(fs_.size()) / 3]. *)
Definition num_triangles : Z := Z.quot (to_int (Z.of_nat (length fs_))) 3.

(** One corner of [triangle_at]; [None] is a read outside [fs_] or the pool. *)
Definition corner (f : OBJMeshFaceIndex) : option Point :=
  p ← elem (ps geo_) (fi_p f);
  n ← (if (fi_n f <? 0)%Z then Some vzero else elem (ns geo_) (fi_n f));
  t ← (if (fi_t f <? 0)%Z then Some v2zero else elem (ts geo_) (fi_t f));
  Some (mkPoint p n t).

Definition triangle_at (face : Z) : option Tri :=
  f1 ← elem fs_ (3 * face)%Z;
  f2 ← elem fs_ (3 * face + 1)%Z;
  f3 ← elem fs_ (3 * face + 2)%Z;
  c1 ← corner f1;
  c2 ← corner f2;
  c3 ← corner f3;
  Some (mkTri c1 c2 c3).

(** [foreach_triangle]: the calls [processTriangle(fi, triangle_at(fi))] in
    order. *)
Fixpoint foreach_triangle_from (n : nat) (fi : Z) : option (list (Z * Tri)) :=
  match n with
  | O => Some []
  | S n' =>
      tri ← triangle_at fi;
      rest ← foreach_triangle_from n' (fi + 1)%Z;
      Some ((fi, tri) :: rest)
  end.

Definition foreach_triangle : option (list (Z * Tri)) :=
  foreach_triangle_from (Z.to_nat num_triangles) 0.

Definition surface_point (face : Z) (uv : Vec2) : option InterpolatedPoint :=
  i1 ← elem fs_ (3 * face)%Z;
  i2 ← elem fs_ (3 * face + 1)%Z;
  i3 ← elem fs_ (3 * face + 2)%Z;
  p1 ← elem (ps geo_) (fi_p i1);
  p2 ← elem (ps geo_) (fi_p i2);
  p3 ← elem (ps geo_) (fi_p i3);
  n ← (if (fi_n i1 <? 0)%Z then Some (geometry_normal p1 p2 p3)
       else
         n1 ← elem (ns geo_) (fi_n i1);
         n2 ← elem (ns geo_) (fi_n i2);
         n3 ← elem (ns geo_) (fi_n i3);
         Some (normalize (mix_barycentric n1 n2 n3 uv)));
  t ← (if (fi_t i1 <? 0)%Z then Some v2zero
       else
         t1 ← elem (ts geo_) (fi_t i1);
         t2 ← elem (ts geo_) (fi_t i2);
         t3 ← elem (ts geo_) (fi_t i3);
         Some (mix_barycentric2 t1 t2 t3 uv));
  Some (mkIP (mix_barycentric p1 p2 p3 uv) n (geometry_normal p1 p2 p3) t).

End Mesh.
End Mesh_WavefrontObj.

(* ===================================================================== *)
(** ** More materials: mixture without alpha, mirror, mask *)
(* ===================================================================== *)

(** *** material::wavefrontobj_marginal_without_alpha *)
Module Material_WavefrontObj_Mixture_Without_Alpha.
Section MixtureWithoutAlpha.
Context `{FloatOps} `{!MathLib} `{!RngOps}.
Local Open Scope fl_scope.
Import Material_WavefrontObj_Mixture.

(** The members. *)
Variable diffuse_ : Material.
Variable glossy_ : Material.

(** Component indices of this class. *)
Inductive Comp2 := Comp2_Diffuse | Comp2_Glossy.

Definition material_by_comp (comp : Comp2) : Material :=
  match comp with
  | Comp2_Diffuse => diffuse_
  | Comp2_Glossy => glossy_
  end.

Definition diffuse_selection_weight (geom : PointGeometry) : option Float :=
  rd ← m_reflectance diffuse_ geom;
  rg ← m_reflectance glossy_ geom;
  let weight_d := compMax rd in
  let weight_g := compMax rg in
  Some (if (weight_d =? f0) && (weight_g =? f0) then f1
        else weight_d / (weight_d + weight_g)).

Definition sample_comp_select (rng : Rng) (geom : PointGeometry) : option Comp2 * Rng :=
  match diffuse_selection_weight geom with
  | None => (None, rng)
  | Some weight_d =>
      let '(u, rng1) := rng_u rng in
      if u <? weight_d then (Some Comp2_Diffuse, rng1) else (Some Comp2_Glossy, rng1)
  end.

Definition pdf_comp_select (geom : PointGeometry) (comp : Comp2) : option Float :=
  weight_d ← diffuse_selection_weight geom;
  match comp with
  | Comp2_Diffuse => Some weight_d
  | Comp2_Glossy => Some (f1 - weight_d)
  end.

Definition eval_pdf (geom : PointGeometry) (wi wo : Vec3) (c : Comp2) : option Float :=
  p_sel ← pdf_comp_select geom c;
  let p := m_pdf_direction (material_by_comp c) geom wi wo false in
  Some (p_sel * p).

Definition pdf_direction (geom : PointGeometry) (wi wo : Vec3) (eval_delta : bool)
  : option Float :=
  pd ← eval_pdf geom wi wo Comp2_Diffuse;
  let p_maginal := f0 + pd in
  pg ← eval_pdf geom wi wo Comp2_Glossy;
  Some (p_maginal + pg).

Definition eval_f (geom : PointGeometry) (wi wo : Vec3) (trans_dir : TransDir) (c : Comp2)
  : Vec3 :=
  m_eval (material_by_comp c) geom wi wo trans_dir false.

Definition eval (geom : PointGeometry) (wi wo : Vec3) (trans_dir : TransDir)
  (eval_delta : bool) : Vec3 :=
  let f_mixture := vec3 f0 in
  let f_mixture := vadd f_mixture (eval_f geom wi wo trans_dir Comp2_Diffuse) in
  vadd f_mixture (eval_f geom wi wo trans_dir Comp2_Glossy).

(** [sample_direction]: as for the mixture with alpha, the outer [None] is an
    undefined dereference and [Some None] the empty sample. *)
Definition sample_direction (rng : Rng) (geom : PointGeometry) (wi : Vec3)
  (trans_dir : TransDir) : option (option MaterialSample) * Rng :=
  match sample_comp_select rng geom with
  | (None, rng1) => (None, rng1)
  | (Some comp, rng1) =>
      match m_sample_direction (material_by_comp comp) rng1 geom wi trans_dir with
      | (None, rng2) => (Some None, rng2)
      | (Some s, rng2) =>
          let f := eval geom wi (ms_wo s) trans_dir false in
          match pdf_direction geom wi (ms_wo s) false with
          | None => (None, rng2)
          | Some p => (Some (Some (mkMaterialSample (ms_wo s) (vdivs f p) false)), rng2)
          end
      end
  end.

Definition reflectance (geom : PointGeometry) : option Vec3 :=
  m_reflectance diffuse_ geom.

End MixtureWithoutAlpha.
End Material_WavefrontObj_Mixture_Without_Alpha.

(** *** material::mirror and material::mask *)
Module Material_Mirror.
Section Mirror.
Context `{FloatOps} `{!RngOps}.

(** [SurfaceComp::DontCare], a constant of lm/surface.h. *)
Variable DontCare : Z.

Definition is_specular (geom : PointGeometry) (comp : Z) : bool := true.

Definition sample_direction (rng : Rng) (geom : PointGeometry) (wi : Vec3)
  : option MaterialDirectionSample * Rng :=
  (Some (mkMDS (reflection wi (pg_n geom)) DontCare (vec3 f1)), rng).

Definition sample_direction_given_comp (geom : PointGeometry) (comp : Z) (wi : Vec3)
  : option Vec3 :=
  Some (reflection wi (pg_n geom)).

Definition pdf_direction (geom : PointGeometry) (comp : Z) (wi wo : Vec3) : Float := f0.
Definition eval (geom : PointGeometry) (comp : Z) (wi wo : Vec3) : Vec3 := vec3 f0.

End Mirror.
End Material_Mirror.

Module Material_Mask.
Section Mask.
Context `{FloatOps} `{!RngOps}.

Variable DontCare : Z.

Definition is_specular (geom : PointGeometry) (comp : Z) : bool := true.

Definition sample_direction (rng : Rng) (geom : PointGeometry) (wi : Vec3)
  : option MaterialDirectionSample * Rng :=
  (Some (mkMDS (vneg wi) DontCare (vec3 f1)), rng).

Definition sample_direction_given_comp (geom : PointGeometry) (comp : Z) (wi : Vec3)
  : option Vec3 :=
  Some (vneg wi).

Definition pdf_direction (geom : PointGeometry) (comp : Z) (wi wo : Vec3) : Float := f0.
Definition eval (geom : PointGeometry) (comp : Z) (wi wo : Vec3) : Vec3 := vec3 f0.

End Mask.
End Material_Mask.

(** *** material::glass, sampling a given component *)
Module Material_Glass_Comp.
Section GlassComp.
Context `{FloatOps}.
Local Open Scope fl_scope.

Variable Ni_ : Float.

(** [sample_direction_given_comp]: [None] is the unreachable return for a
    component other than 0 and 1. *)
Definition sample_direction_given_comp (geom : PointGeometry) (comp : Z) (wi : Vec3)
  : option Vec3 :=
  if (comp =? 0)%Z then Some (reflection wi (pg_n geom))
  else if (comp =? 1)%Z then
    let in_ := dot wi (pg_n geom) >? f0 in
    let n := if in_ then pg_n geom else vneg (pg_n geom) in
    let eta := if in_ then f1 / Ni_ else Ni_ in
    let '(wt, total) := refraction wi n eta in
    Some wt
  else None.

End GlassComp.
End Material_Glass_Comp.

(** *** phase::hg, sampling *)

(** [std::abs], [std::sin] and [std::cos]. *)
Class Libm `{FloatOps} := {
  fabs : Float -> Float;
  fsin : Float -> Float;
  fcos : Float -> Float
}.

Definition RealLibm : @Libm RealOps := @Build_Libm RealOps Rabs sin cos.

Module Phase_HenyeyGreenstein_Sample.
Section HGSample.
Context `{FloatOps} `{!MathLib} `{!RngOps} `{!Libm}.
Local Open Scope fl_scope.

Variable g_ : Float.

(** [math::orthonormal_basis] is not under src/: a parameter. *)
Variable orthonormal_basis : Vec3 -> Vec3 * Vec3.

(** [PhaseDirectionSample { wo, weight, specular }]. *)
Record PhaseDirectionSample := mkPDS {
  pds_wo : Vec3;
  pds_weight : Vec3;
  pds_specular : bool
}.

(** [Mat3(c0, c1, c2) * v]: the columns weighted by the components. *)
Definition mat3_mul (c0 c1 c2 v : Vec3) : Vec3 :=
  mkVec3 (vx c0 * vx v + vx c1 * vy v + vx c2 * vz v)
         (vy c0 * vx v + vy c1 * vy v + vy c2 * vz v)
         (vz c0 * vx v + vz c1 * vy v + vz c2 * vz v).

(** The lambda [cosT], on the uniform number it draws. *)
Definition cosT (u : Float) : Float :=
  if fabs g_ <? Eps then f1 - of_int 2 * u
  else
    let sq := (f1 - g_ * g_) / (f1 - g_ + of_int 2 * g_ * u) in
    (f1 + g_ * g_ - sq * sq) / (of_int 2 * g_).

Definition sample_direction (rng : Rng) (geom : PointGeometry) (wi : Vec3)
  : option PhaseDirectionSample * Rng :=
  let '(u1, rng1) := rng_u rng in
  let cosT := cosT u1 in
  let sinT := safe_sqrt (f1 - cosT * cosT) in
  let '(u2, rng2) := rng_u rng1 in
  let phi := of_int 2 * Pi * u2 in
  let sinP := fsin phi in
  let cosP := fcos phi in
  let local_wo := mkVec3 (sinT * cosP) (sinT * sinP) cosT in
  let '(u, v) := orthonormal_basis (vneg wi) in
  let wo := mat3_mul u v (vneg wi) local_wo in
  (Some (mkPDS wo (vec3 f1) false), rng2).

End HGSample.
End Phase_HenyeyGreenstein_Sample.

(* ===================================================================== *)
(** ** renderer::ptdirect *)
(* ===================================================================== *)

Module Renderer_PTDirect.
Section PTDirect.
Context `{FloatOps} `{!MathLib} `{!RngOps}.
Local Open Scope fl_scope.

(** This renderer is written against an earlier scene interface.  Its
    [SurfacePoint] (with the position [p]) and its film are not under src/:
    parameters, with the operations the renderer calls. *)
Variable SurfPoint : Type.
Variable sp_p : SurfPoint -> Vec3.
Variable FilmD : Type.
Variable film_size_wh : FilmD -> Z * Z.
Variable setPixel : FilmD -> Z -> Z -> Vec3 -> FilmD.

Record RaySampleD := mkRaySampleD {
  rd_sp : SurfPoint;
  rd_wo : Vec3;
  rd_weight : Vec3
}.

Record LightSample := mkLightSample {
  ls_wo : Vec3;
  ls_d : Float;
  ls_weight : Vec3
}.

Record SceneD := mkSceneD {
  samplePrimaryRay : Rng -> Vec4 -> option RaySampleD * Rng;
  sampleRay : Rng -> SurfPoint -> Vec3 -> option RaySampleD * Rng;
  isSpecular : SurfPoint -> bool;
  sampleLight : Rng -> SurfPoint -> option LightSample * Rng;
  intersectD : Ray -> Float -> Float -> option SurfPoint;
  evalBsdf : SurfPoint -> Vec3 -> Vec3 -> Vec3
}.

(** The members; [rngSeed_] is 42. *)
Variable spp_ : Z.
Variable maxLength_ : Z.
Definition rngSeed_ : Z := 42.

Variable scene : SceneD.

(** The variables of one walk.  [cur] is [None] while [sampleRay] is the
    initial lambda (the primary ray); afterwards it holds [sp] and [wi],
    which the source leaves uninitialised until then. *)
Record WalkD := mkWalkD {
  throughput : Vec3;
  cur : option (SurfPoint * Vec3);
  L : Vec3;
  rng : Rng
}.

(** "Pixel positions". *)
Definition pixel_x (w index : Z) : Z := to_int (Z.rem index w).
Definition pixel_y (w index : Z) : Z := to_int (Z.quot index w).

(** The call [sampleRay()]. *)
Definition sample_ray_of (x y w h : Z) (c : option (SurfPoint * Vec3)) (r : Rng)
  : option RaySampleD * Rng :=
  match c with
  | None =>
      let dx := f1 / of_int w in
      let dy := f1 / of_int h in
      samplePrimaryRay scene r (mkVec4 (dx * of_int x) (dy * of_int y) dx dy)
  | Some (sp, wi) => sampleRay scene r sp wi
  end.

(** "Sample a NEE edge": the radiance and the generator afterwards; [None]
    when the uninitialised [wi] would be read. *)
Definition nee_edge (s : RaySampleD) (st : WalkD) (rng1 : Rng) : option (Vec3 * Rng) :=
  let '(sL, rng2) := sampleLight scene rng1 (rd_sp s) in
  match sL with
  | None => Some (L st, rng2)
  | Some sL =>
      if bool_decide (is_Some (intersectD scene (mkRay (sp_p (rd_sp s)) (ls_wo sL)) Eps
                                 (ls_d sL * (f1 - Eps))))
      then Some (L st, rng2)
      else
        match cur st with
        | None => None
        | Some (_, wi) =>
            Some (vadd (L st)
                    (vmul (vmul (throughput st) (evalBsdf scene (rd_sp s) wi (ls_wo sL)))
                          (ls_weight sL)),
                  rng2)
        end
  end.

(** One iteration of "Perform random walk". *)
Definition walk_body (x y w h : Z) (length : Z) (st : WalkD) : Step WalkD :=
  let '(s, rng1) := sample_ray_of x y w h (cur st) (rng st) in
  match s with
  | None => Break (mkWalkD (throughput st) (cur st) (L st) rng1)
  | Some s =>
      if is_zero (rd_weight s) then Break (mkWalkD (throughput st) (cur st) (L st) rng1)
      else
        let enableNEE := (length >? 0)%Z && negb (isSpecular scene (rd_sp s)) in
        match (if enableNEE then nee_edge s st rng1 else Some (L st, rng1)) with
        | None => Undefined
        | Some (L1, rng2) =>
            match intersectD scene (mkRay (sp_p (rd_sp s)) (rd_wo s)) Eps Inf with
            | None => Break (mkWalkD (throughput st) (cur st) L1 rng2)
            | Some hit =>
                let throughput := vmul (throughput st) (rd_weight s) in
                if (length >? 3)%Z then
                  let q := fmax (lit 2 10) (f1 - compMax throughput) in
                  let '(u, rng3) := rng_u rng2 in
                  if u <? q then Break (mkWalkD throughput (cur st) L1 rng3)
                  else Continue (mkWalkD (vdivs throughput (f1 - q))
                                         (Some (hit, vneg (rd_wo s))) L1 rng3)
                else Continue (mkWalkD throughput (Some (hit, vneg (rd_wo s))) L1 rng2)
            end
        end
  end.

Fixpoint walk (x y w h : Z) (n : nat) (length : Z) (st : WalkD) : option WalkD :=
  match n with
  | O => Some st
  | S n' =>
      match walk_body x y w h length st with
      | Undefined => None
      | Break st' => Some st'
      | Continue st' => walk x y w h n' (length + 1)%Z st'
      end
  end.

(** [for (long long i = 0; i < spp_; i++)]: each sample starts a fresh walk
    and adds to [L]. *)
Fixpoint samples (x y w h : Z) (n : nat) (L0 : Vec3) (r : Rng) : option (Vec3 * Rng) :=
  match n with
  | O => Some (L0, r)
  | S n' =>
      st ← walk x y w h (Z.to_nat maxLength_) 0 (mkWalkD (vec3 f1) None L0 r);
      samples x y w h n' (L st) (rng st)
  end.

(** The function handed to [parallel::foreach], over the film and the
    generators of the threads. *)
Definition process (index threadId : Z) (st : FilmD * gmap Z Rng)
  : option (FilmD * gmap Z Rng) :=
  let '(film, rngs) := st in
  let '(w, h) := film_size_wh film in
  let r0 :=
    match rngs !! threadId with
    | Some r => r
    | None => Rng_new (rngSeed_ + threadId)
    end in
  let x := pixel_x w index in
  let y := pixel_y w index in
  '(L1, r1) ← samples x y w h (Z.to_nat spp_) (vec3 f0) r0;
  Some (setPixel film x y (vdivs L1 (of_int spp_)), <[threadId := r1]> rngs).

End PTDirect.
End Renderer_PTDirect.

(* ===================================================================== *)
(** ** Vocabulary of the properties *)
(* ===================================================================== *)

Section Vocabulary.
Context `{FloatOps} `{!MathLib} `{!RngOps} `{!FilmOps} `{!PathLib}.

(** What a scene lacks when it cannot be rendered. *)
Definition lacks_element (s : Scene) : Prop :=
  (num_nodes s <= 1)%Z \/ camera_node s = (-1)%Z \/ num_lights s = 0%Z \/ accel s = None.

Definition is_NEE (mode : PTMode) : bool :=
  match mode with NEE => true | _ => false end.

(** The local [Fr] of [Material_Glass::sample_direction], as a function of
    the incident direction: 1 under total internal reflection, else
    [fresnel] on the refracted direction. *)
Definition glass_Fr (Ni : Float) (geom : PointGeometry) (wi : Vec3) : Float :=
  let in_ := fltb f0 (dot wi (pg_n geom)) in
  let n := if in_ then pg_n geom else vneg (pg_n geom) in
  let eta := if in_ then fdiv f1 Ni else Ni in
  let '(wt, total) := refraction wi n eta in
  if total then f1 else Material_Glass.fresnel Ni wi wt geom.

(** The film a finished iteration of the volumetric walk leaves behind. *)
Definition film_after (r : Step Renderer_VolPT.Walk) : option Film :=
  match r with
  | Break w' | Continue w' => Some (Renderer_VolPT.film w')
  | Undefined => None
  end.

End Vocabulary.

Section GeometricQueries.
#[local] Existing Instance RealOps.
Context `{!MathLib} `{!RngOps}.
Local Open Scope R_scope.

(** The point [o + t d] of a ray. *)
Definition point_on (o d : Vec3) (t : R) : Vec3 := vadd o (vscale d t).

(** An intersection query is geometric for a set of surface points when it
    reports a hit exactly if a surface point lies on the ray within
    [tmin, tmax]. *)
Definition geometric (scene : Scene) (surface : Vec3 -> Prop) : Prop :=
  forall (o d : Vec3) (tmin tmax : R),
    is_Some (intersect scene (mkRay o d) tmin tmax) <->
    exists t, tmin <= t <= tmax /\ surface (point_on o d t).

End GeometricQueries.


(** Well-formedness of the model's tables.  An index into [assets_]; every
    name of [assets_map_] indexes an asset; a group refers to assets, its
    light being an asset or absent (-1). *)
Section ModelVocabulary.
Context `{FloatOps} `{!MathLib} `{!Framework}.
Import Model_WavefrontObj Model_WavefrontObj_Mesh.

Definition index_ok (st : Model) (i : Z) : Prop :=
  (0 <= i < Z.of_nat (length (assets_ st)))%Z.

Definition indices_valid (st : Model) : Prop :=
  forall (key : string) (i : Z), assets_map_ st !! key = Some i -> index_ok st i.

Definition group_valid (st : Model) (g : Group) : Prop :=
  index_ok st (g_mesh g) /\ index_ok st (g_material g)
  /\ (g_light g = (-1)%Z \/ index_ok st (g_light g)).

Definition state_valid (s : ModelState) : Prop :=
  indices_valid (model s) /\ Forall (group_valid (model s)) (groups_ s).

End ModelVocabulary.

(** A face index as the loader hands it over: the position exists, the
    normal and the texture coordinate exist or are absent (negative); a mesh
    has fewer than 2^31 face indices. *)
Section MeshVocabulary.
Context `{FloatOps}.
Import Model_WavefrontObj_Mesh Mesh_WavefrontObj.

Definition face_index_ok (geo : OBJSurfaceGeometry) (f : OBJMeshFaceIndex) : Prop :=
  (0 <= fi_p f < Z.of_nat (length (ps geo)))%Z
  /\ (fi_n f < Z.of_nat (length (ns geo)))%Z
  /\ (fi_t f < Z.of_nat (length (ts geo)))%Z.

Definition mesh_ok (geo : OBJSurfaceGeometry) (fs : OBJMeshFace) : Prop :=
  Forall (face_index_ok geo) fs /\ (Z.of_nat (length fs) < 2 ^ 31)%Z.

End MeshVocabulary.

(** The walk of renderer::ptdirect holds a current vertex (and with it an
    initialised [wi]) once it is past the primary ray. *)
Section PTDirectVocabulary.
Context `{FloatOps} `{!RngOps}.

Definition has_vertex {SurfPoint : Type} (length : Z)
  (st : Renderer_PTDirect.WalkD SurfPoint) : Prop :=
  (0 < length)%Z -> is_Some (Renderer_PTDirect.cur SurfPoint st).

End PTDirectVocabulary.

(* ===================================================================== *)
(** ** Example scenes *)
(* ===================================================================== *)

(** A small world in binary64: a camera at [(-1, 0, 0)] looking down the x
    axis at an emitting plane [x = x0] (direct light sampling picks its point
    on the axis), a film that logs its splats, a single-threaded scheduler
    and a component factory that records what it is asked to create. *)
Module Example64.
#[local] Existing Instance Binary64Ops.
Local Open Scope fl_scope.

Definition math64 : MathLib := {|
  Eps := lit 1 10000;
  Inf := of_int (10 ^ 10);
  Pi := lit 3141592653589793 1000000000000000;
  safe_sqrt := fun x => fsqrt (fmax f0 x);
  is_zero := fun v => (vx v =? f0) && (vy v =? f0) && (vz v =? f0);
  opposite := fun g w1 w2 => sign_differs (dot w1 (pg_n g)) (dot w2 (pg_n g));
  make_camera_term := fun _ _ =>
    mkSI CameraEndpoint 0
      (mkGeom (mkVec3 (- f1) f0 f0) (mkVec3 f1 f0 f0) false true v2zero vzero)
|}.
#[local] Existing Instance math64.

(** A linear congruential generator; [u()] is the state modulo 1024, over
    1024. *)
Definition lcg : RngOps := {|
  Rng := Z;
  Rng_new := fun seed => seed;
  rng_u := fun r =>
    (of_int (r mod 1024)%Z / of_int 1024, ((r * 1103515245 + 12345) mod 2 ^ 31)%Z);
  rng_seed := fun tid => 42%Z
|}.
#[local] Existing Instance lcg.

(** A 2 x 2 film that keeps the list of its splats. *)
Definition splat_log : FilmOps := {|
  Film := list (Vec2 * Vec3);
  film_clear := fun _ => [];
  film_size := fun _ => mkFilmSize 2 2;
  film_aspect := fun _ => f1;
  film_splat := fun f rp v => (rp, v) :: f;
  film_rescale := fun f s => map (fun c => (fst c, vscale (snd c) s)) f
|}.
#[local] Existing Instance splat_log.

(** The same film with 46341 x 46341 pixels, more than an [int] counts. *)
Definition wide_log : FilmOps := {|
  Film := list (Vec2 * Vec3);
  film_clear := fun _ => [];
  film_size := fun _ => mkFilmSize 46341 46341;
  film_aspect := fun _ => f1;
  film_splat := fun f rp v => (rp, v) :: f;
  film_rescale := fun f s => map (fun c => (fst c, vscale (snd c) s)) f
|}.

(** Runs the tasks [0 .. n-1] in order on thread 0 and reports [n]. *)
Fixpoint run_tasks {St : Type} (f : Z -> Z -> Z -> St -> St) (n : nat) (i : Z) (st : St) : St :=
  match n with
  | O => st
  | S n' => run_tasks f n' (i + 1)%Z (f i i 0%Z st)
  end.

Definition sequential (n : Z) : Scheduler :=
  mkScheduler (fun St f st => (n, run_tasks f (Z.to_nat n) 0%Z st)).

(** The plane [x = x0], hit by a ray at [t = (x0 - o.x) / d.x]. *)
Definition plane_intersect (x0 : Float) (r : Ray) (tmin tmax : Float)
  : option SceneInteraction :=
  let dx := vx (ray_d r) in
  if dx =? f0 then None
  else
    let t := (x0 - vx (ray_o r)) / dx in
    if (t <? tmin) || (tmax <? t) then None
    else Some (mkSI SurfacePoint 1
                 (mkGeom (vadd (ray_o r) (vscale (ray_d r) t)) (mkVec3 f1 f0 f0)
                         false false v2zero vzero)).

Definition is_camera (sp : SceneInteraction) : bool :=
  match si_type sp with CameraEndpoint => true | _ => false end.

Definition plane_scene (x0 : Float) : Scene := {|
  num_nodes := 3; num_lights := 1; camera_node := 1; env_light_node := -1;
  accel := Some 1%positive;
  intersect := plane_intersect x0;
  is_light := fun sp => (si_primitive sp =? 1)%Z;
  is_specular := fun _ _ => false;
  sample_ray := fun r sp _ =>
    if is_camera sp then (Some (mkRaySample sp 0 (mkVec3 f1 f0 f0) (vec3 f1)), r)
    else (None, r);
  sample_direction := fun r _ _ => (None, r);
  pdf_direction := fun _ _ _ _ => of_int 3;
  sample_direct_light := fun r sp =>
    if is_camera sp then (None, r)
    else (Some (mkRaySample
                  (mkSI LightEndpoint 1
                     (mkGeom (mkVec3 x0 f0 f0) (mkVec3 f1 f0 f0) false false v2zero vzero))
                  0 (mkVec3 (- f1) f0 f0) (vec3 f1)), r);
  pdf_direct := fun _ _ _ _ => f1;
  sample_distance := fun r _ _ => (None, r);
  eval_transmittance := fun r _ _ => (vec3 f1, r);
  raster_position := fun wo _ =>
    if f0 <? vx wo then Some (mkVec2 (lit 1 2) (lit 1 2)) else None;
  eval_contrb := fun _ _ _ _ => vzero;
  eval_contrb_endpoint := fun _ => vec3 f1;
  eval_contrb_position := fun _ _ => vec3 f1
|}.

(** A surface point on the x axis. *)
Definition at_x (x : Float) : SceneInteraction :=
  mkSI SurfacePoint 2
    (mkGeom (mkVec3 x f0 f0) (mkVec3 f1 f0 f0) false false v2zero vzero).

(** The functions of namespace [path] for the example: they forward to the
    scene; directions are sampled along the x axis and distances by the
    closest hit; the camera is the only specular vertex. *)
Definition forward_path : PathLib := {|
  path_sample_position := fun r sc _ =>
    (Some (mkPositionSample (make_camera_term (mkVec4 f0 f0 f1 f1) f1) (vec3 f1)), r);
  path_sample_component := fun r _ _ => (mkComponentSample 0 f1, r);
  path_is_specular_component := fun sc sp c => is_camera sp;
  path_sample_direct_light := fun r sc sp => sample_direct_light sc r sp;
  path_raster_position := fun sc wo => raster_position sc wo f1;
  path_eval_transmittance := fun r sc sp1 sp2 => eval_transmittance sc r sp1 sp2;
  path_eval_contrb_direction := fun sc sp wi wo c td delta =>
    match si_type sp with LightEndpoint => vec3 f1 | _ => vec3 (lit 1 2) end;
  path_sample_direction := fun r sc sp wi c td =>
    (Some (mkDirectionSample (mkVec3 f1 f0 f0) 0 (vec3 f1)), r);
  path_sample_distance := fun r sc sp wo =>
    (option_map (fun hit => mkDistanceSample hit (vec3 f1))
       (intersect sc (mkRay (pg_p (geom sp)) wo) Eps Inf), r)
|}.

(** The first vertex of a volumetric walk, and a later one on a surface. *)
Definition camera_vertex : @Renderer_VolPT.Walk Binary64Ops lcg splat_log :=
  Renderer_VolPT.mkWalk (make_camera_term (mkVec4 f0 f0 f1 f1) f1) 0 (vec3 f1)
    vzero v2zero 7%Z [].

Definition surface_vertex : @Renderer_VolPT.Walk Binary64Ops lcg splat_log :=
  Renderer_VolPT.mkWalk (at_x (- f1)) 0 (vec3 f1)
    (mkVec3 (- f1) f0 f0) (mkVec2 (lit 1 2) (lit 1 2)) 7%Z [].

(** Lobes with constant density and value for the mixture material: a
    diffuse lobe, a glossy lobe and the pass-through mask, under a texture of
    alpha one half. *)
Definition constant_lobe (kd pdf f : Float) (delta : bool)
  : Material_WavefrontObj_Mixture.Material :=
  Material_WavefrontObj_Mixture.mkMaterial
    (fun r _ wi _ =>
       (Some (Material_WavefrontObj_Mixture.mkMaterialSample (vneg wi) (vec3 f1) delta), r))
    (fun _ => Some (vec3 kd))
    (fun _ _ _ eval_delta => if delta && negb eval_delta then f0 else pdf)
    (fun _ _ _ _ eval_delta => if delta && negb eval_delta then vec3 f0 else vec3 f).

Definition half_alpha : Material_WavefrontObj_Mixture.Texture :=
  Material_WavefrontObj_Mixture.mkTexture (fun _ => lit 1 2) true.

Definition up : PointGeometry :=
  mkGeom vzero (mkVec3 f0 f0 f1) false false v2zero vzero.

(** A JSON object as an association list, and a factory that always succeeds
    and returns its own arguments. *)
Inductive JValue := JBool (b : bool) | JString (s : string).

Fixpoint assoc (key : string) (j : list (string * JValue)) : option JValue :=
  match j with
  | [] => None
  | (k, v) :: j' => if bool_decide (k = key) then Some v else assoc key j'
  end.

Definition recorder : Framework := {|
  Json := list (string * JValue);
  Component := string * string * list (string * PropValue (list (string * JValue)));
  json_find := fun j key => option_map (fun v => [(key, v)]) (assoc key j);
  json_value_bool := fun j key def =>
    match assoc key j with Some (JBool b) => b | _ => def end;
  json_value_string := fun j key def =>
    match assoc key j with Some (JString s) => s | _ => def end;
  create := fun impl loc props => Some (impl, loc, props);
  make_loc := fun n => "$.assets.model." +:+ n;
  path_stem := fun p => p;
  path_sibling := fun _ p => p
|}.

(** A mirror material of an MTL file, [illum 5]. *)
Definition mirror_mtl : @Model_WavefrontObj.MTLMatParams Binary64Ops :=
  Model_WavefrontObj.mkMTL "Mirror" vzero (vec3 f1) vzero (of_int 100)
    (lit 3 2) 5 "" f0.

Definition empty_model : @Model_WavefrontObj.Model Binary64Ops recorder :=
  Model_WavefrontObj.mkModel [] ∅.

(** One pass of the path tracer over the four pixels of the film with the
    plane at [x = 1]: the scheduler's result. *)
Definition example_pass :=
  Eval vm_compute in
    run (sequential 4) _
      (Renderer_PT.process (plane_scene f1) 8 (Some 7%Z) MIS Pixel
         (film_size (film_clear [])))
      (Some (film_clear [], ∅)).

Definition example_film : Film :=
  Eval vm_compute in match snd example_pass with Some (f, _) => f | None => [] end.

Definition example_rngs : gmap Z Rng :=
  Eval vm_compute in match snd example_pass with Some (_, r) => r | None => ∅ end.

(** A configuration that names a [base_material]. *)
Definition proxy_prop : list (string * JValue) :=
  [("base_material", JString "$.assets.white")].

End Example64.

(** The same in ideal arithmetic: an empty scene. *)
Module ExampleReal.
#[local] Existing Instance RealOps.
Local Open Scope R_scope.

Definition mathR : MathLib := {|
  Eps := 1 / 10000;
  Inf := 10 ^ 10;
  Pi := PI;
  safe_sqrt := fun x => R_sqrt.sqrt (Rmax 0 x);
  is_zero := fun v => Reqb (vx v) 0 && Reqb (vy v) 0 && Reqb (vz v) 0;
  opposite := fun g w1 w2 => sign_differs (dot w1 (pg_n g)) (dot w2 (pg_n g));
  make_camera_term := fun _ _ =>
    mkSI CameraEndpoint 0
      (mkGeom (mkVec3 (-1) 0 0) (mkVec3 1 0 0) false true (mkVec2 0 0) (mkVec3 0 0 0))
|}.
#[local] Existing Instance mathR.

Definition fixed_rng : RngOps := {|
  Rng := unit;
  Rng_new := fun _ => tt;
  rng_u := fun r => (1 / 2, r);
  rng_seed := fun _ => 0%Z
|}.
#[local] Existing Instance fixed_rng.

Definition empty_scene : Scene := {|
  num_nodes := 1; num_lights := 0; camera_node := -1; env_light_node := -1;
  accel := None;
  intersect := fun _ _ _ => None;
  is_light := fun _ => false;
  is_specular := fun _ _ => false;
  sample_ray := fun r _ _ => (None, r);
  sample_direction := fun r _ _ => (None, r);
  pdf_direction := fun _ _ _ _ => 0;
  sample_direct_light := fun r _ => (None, r);
  pdf_direct := fun _ _ _ _ => 0;
  sample_distance := fun r _ _ => (None, r);
  eval_transmittance := fun r _ _ => (mkVec3 1 1 1, r);
  raster_position := fun _ _ => None;
  eval_contrb := fun _ _ _ _ => mkVec3 0 0 0;
  eval_contrb_endpoint := fun _ => mkVec3 0 0 0;
  eval_contrb_position := fun _ _ => mkVec3 0 0 0
|}.

Definition at_x (x : R) : SceneInteraction :=
  mkSI SurfacePoint 2
    (mkGeom (mkVec3 x 0 0) (mkVec3 1 0 0) false false (mkVec2 0 0) (mkVec3 0 0 0)).

End ExampleReal.

(** A wall in ideal arithmetic: the plane [x = x0], hit at
    [t = (x0 - o.x) / d.x]; a ray inside the plane is hit where it starts. *)
Module ExampleWall.
#[local] Existing Instance RealOps.
#[local] Existing Instance ExampleReal.mathR.
#[local] Existing Instance ExampleReal.fixed_rng.
Import ExampleReal.
Local Open Scope R_scope.

Definition wall_hit (x0 : R) (r : Ray) (tmin tmax : R) : option SceneInteraction :=
  let dx := vx (ray_d r) in
  let hit (t : R) :=
    Some (mkSI SurfacePoint 1
            (mkGeom (vadd (ray_o r) (vscale (ray_d r) t)) (mkVec3 1 0 0) false false
                    (mkVec2 0 0) (mkVec3 0 0 0))) in
  if Reqb dx 0 then
    if Reqb (vx (ray_o r)) x0 && negb (Rltb tmax tmin) then hit tmin else None
  else
    let t := (x0 - vx (ray_o r)) / dx in
    if Rltb t tmin || Rltb tmax t then None else hit t.

Definition wall_scene (x0 : R) : Scene := {|
  num_nodes := 2; num_lights := 0; camera_node := -1; env_light_node := -1;
  accel := Some 1%positive;
  intersect := wall_hit x0;
  is_light := fun _ => false;
  is_specular := fun _ _ => false;
  sample_ray := fun r _ _ => (None, r);
  sample_direction := fun r _ _ => (None, r);
  pdf_direction := fun _ _ _ _ => 0;
  sample_direct_light := fun r _ => (None, r);
  pdf_direct := fun _ _ _ _ => 0;
  sample_distance := fun r _ _ => (None, r);
  eval_transmittance := fun r _ _ => (mkVec3 1 1 1, r);
  raster_position := fun _ _ => None;
  eval_contrb := fun _ _ _ _ => mkVec3 0 0 0;
  eval_contrb_endpoint := fun _ => mkVec3 0 0 0;
  eval_contrb_position := fun _ _ => mkVec3 0 0 0
|}.

Definition on_wall (x0 : R) (p : Vec3) : Prop := vx p = x0.

End ExampleWall.


(** A model in binary64 with the recording factory: a textured lamp whose
    material and mesh callbacks have run, on a quad of two triangles (the
    first with normals, the second without, and one face index left over). *)
Module ExampleModel.
#[local] Existing Instance Binary64Ops.
#[local] Existing Instance Example64.math64.
#[local] Existing Instance Example64.recorder.
Import Example64 Model_WavefrontObj Model_WavefrontObj_Mesh Mesh_WavefrontObj.
Local Open Scope fl_scope.

Definition lamp_mtl : MTLMatParams :=
  mkMTL "Lamp" (vec3 f1) vzero (vec3 f1) (of_int 10) f1 2 "wood.png" f0.

(** Another material on the same texture file. *)
Definition shade_mtl : MTLMatParams :=
  mkMTL "Shade" (vec3 (lit 1 2)) vzero vzero (of_int 10) f1 2 "wood.png" f0.

Definition wood_texture : Component :=
  ("texture::bitmap", "$.assets.model.texture_wood.png", [("path", PString "wood.png")]).

Definition wood_model : Model := register "texture_wood.png" wood_texture empty_model.

Definition lamp_model : Model :=
  snd (process_material [] "scene.obj" lamp_mtl empty_model).

Definition lamp_mirror_model : Model :=
  snd (process_material [] "scene.obj" mirror_mtl lamp_model).

(** The lamp's material read a second time. *)
Definition relit_model : Model :=
  snd (process_material [] "scene.obj" lamp_mtl lamp_model).

Definition mesh_recorder (loc : string) (prop : Json) (fs : OBJMeshFace)
  : option Component :=
  Some ("mesh::wavefrontobj", loc, []).

Definition quad_geo : OBJSurfaceGeometry :=
  mkGeo [mkVec3 f0 f0 f0; mkVec3 f1 f0 f0; mkVec3 f1 f1 f0; mkVec3 f0 f1 f0]
        [mkVec3 f0 f0 f1] [].

Definition quad : OBJMeshFace :=
  [mkFaceIndex 0 (-1) 0; mkFaceIndex 1 (-1) 0; mkFaceIndex 2 (-1) 0;
   mkFaceIndex 0 (-1) (-1); mkFaceIndex 2 (-1) (-1); mkFaceIndex 3 (-1) (-1);
   mkFaceIndex 0 (-1) (-1)].

Definition lamp_state : ModelState :=
  snd (process_mesh mesh_recorder [] quad lamp_mtl (mkModelState lamp_model [])).

(** Barycentric mixing and the normal of a triangle, for [surface_point]. *)
Definition mix3 (a b c : Vec3) (uv : Vec2) : Vec3 :=
  vadd (vadd (sscale (f1 - v2x uv - v2y uv) a) (sscale (v2x uv) b)) (sscale (v2y uv) c).

Definition mix2 (a b c : Vec2) (uv : Vec2) : Vec2 :=
  mkVec2 ((f1 - v2x uv - v2y uv) * v2x a + v2x uv * v2x b + v2y uv * v2x c)
         ((f1 - v2x uv - v2y uv) * v2y a + v2x uv * v2y b + v2y uv * v2y c).

Definition cross (a b : Vec3) : Vec3 :=
  mkVec3 (vy a * vz b - vz a * vy b) (vz a * vx b - vx a * vz b) (vx a * vy b - vy a * vx b).

Definition triangle_normal (a b c : Vec3) : Vec3 :=
  normalize (cross (vsub b a) (vsub c a)).

(** The first triangle of the quad. *)
Definition quad_first : Tri :=
  mkTri (mkPoint (mkVec3 f0 f0 f0) (mkVec3 f0 f0 f1) v2zero)
        (mkPoint (mkVec3 f1 f0 f0) (mkVec3 f0 f0 f1) v2zero)
        (mkPoint (mkVec3 f1 f1 f0) (mkVec3 f0 f0 f1) v2zero).

End ExampleModel.

(** Tasks and walks on the plane scene of [Example64], a scene without a
    light, an environment light at infinity, and a scene for
    renderer::ptdirect. *)
Module ExampleTasks.
#[local] Existing Instance Binary64Ops.
#[local] Existing Instance Example64.math64.
#[local] Existing Instance Example64.lcg.
#[local] Existing Instance Example64.splat_log.
#[local] Existing Instance Example64.forward_path.
Import Example64.
Local Open Scope fl_scope.

(** The plane scene with its light removed. *)
Definition unlit_scene : Scene :=
  let s := plane_scene f1 in
  mkScene (num_nodes s) 0 (camera_node s) (env_light_node s) (accel s)
    (intersect s) (fun _ => false) (is_specular s) (sample_ray s) (sample_direction s)
    (pdf_direction s) (fun r _ => (None, r)) (pdf_direct s) (sample_distance s)
    (eval_transmittance s) (raster_position s) (eval_contrb s)
    (eval_contrb_endpoint s) (eval_contrb_position s).

(** The plane scene with rays sampled at every vertex (along the x axis), a
    light sample for every vertex and a surface that reflects one half. *)
Definition bounce_scene : Scene :=
  let s := plane_scene f1 in
  mkScene (num_nodes s) (num_lights s) (camera_node s) (env_light_node s) (accel s)
    (intersect s) (is_light s) (is_specular s)
    (fun r sp _ => (Some (mkRaySample sp 0 (mkVec3 f1 f0 f0) (vec3 f1)), r))
    (sample_direction s) (pdf_direction s)
    (fun r _ =>
       (Some (mkRaySample
                (mkSI LightEndpoint 1
                   (mkGeom (mkVec3 f1 f0 f0) (mkVec3 f1 f0 f0) false false v2zero vzero))
                0 (mkVec3 (- f1) f0 f0) (vec3 f1)), r))
    (pdf_direct s) (sample_distance s)
    (eval_transmittance s) (raster_position s) (fun _ _ _ _ => vec3 (lit 1 2))
    (eval_contrb_endpoint s) (eval_contrb_position s).

(** Light arriving along the negative x axis from infinity, stored at two
    different positions. *)
Definition sky (p : Vec3) : SceneInteraction :=
  mkSI LightEndpoint 1
    (mkGeom p (mkVec3 f1 f0 f0) true false v2zero (mkVec3 (- f1) f0 f0)).

(** One pass of the path tracer over the film in [Image] mode. *)
Definition image_pass :=
  Eval vm_compute in
    run (sequential 4) _
      (Renderer_PT.process (plane_scene f1) 8 (Some 7%Z) MIS Image
         (film_size (film_clear [])))
      (Some (film_clear [], ∅)).

Definition image_film : Film :=
  Eval vm_compute in match snd image_pass with Some (f, _) => f | None => [] end.

Definition image_rngs : gmap Z Rng :=
  Eval vm_compute in match snd image_pass with Some (_, r) => r | None => ∅ end.

(** The first vertex of a walk of the path tracer. *)
Definition pt_camera_vertex : @Renderer_PT.Walk Binary64Ops lcg splat_log :=
  Renderer_PT.mkWalk (vec3 f1) vzero (make_camera_term (mkVec4 f0 f0 f1 f1) f1)
    v2zero 7%Z [].

Definition camera_ray : RaySample :=
  mkRaySample (make_camera_term (mkVec4 f0 f0 f1 f1) f1) 0 (mkVec3 f1 f0 f0) (vec3 f1).

(** One task of the path tracer on thread 3, beside a generator of thread 0. *)
Definition pt_task :=
  Eval vm_compute in
    Renderer_PT.process (plane_scene f1) 8 (Some 7%Z) NEE Pixel (mkFilmSize 2 2) 1 1 3
      (Some ([], {[ 0%Z := 5%Z ]})).

Definition pt_task_film : Film :=
  Eval vm_compute in match pt_task with Some (f, _) => f | None => [] end.

Definition pt_task_rngs : gmap Z Rng :=
  Eval vm_compute in match pt_task with Some (_, r) => r | None => ∅ end.

(** The same for the volumetric path tracer, a walk of it, and a pass over
    the four pixels. *)
Definition volpt_task :=
  Eval vm_compute in
    Renderer_VolPT.process (plane_scene f1) 4 (lit 2 10) (Some 7%Z) 1 1 3
      (Some ([], {[ 0%Z := 5%Z ]})).

Definition volpt_task_film : Film :=
  Eval vm_compute in match volpt_task with Some (f, _) => f | None => [] end.

Definition volpt_task_rngs : gmap Z Rng :=
  Eval vm_compute in match volpt_task with Some (_, r) => r | None => ∅ end.

Definition volpt_walk_end : @Renderer_VolPT.Walk Binary64Ops lcg splat_log :=
  Eval vm_compute in
    match Renderer_VolPT.walk (plane_scene f1) (lit 2 10) 3 1 camera_vertex with
    | Some w => w
    | None => camera_vertex
    end.

Definition volpt_pass :=
  Eval vm_compute in
    run (sequential 4) _
      (Renderer_VolPT.process (plane_scene f1) 4 (lit 2 10) (Some 7%Z))
      (Some (film_clear [], ∅)).

Definition volpt_film : Film :=
  Eval vm_compute in match snd volpt_pass with Some (f, _) => f | None => [] end.

Definition volpt_rngs : gmap Z Rng :=
  Eval vm_compute in match snd volpt_pass with Some (_, r) => r | None => ∅ end.

(** renderer::ptdirect: surface points are positions, the film is the list
    of the pixels set; rays leave along the x axis towards the plane
    [x = 1], and the light is sampled straight up. *)
Definition pixel_log : Type := list (Z * Z * Vec3).

Definition direct_scene : Renderer_PTDirect.SceneD Vec3 :=
  Renderer_PTDirect.mkSceneD Vec3
    (fun r _ =>
       (Some (Renderer_PTDirect.mkRaySampleD Vec3 (mkVec3 (- f1) f0 f0) (mkVec3 f1 f0 f0)
                (vec3 f1)), r))
    (fun r sp wi => (Some (Renderer_PTDirect.mkRaySampleD Vec3 sp (vneg wi) (vec3 f1)), r))
    (fun _ => false)
    (fun r _ => (Some (Renderer_PTDirect.mkLightSample (mkVec3 f0 f1 f0) f1 (vec3 f1)), r))
    (fun ray tmin tmax =>
       option_map (fun hit => pg_p (geom hit)) (plane_intersect f1 ray tmin tmax))
    (fun _ _ _ => vec3 (lit 1 2)).

End ExampleTasks.

(** Lobes with constant density and value in ideal arithmetic, a texture of
    alpha one half, a horizontal surface point and a basis for directions
    along the z axis. *)
Module ExampleLobes.
#[local] Existing Instance RealOps.
#[local] Existing Instance ExampleReal.mathR.
#[local] Existing Instance ExampleReal.fixed_rng.
Import Material_WavefrontObj_Mixture.
Local Open Scope R_scope.

Definition constant_lobe (kd pdf f : R) (delta : bool) : Material :=
  mkMaterial
    (fun r _ wi _ => (Some (mkMaterialSample (vneg wi) (mkVec3 1 1 1) delta), r))
    (fun _ => Some (mkVec3 kd kd kd))
    (fun _ _ _ eval_delta => if delta && negb eval_delta then 0 else pdf)
    (fun _ _ _ _ eval_delta =>
       if delta && negb eval_delta then mkVec3 0 0 0 else mkVec3 f f f).

Definition half_alpha : Texture := mkTexture (fun _ => 1 / 2) true.

Definition up : PointGeometry :=
  mkGeom (mkVec3 0 0 0) (mkVec3 0 0 1) false false (mkVec2 0 0) (mkVec3 0 0 0).

Definition basis_z (w : Vec3) : Vec3 * Vec3 := (mkVec3 1 0 0, mkVec3 0 1 0).

End ExampleLobes.

(* ===================================================================== *)
(** ** Properties *)
(* ===================================================================== *)

(** *** Scene requirement checks *)

Section RequireRenderable.
Context `{FloatOps} `{!MathLib} `{!RngOps}.

Ltac run_scene_m :=
  unfold mbind, SceneM_bind, mret, SceneM_ret, ask, throw; cbn.

Lemma require_primitive_run (s : Scene) :
  require_primitive s =
    if (num_nodes s >? 1)%Z then (Ok tt, s)
    else (Throw Unsupported
            "Missing primitives. Use lm::primitive() function to add primitives.", s).
Proof. unfold require_primitive; run_scene_m. destruct (num_nodes s >? 1)%Z; reflexivity. Qed.

Lemma require_camera_run (s : Scene) :
  require_camera s =
    if (camera_node s =? -1)%Z
    then (Throw Unsupported
            "Missing camera primitive. Use lm::primitive() function to add camera primitive.", s)
    else (Ok tt, s).
Proof. unfold require_camera; run_scene_m. destruct (camera_node s =? -1)%Z; reflexivity. Qed.

Lemma require_light_run (s : Scene) :
  require_light s =
    if (num_lights s >? 0)%Z then (Ok tt, s)
    else (Throw Unsupported
            "No light in the scene. Add at least one light sources to the scene.", s).
Proof. unfold require_light; run_scene_m. destruct (num_lights s >? 0)%Z; reflexivity. Qed.

Lemma require_accel_run (s : Scene) :
  require_accel s =
    match accel s with
    | Some _ => (Ok tt, s)
    | None => (Throw Unsupported
                 "Missing acceleration structure. Use lm::build() function before rendering.", s)
    end.
Proof. unfold require_accel; run_scene_m. destruct (accel s); reflexivity. Qed.

Lemma require_renderable_run (s : Scene) :
  require_renderable s =
    match require_primitive s with
    | (Ok _, s1) =>
        match require_camera s1 with
        | (Ok _, s2) =>
            match require_light s2 with
            | (Ok _, s3) => require_accel s3
            | (Throw e msg, s3) => (Throw e msg, s3)
            end
        | (Throw e msg, s2) => (Throw e msg, s2)
        end
    | (Throw e msg, s1) => (Throw e msg, s1)
    end.
Proof.
  unfold require_renderable, mbind, SceneM_bind.
  destruct (require_primitive s) as [[[]|e m] s1]; [|reflexivity].
  destruct (require_camera s1) as [[[]|e m] s2]; [|reflexivity].
  destruct (require_light s2) as [[[]|e m] s3]; reflexivity.
Qed.

(** C8. [require_renderable] throws [Unsupported] exactly when the scene has
    no node beyond the root, no camera node, no light or no acceleration
    structure; otherwise it returns normally; either way the scene is the one
    it was given.  The number of lights is a count (not negative). *)
Theorem require_renderable_throws_iff (s : Scene) :
  (0 <= num_lights s)%Z ->
  ((exists msg, require_renderable s = (Throw Unsupported msg, s)) <-> lacks_element s)
  /\ (~ lacks_element s -> require_renderable s = (Ok tt, s))
  /\ snd (require_renderable s) = s.
Proof.
  intros Hl. unfold lacks_element.
  rewrite require_renderable_run, require_primitive_run.
  destruct (Z.gtb_spec (num_nodes s) 1) as [Hn|Hn].
  2:{ cbn. split; [|split]; [split; eauto | tauto | reflexivity]. }
  rewrite require_camera_run.
  destruct (Z.eqb_spec (camera_node s) (-1)) as [Hc|Hc].
  { cbn. split; [|split]; [split; eauto | tauto | reflexivity]. }
  rewrite require_light_run.
  destruct (Z.gtb_spec (num_lights s) 0) as [Hp|Hp].
  2:{ cbn. assert (num_lights s = 0%Z) by lia.
      split; [|split]; [split; eauto | tauto | reflexivity]. }
  rewrite require_accel_run.
  destruct (accel s) as [a|] eqn:Ha; cbn.
  - split; [|split]; [|reflexivity|reflexivity].
    split.
    + intros [msg Hm]. discriminate Hm.
    + intros [?|[?|[?|?]]]; [lia|contradiction|lia|discriminate].
  - split; [|split]; [split; eauto | tauto | reflexivity].
Qed.

End RequireRenderable.

(** *** The path tracer *)

Section PTProperties.
Context `{FloatOps} `{!MathLib} `{!RngOps} `{!FilmOps}.
Local Open Scope fl_scope.

Lemma nee_true_mode scene mode imode length s :
  Renderer_PT.nee scene mode imode length s = true -> mode = NEE \/ mode = MIS.
Proof. destruct mode; cbn; intros Hn; [discriminate | left | right]; reflexivity. Qed.

Lemma nee_flag_iff scene mode imode length s :
  Renderer_PT.nee scene mode imode length s = true <->
    mode <> Naive
    /\ is_specular scene (rs_sp s) (rs_comp s) = false
    /\ (imode = Image \/ (length > 0)%Z).
Proof.
  unfold Renderer_PT.nee.
  destruct mode, imode; cbn;
    destruct (Z.gtb_spec length 0);
    destruct (is_specular scene (rs_sp s) (rs_comp s)); cbn;
    split; try discriminate; try tauto; try (intros (? & ? & ?); try discriminate);
    try (intros _; repeat split; (discriminate || (left; reflexivity) || (right; lia)));
    try (intuition (discriminate || lia)).
Qed.

(** C2. A NEE edge is sampled at a vertex exactly when the mode is not
    [Naive], the sampled component is not specular, and the image sample mode
    is [Image] or the vertex is not the primary one; in [Pixel] mode the
    primary vertex never samples one.  This is the flag [nee] of the walk,
    and the walk follows it: in an iteration that has sampled a ray, under
    the three conditions the film and the generator are those the NEE edge
    leaves behind (then the light hit and Russian roulette), and otherwise
    those before it, the NEE edge not being run.  The NEE edge draws its
    light sample from [sample_direct_light]: the generator it leaves is the
    one after that call. *)
Theorem nee_edge_sampled_iff (scene : Scene) (mode : PTMode) (imode : ImageSampleMode)
  (length : Z) (s : RaySample) :
  (Renderer_PT.nee scene mode imode length s = true <->
     mode <> Naive
     /\ is_specular scene (rs_sp s) (rs_comp s) = false
     /\ (imode = Image \/ (length > 0)%Z))
  /\ Renderer_PT.nee scene mode Pixel 0 s = false
  /\ (forall (w : Renderer_PT.Walk) (rng1 : Rng) (rp : Vec2),
        sample_ray scene (Renderer_PT.rng w) (Renderer_PT.sp w) (Renderer_PT.wi w)
          = (Some s, rng1) ->
        is_zero (rs_weight s) = false ->
        (if (length =? 0)%Z
         then raster_position scene (rs_wo s) (film_aspect (Renderer_PT.film w))
         else Some (Renderer_PT.raster_pos w)) = Some rp ->
        let after_hit (flag : bool) (film1 : Film) : Film :=
          match intersect scene (ray s) Eps Inf with
          | Some hit =>
              if Renderer_PT.direct scene mode flag hit
              then film_splat film1 rp
                     (vscale (vmul (vmul (Renderer_PT.throughput w) (rs_weight s))
                                   (eval_contrb_position scene (as_type hit LightEndpoint)
                                      (vneg (rs_wo s))))
                             (Renderer_PT.direct_misw scene mode flag s
                                (as_type hit LightEndpoint) (Renderer_PT.wi w)))
              else film1
          | None => film1
          end in
        let after_roulette (rng2 : Rng) : Rng :=
          match intersect scene (ray s) Eps Inf with
          | Some _ => if (length >? 3)%Z then snd (rng_u rng2) else rng2
          | None => rng2
          end in
        exists w',
          (Renderer_PT.walk_body scene mode imode length w = Break w'
           \/ Renderer_PT.walk_body scene mode imode length w = Continue w')
          /\ (mode <> Naive
              /\ is_specular scene (rs_sp s) (rs_comp s) = false
              /\ (imode = Image \/ (length > 0)%Z) ->
              Renderer_PT.film w'
                = after_hit true (fst (Renderer_PT.nee_edge scene mode length s w rp rng1))
              /\ Renderer_PT.rng w'
                = after_roulette (snd (Renderer_PT.nee_edge scene mode length s w rp rng1)))
          /\ (~ (mode <> Naive
                 /\ is_specular scene (rs_sp s) (rs_comp s) = false
                 /\ (imode = Image \/ (length > 0)%Z)) ->
              Renderer_PT.film w' = after_hit false (Renderer_PT.film w)
              /\ Renderer_PT.rng w' = after_roulette rng1))
  /\ (forall (w : Renderer_PT.Walk) (rp : Vec2) (rng1 : Rng),
        snd (Renderer_PT.nee_edge scene mode length s w rp rng1)
          = snd (sample_direct_light scene rng1 (rs_sp s))).
Proof.
  split; [apply nee_flag_iff|]. split.
  { unfold Renderer_PT.nee. destruct mode; reflexivity. }
  split; cycle 1.
  { intros w rp rng1. unfold Renderer_PT.nee_edge.
    destruct (sample_direct_light scene rng1 (rs_sp s)) as [[sL|] rng2]; [|reflexivity].
    cbn [snd]. destruct (negb (visible scene (rs_sp s) (rs_sp sL))); [reflexivity|].
    destruct (if (length =? 0)%Z then _ else _); reflexivity. }
  intros w rng1 rp Hs Hz Hrp after_hit after_roulette.
  subst after_hit after_roulette.
  pose proof (nee_flag_iff scene mode imode length s) as Hflag.
  unfold Renderer_PT.walk_body. rewrite Hs, Hz, Hrp.
  destruct (Renderer_PT.nee scene mode imode length s) eqn:Hnee.
  - assert (Hc : mode <> Naive
                 /\ is_specular scene (rs_sp s) (rs_comp s) = false
                 /\ (imode = Image \/ (length > 0)%Z)) by (apply Hflag; reflexivity).
    destruct (Renderer_PT.nee_edge scene mode length s w rp rng1) as [film1 rng2].
    cbn [fst snd].
    destruct (intersect scene (ray s) Eps Inf) as [hit|].
    + destruct (length >? 3)%Z.
      * destruct (rng_u rng2) as [u rng3]. cbn [snd].
        destruct (u <? _);
          eexists; (split; [(left; reflexivity) || (right; reflexivity)|]);
          (split; [intros _; split; reflexivity|intros Hn; contradiction]).
      * eexists. split; [right; reflexivity|].
        split; [intros _; split; reflexivity|intros Hn; contradiction].
    + eexists. split; [left; reflexivity|].
      split; [intros _; split; reflexivity|intros Hn; contradiction].
  - assert (Hc : ~ (mode <> Naive
                    /\ is_specular scene (rs_sp s) (rs_comp s) = false
                    /\ (imode = Image \/ (length > 0)%Z))).
    { intros Hc. apply Hflag in Hc. discriminate Hc. }
    destruct (intersect scene (ray s) Eps Inf) as [hit|].
    + destruct (length >? 3)%Z.
      * destruct (rng_u rng1) as [u rng3]. cbn [snd].
        destruct (u <? _);
          eexists; (split; [(left; reflexivity) || (right; reflexivity)|]);
          (split; [intros Hy; contradiction|intros _; split; reflexivity]).
      * eexists. split; [right; reflexivity|].
        split; [intros Hy; contradiction|intros _; split; reflexivity].
    + eexists. split; [left; reflexivity|].
      split; [intros Hy; contradiction|intros _; split; reflexivity].
Qed.

(** C1. The MIS weight of the NEE contribution is 1 in [NEE] mode and when
    the sampled light endpoint is specular or degenerated; otherwise it is
    the balance heuristic of [pdf_direct] against [pdf_direction], with
    [balance_heuristic a b = a / (a + b)] and 0 for 0/0.  The contribution
    splatted is throughput * fs * weight * misw, and it is only ever made in
    [NEE] or [MIS] mode. *)
Theorem nee_contribution_mis_weight (scene : Scene) (mode : PTMode) (imode : ImageSampleMode) :
  (forall (s sL : RaySample) (wi : Vec3),
     Renderer_PT.nee_misw scene mode s sL wi =
       if is_NEE mode
          || is_specular scene (rs_sp sL) (rs_comp sL)
          || pg_degenerated (geom (rs_sp sL))
       then f1
       else balance_heuristic
              (pdf_direct scene (rs_sp s) (rs_sp sL) (rs_comp sL) (rs_wo sL))
              (pdf_direction scene (rs_sp s) (rs_comp s) wi (vneg (rs_wo sL))))
  /\ (forall a b : Float,
        balance_heuristic a b = if (a =? f0) && (a + b =? f0) then f0 else a / (a + b))
  /\ (forall (length : Z) (s : RaySample) (w : Renderer_PT.Walk) (raster_pos : Vec2) (rng : Rng),
        fst (Renderer_PT.nee_edge scene mode length s w raster_pos rng) = Renderer_PT.film w
        \/ exists (sL : RaySample) (rp : Vec2),
             fst (sample_direct_light scene rng (rs_sp s)) = Some sL
             /\ fst (Renderer_PT.nee_edge scene mode length s w raster_pos rng) =
                  film_splat (Renderer_PT.film w) rp
                    (vscale
                       (vmul (vmul (Renderer_PT.throughput w)
                                   (eval_contrb scene (rs_sp s) (rs_comp s) (Renderer_PT.wi w)
                                      (vneg (rs_wo sL))))
                             (rs_weight sL))
                       (Renderer_PT.nee_misw scene mode s sL (Renderer_PT.wi w))))
  /\ (forall (length : Z) (s : RaySample),
        Renderer_PT.nee scene mode imode length s = true -> mode = NEE \/ mode = MIS).
Proof.
  split; [|split; [|split]].
  - intros s sL wi. unfold Renderer_PT.nee_misw, Renderer_PT.directL.
    destruct mode; cbn;
      destruct (is_specular scene (rs_sp sL) (rs_comp sL)); cbn;
      destruct (pg_degenerated (geom (rs_sp sL))); reflexivity.
  - reflexivity.
  - intros length s w raster_pos rng. unfold Renderer_PT.nee_edge.
    destruct (sample_direct_light scene rng (rs_sp s)) as [[sL|] rng1]; cbn; [|left; reflexivity].
    destruct (visible scene (rs_sp s) (rs_sp sL)); cbn; [|left; reflexivity].
    destruct (if (length =? 0)%Z
              then raster_position scene (vneg (rs_wo sL)) (film_aspect (Renderer_PT.film w))
              else Some raster_pos) as [rp|]; cbn; [|left; reflexivity].
    right. exists sL, rp. split; reflexivity.
  - intros length s. apply nee_true_mode.
Qed.

Lemma int_mul_in_range (a b : Z) :
  (- 2 ^ 31 <= a * b < 2 ^ 31)%Z -> int_mul a b = Some (a * b)%Z.
Proof.
  intros [Hlo Hhi]. unfold int_mul.
  destruct (Z.leb_spec (- 2 ^ 31) (a * b)); [|lia].
  destruct (Z.ltb_spec (a * b) (2 ^ 31)); [reflexivity|lia].
Qed.

Lemma int_mul_overflow (a b : Z) :
  ~ (- 2 ^ 31 <= a * b < 2 ^ 31)%Z -> int_mul a b = None.
Proof.
  intros Hout. unfold int_mul.
  destruct (Z.leb_spec (- 2 ^ 31) (a * b)); [|reflexivity].
  destruct (Z.ltb_spec (a * b) (2 ^ 31)); [|reflexivity].
  exfalso. apply Hout. lia.
Qed.

(** C3, amended. When the scene is renderable and the scheduler's run returns
    [processed], the film is rescaled by [1 / processed] in [Pixel] mode and,
    for a film whose pixel count [W * H] fits an [int], by
    [W * H / processed] in [Image] mode.  The source multiplies [W] and [H] as
    [int]s: for a larger film the product overflows and no factor is
    defined. *)
Theorem render_rescales_film (scene : Scene) (max_length : Z) (seed : option Z)
  (mode : PTMode) (imode : ImageSampleMode) (sched : Scheduler)
  (film : Film) (rngs : gmap Z Rng) (processed : Z) (film1 : Film) (rngs1 : gmap Z Rng) :
  fst (require_renderable scene) = Ok tt ->
  run sched _
      (Renderer_PT.process scene max_length seed mode imode (film_size (film_clear film)))
      (Some (film_clear film, rngs)) = (processed, Some (film1, rngs1)) ->
  ((imode = Image ->
    (- 2 ^ 31 <= size_w (film_size (film_clear film)) * size_h (film_size (film_clear film))
     < 2 ^ 31)%Z) ->
   fst (Renderer_PT.render scene max_length seed mode imode sched film rngs scene) =
     Ok (Some (film_rescale film1
                 (match imode with
                  | Pixel => f1 / of_int processed
                  | Image =>
                      of_int (size_w (film_size (film_clear film))
                              * size_h (film_size (film_clear film)))
                      / of_int processed
                  end),
               rngs1)))
  /\ (imode = Image ->
      ~ (- 2 ^ 31 <= size_w (film_size (film_clear film)) * size_h (film_size (film_clear film))
         < 2 ^ 31)%Z ->
      fst (Renderer_PT.render scene max_length seed mode imode sched film rngs scene)
        = Ok None).
Proof.
  intros Hreq Hrun.
  destruct (require_renderable scene) as [[[]|e m] s'] eqn:Hrr; cbn in Hreq; [|discriminate].
  assert (Hrender :
            fst (Renderer_PT.render scene max_length seed mode imode sched film rngs scene)
            = Ok (factor ← Renderer_PT.rescale_factor imode (film_size (film_clear film))
                             processed;
                  Some (film_rescale film1 factor, rngs1))).
  { unfold Renderer_PT.render. unfold mbind at 1. unfold SceneM_bind.
    rewrite Hrr. cbv zeta. rewrite Hrun. reflexivity. }
  rewrite Hrender. unfold Renderer_PT.rescale_factor. split.
  - intros Hfit. destruct imode; [reflexivity|].
    rewrite (int_mul_in_range _ _ (Hfit eq_refl)). reflexivity.
  - intros -> Hout. rewrite (int_mul_overflow _ _ Hout). reflexivity.
Qed.

End PTProperties.

(** *** The volumetric path tracer *)

Section VolPTProperties.
Context `{FloatOps} `{!MathLib} `{!RngOps} `{!FilmOps} `{!PathLib}.
Local Open Scope fl_scope.

Lemma emission_samplable scene comp thr rp s sd film :
  Renderer_VolPT.emission scene true comp thr rp s sd film = film.
Proof. reflexivity. Qed.

(** C9. At a vertex that NEE can sample (its component is not specular) the
    film after the iteration is the film after the NEE edge: the hit found
    along the sampled direction adds nothing, emissive or not.  At a vertex
    NEE cannot sample, a sampled interaction on a light splats
    throughput * Le at the raster position of the path. *)
Theorem emission_only_without_nee (scene : Scene) (rr_prob : Float)
  (num_verts : Z) (w : Renderer_VolPT.Walk) :
  (path_is_specular_component scene (Renderer_VolPT.sp w) (Renderer_VolPT.comp w) = false ->
   forall film',
     film_after (Renderer_VolPT.walk_body scene rr_prob num_verts w) = Some film' ->
     film' = fst (Renderer_VolPT.nee_edge scene num_verts w))
  /\ (path_is_specular_component scene (Renderer_VolPT.sp w) (Renderer_VolPT.comp w) = true ->
      forall s rng2 rp sd rng3 film',
        path_sample_direction (Renderer_VolPT.rng w) scene (Renderer_VolPT.sp w)
          (Renderer_VolPT.wi w) (Renderer_VolPT.comp w) EL = (Some s, rng2) ->
        (if (num_verts =? 1)%Z then path_raster_position scene (ds_wo s)
         else Some (Renderer_VolPT.raster_pos w)) = Some rp ->
        path_sample_distance rng2 scene (Renderer_VolPT.sp w) (ds_wo s) = (Some sd, rng3) ->
        film_after (Renderer_VolPT.walk_body scene rr_prob num_verts w) = Some film' ->
        film' =
          if is_light scene (dd_sp sd) then
            film_splat (Renderer_VolPT.film w) rp
              (vmul (vmul (Renderer_VolPT.throughput w) (vmul (ds_weight s) (dd_weight sd)))
                    (path_eval_contrb_direction scene (as_type (dd_sp sd) LightEndpoint)
                       vzero (vneg (ds_wo s)) (Renderer_VolPT.comp w) LE true))
          else Renderer_VolPT.film w).
Proof.
  split.
  - intros Hspec film'. unfold Renderer_VolPT.walk_body, Renderer_VolPT.samplable_by_nee.
    rewrite Hspec; cbn.
    destruct (Renderer_VolPT.nee_edge scene num_verts w) as [film1 rng1]; cbn.
    destruct (path_sample_direction rng1 scene _ _ _ EL) as [[s|] rng2]; cbn;
      [|intros [= <-]; reflexivity].
    destruct (if (num_verts =? 1)%Z then _ else _) as [rp|]; cbn; [|discriminate].
    destruct (path_sample_distance rng2 scene _ _) as [[sd|] rng3]; cbn;
      [|intros [= <-]; reflexivity].
    destruct (pg_infinite (geom (dd_sp sd))); cbn; [intros [= <-]; reflexivity|].
    destruct (num_verts >? 5)%Z; cbn.
    + destruct (rng_u rng3) as [u rng4]; cbn.
      destruct (u <? _); cbn; [intros [= <-]; reflexivity|].
      destruct (path_sample_component rng4 scene (dd_sp sd)) as [s_comp rng5]; cbn.
      intros [= <-]; reflexivity.
    + destruct (path_sample_component rng3 scene (dd_sp sd)) as [s_comp rng5]; cbn.
      intros [= <-]; reflexivity.
  - intros Hspec s rng2 rp sd rng3 film' Hs Hrp Hsd.
    unfold Renderer_VolPT.walk_body, Renderer_VolPT.samplable_by_nee.
    rewrite Hspec; cbn. rewrite Hs; cbn. rewrite Hrp; cbn. rewrite Hsd; cbn.
    unfold Renderer_VolPT.emission; cbn.
    destruct (is_light scene (dd_sp sd)); cbn;
      destruct (pg_infinite (geom (dd_sp sd))); cbn; try (intros [= <-]; reflexivity);
      destruct (num_verts >? 5)%Z; cbn;
      try (destruct (rng_u rng3) as [u rng4]; cbn; destruct (u <? _); cbn);
      try (intros [= <-]; reflexivity);
      try (destruct (path_sample_component _ scene (dd_sp sd)) as [s_comp rng5]; cbn;
           intros [= <-]; reflexivity).
Qed.

End VolPTProperties.

(** *** Materials *)

Section PhaseProperties.
Context `{FloatOps} `{!MathLib}.

(** C10. The Henyey-Greenstein phase function evaluates to its own sampling
    density, in each of the three channels. *)
Theorem hg_eval_is_pdf (g : Float) (geom : PointGeometry) (wi wo : Vec3) :
  Phase_HenyeyGreenstein.eval g geom wi wo
    = vec3 (Phase_HenyeyGreenstein.pdf_direction g geom wi wo)
  /\ vx (Phase_HenyeyGreenstein.eval g geom wi wo)
       = Phase_HenyeyGreenstein.pdf_direction g geom wi wo
  /\ vy (Phase_HenyeyGreenstein.eval g geom wi wo)
       = Phase_HenyeyGreenstein.pdf_direction g geom wi wo
  /\ vz (Phase_HenyeyGreenstein.eval g geom wi wo)
       = Phase_HenyeyGreenstein.pdf_direction g geom wi wo.
Proof. repeat split. Qed.

End PhaseProperties.

Section MixtureProperties.
Context `{FloatOps} `{!MathLib} `{!RngOps}.
Local Open Scope fl_scope.
Import Material_WavefrontObj_Mixture.

Variables diffuse glossy alpha_mask : Material.
Variable mask_tex : option Texture.

Lemma pdf_comp_select_alpha geom :
  pdf_comp_select diffuse glossy mask_tex geom Comp_Alpha
    = Some (f1 - eval_alpha mask_tex geom).
Proof. reflexivity. Qed.

Lemma eval_pdf_lobe geom wi wo ed wd :
  diffuse_selection_weight diffuse glossy geom = Some wd ->
  eval_pdf diffuse glossy alpha_mask mask_tex geom wi wo ed Comp_Diffuse
    = Some (eval_alpha mask_tex geom * wd * m_pdf_direction diffuse geom wi wo ed)
  /\ eval_pdf diffuse glossy alpha_mask mask_tex geom wi wo ed Comp_Glossy
    = Some (eval_alpha mask_tex geom * (f1 - wd) * m_pdf_direction glossy geom wi wo ed).
Proof.
  intros Hw. unfold eval_pdf, pdf_comp_select. rewrite Hw. split; reflexivity.
Qed.

(** C4. With [wi] and [wo] in opposite half-spaces the value and the density
    are those of the Alpha lobe alone, weighted by [1 - alpha]; otherwise
    they are the sum, started from zero, of the Diffuse and Glossy terms and
    the Alpha lobe does not enter.  The half-space test is
    [PointGeometry::opposite]; where it compares the signs of [wi.n] and
    [wo.n], the first case is the one of different signs. *)
Theorem mixture_alpha_half_space (geom : PointGeometry) (wi wo : Vec3)
  (trans_dir : TransDir) (eval_delta : bool) :
  let alpha := eval_alpha mask_tex geom in
  (opposite geom wi wo = true ->
     eval diffuse glossy alpha_mask mask_tex geom wi wo trans_dir eval_delta
       = sscale (f1 - alpha) (m_eval alpha_mask geom wi wo trans_dir eval_delta)
     /\ pdf_direction diffuse glossy alpha_mask mask_tex geom wi wo eval_delta
       = Some ((f1 - alpha) * m_pdf_direction alpha_mask geom wi wo eval_delta))
  /\ (opposite geom wi wo = false ->
        eval diffuse glossy alpha_mask mask_tex geom wi wo trans_dir eval_delta
          = vadd (vadd (vec3 f0)
                       (sscale alpha (m_eval diffuse geom wi wo trans_dir eval_delta)))
                 (sscale alpha (m_eval glossy geom wi wo trans_dir eval_delta))
        /\ forall wd,
             diffuse_selection_weight diffuse glossy geom = Some wd ->
             pdf_direction diffuse glossy alpha_mask mask_tex geom wi wo eval_delta
               = Some (f0 + alpha * wd * m_pdf_direction diffuse geom wi wo eval_delta
                       + alpha * (f1 - wd) * m_pdf_direction glossy geom wi wo eval_delta))
  /\ ((forall g w1 w2, opposite g w1 w2 = sign_differs (dot w1 (pg_n g)) (dot w2 (pg_n g))) ->
      (opposite geom wi wo = true <->
       sign (dot wo (pg_n geom)) <> sign (dot wi (pg_n geom)))).
Proof.
  intros alpha. split; [|split]; [intros Hopp|intros Hopp|intros Hsign].
  - unfold eval, pdf_direction. rewrite Hopp. split; reflexivity.
  - unfold eval, pdf_direction. rewrite Hopp. split; [reflexivity|].
    intros wd Hw. destruct (eval_pdf_lobe geom wi wo eval_delta wd Hw) as [-> ->].
    reflexivity.
  - rewrite Hsign. unfold sign_differs.
    destruct (Z.eqb_spec (sign (dot wi (pg_n geom))) (sign (dot wo (pg_n geom)))) as [He|He];
      cbn; split; intros Hx; try discriminate; try reflexivity; congruence.
Qed.

End MixtureProperties.

(** *** Glass, in ideal arithmetic *)

Section RealArithmetic.
Local Open Scope R_scope.

Lemma Rltb_true (a b : R) : Rltb a b = true <-> a < b.
Proof. unfold Rltb. destruct (Rlt_dec a b); split; intros; (discriminate || lra || reflexivity). Qed.

Lemma Rltb_false (a b : R) : Rltb a b = false <-> b <= a.
Proof. unfold Rltb. destruct (Rlt_dec a b); split; intros; (discriminate || lra || reflexivity). Qed.

Lemma Reqb_true (a b : R) : Reqb a b = true <-> a = b.
Proof.
  unfold Reqb. destruct (Req_dec_T a b); split; intros; (discriminate || tauto || reflexivity).
Qed.

Lemma geo_sum_bound (y : R) : Rabs y <= 2 -> Rabs (1 + y + y^2 + y^3 + y^4) <= 31.
Proof.
  intros Hy.
  assert (Ha : 0 <= Rabs y <= 2) by (split; [apply Rabs_pos | exact Hy]).
  assert (H2 := pow_incr _ _ 2 Ha).
  assert (H3 := pow_incr _ _ 3 Ha).
  assert (H4 := pow_incr _ _ 4 Ha).
  rewrite !RPow_abs in H2, H3, H4.
  eapply Rle_trans; [apply Rabs_triang|].
  eapply Rle_trans; [apply Rplus_le_compat_r, Rabs_triang|].
  eapply Rle_trans; [apply Rplus_le_compat_r, Rplus_le_compat_r, Rabs_triang|].
  eapply Rle_trans;
    [apply Rplus_le_compat_r, Rplus_le_compat_r, Rplus_le_compat_r, Rabs_triang|].
  rewrite Rabs_R1. lra.
Qed.

(** Schlick's polynomial [r2 + (1 - r2) (1 - c)^5] tends to 1 as [c] tends
    to 0. *)
Lemma schlick_near_one (r2 eps : R) :
  0 < eps ->
  exists delta, 0 < delta /\
    forall c, Rabs c < delta -> Rabs (r2 + (1 - r2) * (1 - c) ^ 5 - 1) < eps.
Proof.
  intros Heps.
  set (K := Rabs (1 - r2) + 1).
  assert (HK : 0 < K) by (unfold K; pose proof (Rabs_pos (1 - r2)); lra).
  exists (Rmin 1 (eps / (31 * K))). split.
  - apply Rmin_glb_lt; [lra|]. apply Rdiv_lt_0_compat; lra.
  - intros c Hc.
    assert (Hc1 : Rabs c < 1) by (eapply Rlt_le_trans; [exact Hc|apply Rmin_l]).
    assert (Hc2 : Rabs c < eps / (31 * K)) by (eapply Rlt_le_trans; [exact Hc|apply Rmin_r]).
    replace (r2 + (1 - r2) * (1 - c) ^ 5 - 1)
      with ((1 - r2) * (- c) * (1 + (1 - c) + (1 - c)^2 + (1 - c)^3 + (1 - c)^4)) by ring.
    rewrite !Rabs_mult, Rabs_Ropp.
    assert (Hy : Rabs (1 - c) <= 2).
    { eapply Rle_trans; [apply Rabs_triang|]. rewrite Rabs_R1, Rabs_Ropp. lra. }
    pose proof (geo_sum_bound (1 - c) Hy) as HP.
    pose proof (Rabs_pos (1 - r2)) as Hr. pose proof (Rabs_pos c) as Hcp.
    pose proof (Rabs_pos (1 + (1 - c) + (1 - c)^2 + (1 - c)^3 + (1 - c)^4)) as HPp.
    apply Rle_lt_trans with (K * Rabs c * 31).
    + apply Rmult_le_compat; try lra.
      * apply Rmult_le_pos; lra.
      * apply Rmult_le_compat_r; [lra|]. unfold K; lra.
    + assert (Hlt : Rabs c * (31 * K) < eps).
      { apply (Rmult_lt_compat_r (31 * K)) in Hc2; [|lra].
        unfold Rdiv in Hc2. rewrite Rmult_assoc, Rinv_l in Hc2; lra. }
      lra.
Qed.

End RealArithmetic.

Section GlassProperties.
Local Existing Instance RealOps.
Context `{!MathLib} `{!RngOps}.
Local Open Scope R_scope.
Import Material_Glass.

Lemma glass_Fr_front (Ni : R) (geom : PointGeometry) (wi : Vec3) :
  0 < dot wi (pg_n geom) ->
  glass_Fr Ni geom wi
  = if Rltb (1 - (1 / Ni) * (1 / Ni) * (1 - dot wi (pg_n geom) * dot wi (pg_n geom))) 0
    then 1
    else (1 - Ni) / (1 + Ni) * ((1 - Ni) / (1 + Ni))
         + (1 - (1 - Ni) / (1 + Ni) * ((1 - Ni) / (1 + Ni)))
           * (1 - dot wi (pg_n geom)) ^ 5.
Proof.
  intros Hc. unfold glass_Fr, refraction, discriminant, fresnel, fresnel_cos.
  change (@fltb RealOps) with Rltb. change (@f0 RealOps) with 0.
  change (@f1 RealOps) with 1. change (@fdiv RealOps) with Rdiv.
  assert (Hin : Rltb 0 (dot wi (pg_n geom)) = true) by (apply Rltb_true; exact Hc).
  rewrite Hin. cbn.
  destruct (Rltb _ 0); reflexivity.
Qed.

Lemma glass_Fr_behind (Ni : R) (geom : PointGeometry) (wi : Vec3) :
  dot (pg_n geom) (pg_n geom) = 1 ->
  dot wi (pg_n geom) <= 0 ->
  glass_Fr Ni geom wi
  = if Rltb (1 - Ni * Ni * (1 - dot wi (pg_n geom) * dot wi (pg_n geom))) 0
    then 1
    else (1 - Ni) / (1 + Ni) * ((1 - Ni) / (1 + Ni))
         + (1 - (1 - Ni) / (1 + Ni) * ((1 - Ni) / (1 + Ni)))
           * (1 - R_sqrt.sqrt (1 - Ni * Ni * (1 - dot wi (pg_n geom) * dot wi (pg_n geom)))) ^ 5.
Proof.
  intros Hn Hc. unfold glass_Fr, refraction, discriminant, fresnel, fresnel_cos.
  change (@fltb RealOps) with Rltb. change (@f0 RealOps) with 0.
  change (@f1 RealOps) with 1. change (@fdiv RealOps) with Rdiv.
  assert (Hin : Rltb 0 (dot wi (pg_n geom)) = false) by (apply Rltb_false; exact Hc).
  rewrite Hin.
  assert (Hd : dot wi (vneg (pg_n geom)) = - dot wi (pg_n geom)).
  { unfold dot, vneg. cbn. change Float with R. ring. }
  rewrite Hd.
  change (@fneg RealOps) with Ropp. change (@fmul RealOps) with Rmult.
  change (@fsub RealOps) with Rminus. change (@fsqrt RealOps) with R_sqrt.sqrt.
  change (@fadd RealOps) with Rplus. change (@fpown RealOps) with Rpow_def.pow.
  set (c := dot wi (pg_n geom)) in *.
  assert (Ed : 1 - Ni * Ni * (1 - - c * - c) = 1 - Ni * Ni * (1 - c * c))
    by (change Float with R; ring).
  rewrite Ed. set (d := 1 - Ni * Ni * (1 - c * c)).
  destruct (Rltb d 0); [reflexivity|].
  assert (Hw : dot (vadd (sscale (- Ni) wi)
                         (sscale (Ni * - c - R_sqrt.sqrt d) (vneg (pg_n geom))))
                   (pg_n geom) = R_sqrt.sqrt d).
  { revert Hn. subst c. generalize (R_sqrt.sqrt d). intros sd.
    destruct wi as [wx wy wz]. destruct (pg_n geom) as [nx ny nz].
    unfold dot, vadd, sscale, vneg. cbn. intros Hn.
    change (@Float RealOps) with R in *.
    assert (E : (- Ni * wx + (Ni * - (wx * nx + wy * ny + wz * nz) - sd) * - nx) * nx +
                (- Ni * wy + (Ni * - (wx * nx + wy * ny + wz * nz) - sd) * - ny) * ny +
                (- Ni * wz + (Ni * - (wx * nx + wy * ny + wz * nz) - sd) * - nz) * nz
                = - Ni * (wx * nx + wy * ny + wz * nz)
                  + (Ni * (wx * nx + wy * ny + wz * nz) + sd)
                    * (nx * nx + ny * ny + nz * nz)) by ring.
    rewrite E, Hn. ring. }
  rewrite Hw. reflexivity.
Qed.

Lemma glass_Fr_total_behind (Ni : R) :
  1 < Ni * Ni ->
  forall (geom : PointGeometry) (wi : Vec3),
    dot (pg_n geom) (pg_n geom) = 1 ->
    - ((Ni * Ni - 1) / (Ni * Ni)) < dot wi (pg_n geom) <= 0 ->
    glass_Fr Ni geom wi = 1.
Proof.
  intros HNi geom wi Hn [Hlo Hhi].
  rewrite (glass_Fr_behind Ni geom wi Hn Hhi).
  set (c := dot wi (pg_n geom)) in *.
  assert (Hlt : 1 - Ni * Ni * (1 - c * c) < 0).
  { assert (HN0 : 0 < Ni * Ni) by lra.
    assert (HNi0 : Ni <> 0) by (intros ->; lra).
    assert (Hd : (Ni * Ni - 1) / (Ni * Ni) * (Ni * Ni) = Ni * Ni - 1) by (field; exact HNi0).
    set (q := (Ni * Ni - 1) / (Ni * Ni)) in *.
    assert (Hq : 0 < q < 1).
    { split.
      - apply Rdiv_lt_0_compat; lra.
      - apply (Rmult_lt_reg_r (Ni * Ni)); [exact HN0|]. rewrite Hd. lra. }
    assert (Hcc : c * c < q) by nra.
    nra. }
  apply Rltb_true in Hlt. rewrite Hlt. reflexivity.
Qed.



End GlassProperties.

Section GlassFromBehind.
Local Existing Instance RealOps.
Local Open Scope R_scope.

Lemma unit_pow5_bound (x : R) : 0 <= x <= 1 / 5 -> 0 <= x ^ 5 <= 1 / 3125.
Proof.
  intros Hx. split.
  - apply pow_le. lra.
  - replace (1 / 3125) with ((1 / 5) ^ 5) by field. apply pow_incr. exact Hx.
Qed.

End GlassFromBehind.

(** *** The MTL illum mapping *)

Section ConstructProperties.
Context `{FloatOps} `{!MathLib} `{!Framework}.
Local Open Scope fl_scope.
Import Model_WavefrontObj.

Lemma registered_lookup (key : string) (c : Component) (st : Model) :
  (i ← assets_map_ (register key c st) !! key;
   assets_ (register key c st) !! Z.to_nat i) = Some c.
Proof.
  unfold register; cbn. rewrite lookup_insert_eq; cbn.
  rewrite Nat2Z.id. apply list_lookup_middle. reflexivity.
Qed.

(** Without a [base_material] and once the texture is loaded, the asset the
    callback registers for [m] is the one "Load material" creates. *)
Lemma created_material_load (prop : Json) (path : string) (m : MTLMatParams) (st : Model)
  (mapKd_loc : string) (st1 : Model) :
  json_find prop "base_material" = None ->
  load_texture prop path m st = Some (mapKd_loc, st1) ->
  created_material prop path m st = load_material prop m mapKd_loc.
Proof.
  intros Hbase Htex. unfold created_material, process_material.
  rewrite Hbase, Htex.
  destruct (load_material prop m mapKd_loc) as [mat|]; [|reflexivity].
  apply registered_lookup.
Qed.

(** C7, amended. When no [base_material] is configured and the texture stage
    succeeds: illum 5 creates material::mirror, illum 7 material::glass with
    [Ni], any other illum the mixture with [ax = max(1e-3, r / as)] and
    [ay = max(1e-3, r * as)], [r = 2 / (2 + Ns)], [as = safe_sqrt(1 - an * 0.9)];
    with [skip_specular_mat], illum 5 and 7 create a diffuse material with
    [Kd = 0] and the others material::wavefrontobj_marginal_without_alpha. *)
Theorem illum_mapping_without_base_material (prop : Json) (path : string)
  (m : MTLMatParams) (st : Model) (mapKd_loc : string) (st1 : Model) :
  json_find prop "base_material" = None ->
  load_texture prop path m st = Some (mapKd_loc, st1) ->
  let skip := json_value_bool prop "skip_specular_mat" false in
  let r := of_int 2 / (of_int 2 + Ns m) in
  let as_ := safe_sqrt (f1 - an m * lit 9 10) in
  let mixture_props :=
    [("Kd", PVec3 (Kd m)); ("mapKd", PString mapKd_loc); ("Ks", PVec3 (Ks m));
     ("ax", PFloat (fmax (lit 1 1000) (r / as_)));
     ("ay", PFloat (fmax (lit 1 1000) (r * as_)))] in
  (skip = false -> illum m = 5%Z ->
     created_material prop path m st = create "material::mirror" (make_loc (name m)) [])
  /\ (skip = false -> illum m = 7%Z ->
     created_material prop path m st
       = create "material::glass" (make_loc (name m)) [("Ni", PFloat (Ni m))])
  /\ (skip = false -> illum m <> 5%Z -> illum m <> 7%Z ->
     created_material prop path m st
       = create "material::wavefrontobj_mixture" (make_loc (name m)) mixture_props)
  /\ (skip = true -> illum m = 5%Z \/ illum m = 7%Z ->
     created_material prop path m st
       = create "material::diffuse" (make_loc (name m)) [("Kd", PVec3 (vec3 f0))])
  /\ (skip = true -> illum m <> 5%Z -> illum m <> 7%Z ->
     created_material prop path m st
       = create "material::wavefrontobj_marginal_without_alpha" (make_loc (name m))
           mixture_props).
Proof.
  intros Hbase Htex skip r as_ mixture_props.
  rewrite (created_material_load _ _ _ _ _ _ Hbase Htex).
  unfold load_material. fold skip. fold r. fold as_. fold mixture_props.
  repeat split.
  - intros -> ->. reflexivity.
  - intros -> ->. reflexivity.
  - intros -> H5 H7.
    apply Z.eqb_neq in H5, H7. rewrite H5, H7. reflexivity.
  - intros -> [-> | ->]; reflexivity.
  - intros -> H5 H7.
    apply Z.eqb_neq in H5, H7. rewrite H5, H7. reflexivity.
Qed.

End ConstructProperties.

(** *** Visibility *)

Section VisibleProperties.
Local Existing Instance RealOps.
Context `{!MathLib} `{!RngOps}.
Local Open Scope R_scope.

Lemma distance_sym (a b : Vec3) : distance a b = distance b a.
Proof.
  unfold distance, length3, dot, vsub; cbn. f_equal. ring.
Qed.

Lemma point_on_reverse (p1 p2 : Vec3) (t : R) :
  distance p1 p2 <> 0 ->
  point_on p2 (normalize (vsub p1 p2)) t
    = point_on p1 (normalize (vsub p2 p1)) (distance p1 p2 - t).
Proof.
  unfold point_on, normalize, distance, length3.
  replace (dot (vsub p1 p2) (vsub p1 p2)) with (dot (vsub p2 p1) (vsub p2 p1))
    by (unfold dot, vsub; cbn; ring).
  generalize (fsqrt (dot (vsub p2 p1) (vsub p2 p1))). intros d Hd.
  destruct p1 as [x1 y1 z1], p2 as [x2 y2 z2].
  unfold vadd, vscale, vsub, f1; cbn.
  f_equal; change Float with R in *; field; exact Hd.
Qed.

Lemma visible_finite (scene : Scene) (sp1 sp2 : SceneInteraction) :
  pg_infinite (geom sp1) = false ->
  pg_infinite (geom sp2) = false ->
  visible scene sp1 sp2 =
    negb (bool_decide (is_Some (intersect scene
            (mkRay (pg_p (geom sp1)) (normalize (vsub (pg_p (geom sp2)) (pg_p (geom sp1)))))
            Eps (distance (pg_p (geom sp1)) (pg_p (geom sp2)) * (1 - Eps))))).
Proof.
  intros H1 H2. unfold visible, visible_. rewrite H1, H2. reflexivity.
Qed.

(** In ideal arithmetic and for a geometric intersection query: two finite
    interactions at distinct points see each other symmetrically when no
    surface point of the open segment between them lies closer than
    [max(Eps, d * Eps)] to either end, [d] being their distance. *)
Lemma visible_symmetric_clear_of_endpoints (scene : Scene) (surface : Vec3 -> Prop)
  (sp1 sp2 : SceneInteraction) :
  geometric scene surface ->
  pg_infinite (geom sp1) = false ->
  pg_infinite (geom sp2) = false ->
  0 < Eps < 1 ->
  0 < distance (pg_p (geom sp1)) (pg_p (geom sp2)) ->
  (forall t,
     0 < t < distance (pg_p (geom sp1)) (pg_p (geom sp2)) ->
     t < Rmax Eps (distance (pg_p (geom sp1)) (pg_p (geom sp2)) * Eps)
     \/ distance (pg_p (geom sp1)) (pg_p (geom sp2)) - t
          < Rmax Eps (distance (pg_p (geom sp1)) (pg_p (geom sp2)) * Eps) ->
     ~ surface (point_on (pg_p (geom sp1))
                  (normalize (vsub (pg_p (geom sp2)) (pg_p (geom sp1)))) t)) ->
  visible scene sp1 sp2 = visible scene sp2 sp1.
Proof.
  intros Hgeo Hi1 Hi2 [He0 He1] Hd Hclear.
  rewrite (visible_finite scene sp1 sp2 Hi1 Hi2), (visible_finite scene sp2 sp1 Hi2 Hi1).
  set (p1 := pg_p (geom sp1)) in *. set (p2 := pg_p (geom sp2)) in *.
  rewrite (distance_sym p2 p1).
  set (d := distance p1 p2) in *.
  assert (Hd0 : d <> 0) by lra.
  pose proof (Rmax_l Eps (d * Eps)) as HM1. pose proof (Rmax_r Eps (d * Eps)) as HM2.
  set (M := Rmax _ _) in *.
  f_equal. apply bool_decide_ext. split; intros Hhit; apply Hgeo; apply Hgeo in Hhit.
  - destruct Hhit as (t & [Ht1 Ht2] & HS).
    assert (Hin : 0 < t < d) by nra.
    destruct (Rlt_dec t M) as [Hlo|Hlo]; [exfalso; apply (Hclear t Hin); [left; exact Hlo|exact HS]|].
    destruct (Rlt_dec (d - t) M) as [Hhi|Hhi]; [exfalso; apply (Hclear t Hin); [right; exact Hhi|exact HS]|].
    exists (d - t). split; [nra|].
    rewrite (point_on_reverse p1 p2 (d - t) Hd0). fold d.
    replace (d - (d - t)) with t by ring. exact HS.
  - destruct Hhit as (t' & [Ht1 Ht2] & HS).
    rewrite (point_on_reverse p1 p2 t' Hd0) in HS. fold d in HS.
    assert (Hin : 0 < d - t' < d) by nra.
    destruct (Rlt_dec (d - t') M) as [Hlo|Hlo]; [exfalso; apply (Hclear _ Hin); [left; exact Hlo|exact HS]|].
    destruct (Rlt_dec (d - (d - t')) M) as [Hhi|Hhi]; [exfalso; apply (Hclear _ Hin); [right; exact Hhi|exact HS]|].
    exists (d - t'). split; [|exact HS].
    replace (d - (d - t')) with t' in Hhi by ring. nra.
Qed.
End VisibleProperties.

(** With exactly one endpoint at infinity both orders of the arguments run
    the same query, from the finite endpoint. *)
Lemma visible_one_infinite `{FloatOps} `{!MathLib} `{!RngOps}
  (scene : Scene) (sp1 sp2 : SceneInteraction) :
  pg_infinite (geom sp1) = true ->
  pg_infinite (geom sp2) = false ->
  visible scene sp1 sp2 = visible scene sp2 sp1.
Proof. intros Hi1 Hi2. unfold visible. rewrite Hi1, Hi2. reflexivity. Qed.

Section VisibleQueries.
Context `{FloatOps} `{!MathLib} `{!RngOps}.
Local Open Scope fl_scope.

(** Between finite interactions [visible] is the negation of one query, cast
    from the first argument; the two orders agree exactly when the two
    queries do, and they are the same query when the positions coincide. *)
Lemma visible_by_queries (scene : Scene) (sp1 sp2 : SceneInteraction) :
  pg_infinite (geom sp1) = false ->
  pg_infinite (geom sp2) = false ->
  let p1 := pg_p (geom sp1) in
  let p2 := pg_p (geom sp2) in
  let blocked12 :=
    is_Some (intersect scene (mkRay p1 (normalize (vsub p2 p1))) Eps
               (distance p1 p2 * (f1 - Eps))) in
  let blocked21 :=
    is_Some (intersect scene (mkRay p2 (normalize (vsub p1 p2))) Eps
               (distance p2 p1 * (f1 - Eps))) in
  (visible scene sp1 sp2 = true <-> ~ blocked12)
  /\ (visible scene sp2 sp1 = true <-> ~ blocked21)
  /\ (visible scene sp1 sp2 = visible scene sp2 sp1 <-> (blocked12 <-> blocked21))
  /\ (p1 = p2 -> visible scene sp1 sp2 = visible scene sp2 sp1).
Proof.
  intros Hi1 Hi2 p1 p2 blocked12 blocked21.
  assert (H12 : visible scene sp1 sp2 = negb (bool_decide blocked12)).
  { unfold visible, visible_. rewrite Hi1, Hi2. reflexivity. }
  assert (H21 : visible scene sp2 sp1 = negb (bool_decide blocked21)).
  { unfold visible, visible_. rewrite Hi1, Hi2. reflexivity. }
  rewrite H12, H21.
  split; [|split; [|split]].
  - rewrite negb_true_iff, bool_decide_eq_false. reflexivity.
  - rewrite negb_true_iff, bool_decide_eq_false. reflexivity.
  - split.
    + intros Heq. apply (f_equal negb) in Heq. rewrite !negb_involutive in Heq.
      split; intros Hb.
      * eapply bool_decide_eq_true_1. rewrite <- Heq. apply bool_decide_eq_true_2. exact Hb.
      * eapply bool_decide_eq_true_1. rewrite Heq. apply bool_decide_eq_true_2. exact Hb.
    + intros Hiff. f_equal. apply bool_decide_ext. exact Hiff.
  - intros Hp. subst blocked12 blocked21. rewrite Hp. reflexivity.
Qed.
End VisibleQueries.

Section VisibleReal.
Local Existing Instance RealOps.
Context `{!MathLib} `{!RngOps}.
Local Open Scope R_scope.

(** Points at distance zero coincide. *)
Lemma distance_zero (a b : Vec3) : distance a b = 0 -> a = b.
Proof.
  destruct a as [ax ay az], b as [bx b_y bz].
  unfold distance, length3, dot, vsub. cbn [vx vy vz].
  change (@fsqrt RealOps) with R_sqrt.sqrt.
  set (s := fadd _ _).
  assert (Es : s = Rsqr (bx - ax) + Rsqr (b_y - ay) + Rsqr (bz - az))
    by (unfold s, Rsqr; cbn; ring).
  rewrite Es. clear s Es.
  pose proof (Rle_0_sqr (bx - ax)) as Hx. pose proof (Rle_0_sqr (b_y - ay)) as Hy.
  pose proof (Rle_0_sqr (bz - az)) as Hz.
  intros Hs. apply sqrt_eq_0 in Hs; [|lra].
  assert (Ex : bx - ax = 0) by (apply Rsqr_0_uniq; lra).
  assert (Ey : b_y - ay = 0) by (apply Rsqr_0_uniq; lra).
  assert (Ez : bz - az = 0) by (apply Rsqr_0_uniq; lra).
  f_equal; change Float with R in *; lra.
Qed.

(** The same without the positions being distinct. *)
Lemma visible_symmetric_when_clear (scene : Scene) (surface : Vec3 -> Prop)
  (sp1 sp2 : SceneInteraction) :
  geometric scene surface ->
  pg_infinite (geom sp1) = false ->
  pg_infinite (geom sp2) = false ->
  0 < Eps < 1 ->
  (forall t,
     0 < t < distance (pg_p (geom sp1)) (pg_p (geom sp2)) ->
     t < Rmax Eps (distance (pg_p (geom sp1)) (pg_p (geom sp2)) * Eps)
     \/ distance (pg_p (geom sp1)) (pg_p (geom sp2)) - t
          < Rmax Eps (distance (pg_p (geom sp1)) (pg_p (geom sp2)) * Eps) ->
     ~ surface (point_on (pg_p (geom sp1))
                  (normalize (vsub (pg_p (geom sp2)) (pg_p (geom sp1)))) t)) ->
  visible scene sp1 sp2 = visible scene sp2 sp1.
Proof.
  intros Hgeo Hi1 Hi2 He Hclear.
  assert (Hd : 0 <= distance (pg_p (geom sp1)) (pg_p (geom sp2))).
  { unfold distance, length3. apply sqrt_pos. }
  destruct (Req_dec_T (distance (pg_p (geom sp1)) (pg_p (geom sp2))) 0) as [Hz|Hnz].
  - apply (visible_by_queries scene sp1 sp2 Hi1 Hi2). apply distance_zero. exact Hz.
  - apply (visible_symmetric_clear_of_endpoints scene surface); try assumption. lra.
Qed.
End VisibleReal.

Section VisibleSymmetric.
Local Existing Instance RealOps.

End VisibleSymmetric.

(** *** The properties on the example scenes *)

Section OnExample64.
#[local] Existing Instance Binary64Ops.
#[local] Existing Instance Example64.math64.
#[local] Existing Instance Example64.lcg.
#[local] Existing Instance Example64.splat_log.
#[local] Existing Instance Example64.recorder.
#[local] Existing Instance Example64.forward_path.
Import Example64.
Local Open Scope fl_scope.


(** C7 as stated fails.  With a [base_material] in the configuration the
    material of an [illum 5] entry is a material::proxy, not a mirror. *)
Lemma base_material_overrides_illum :
  Model_WavefrontObj.illum mirror_mtl = 5%Z
  /\ json_value_bool proxy_prop "skip_specular_mat" false = false
  /\ Model_WavefrontObj.created_material proxy_prop "scene.obj" mirror_mtl empty_model
       = Some ("material::proxy", "$.assets.model.Mirror", [("ref", PJson proxy_prop)])
  /\ Model_WavefrontObj.created_material proxy_prop "scene.obj" mirror_mtl empty_model
       <> create "material::mirror" (make_loc (Model_WavefrontObj.name mirror_mtl)) [].
Proof.
  split; [reflexivity|]. split; [reflexivity|]. split; [vm_compute; reflexivity|].
  vm_compute. intros Heq. discriminate Heq.
Qed.

Lemma illum_mapping_witness :
  json_find ([] : Json) "base_material" = None
  /\ Model_WavefrontObj.load_texture [] "scene.obj" mirror_mtl empty_model
       = Some ("", empty_model)
  /\ Model_WavefrontObj.created_material [] "scene.obj" mirror_mtl empty_model
       = create "material::mirror" (make_loc (Model_WavefrontObj.name mirror_mtl)) [].
Proof.
  split; [reflexivity|]. split; [reflexivity|].
  refine (proj1 (illum_mapping_without_base_material
                   [] "scene.obj" mirror_mtl empty_model "" empty_model _ _) _ _);
    reflexivity.
Defined.

Lemma require_renderable_witness :
  (0 <= num_lights (plane_scene f1))%Z
  /\ require_renderable (plane_scene f1) = (Ok tt, plane_scene f1).
Proof.
  assert (Hl : (0 <= num_lights (plane_scene f1))%Z) by (cbn; lia).
  split; [exact Hl|].
  apply (proj1 (proj2 (require_renderable_throws_iff (plane_scene f1) Hl))).
  unfold lacks_element; cbn. intros [Hn|[Hc|[Hn|Ha]]]; (lia || discriminate).
Defined.

Lemma render_rescales_film_witness :
  fst (require_renderable (plane_scene f1)) = Ok tt
  /\ run (sequential 4) _
       (Renderer_PT.process (plane_scene f1) 8 (Some 7%Z) MIS Image
          (film_size (film_clear [])))
       (Some (film_clear [], ∅))
     = (4%Z, Some (ExampleTasks.image_film, ExampleTasks.image_rngs))
  /\ (- 2 ^ 31 <= 2 * 2 < 2 ^ 31)%Z
  /\ fst (Renderer_PT.render (plane_scene f1) 8 (Some 7%Z) MIS Image (sequential 4)
            [] ∅ (plane_scene f1))
       = Ok (Some (film_rescale ExampleTasks.image_film (of_int (2 * 2) / of_int 4),
                   ExampleTasks.image_rngs)).
Proof.
  assert (Hreq : fst (require_renderable (plane_scene f1)) = Ok tt)
    by (vm_compute; reflexivity).
  assert (Hrun : run (sequential 4) _
            (Renderer_PT.process (plane_scene f1) 8 (Some 7%Z) MIS Image
               (film_size (film_clear [])))
            (Some (film_clear [], ∅))
          = (4%Z, Some (ExampleTasks.image_film, ExampleTasks.image_rngs)))
    by (vm_compute; reflexivity).
  assert (Hfit : (- 2 ^ 31 <= 2 * 2 < 2 ^ 31)%Z) by lia.
  split; [exact Hreq|]. split; [exact Hrun|]. split; [exact Hfit|].
  exact (proj1 (render_rescales_film (plane_scene f1) 8 (Some 7%Z) MIS Image (sequential 4)
                  [] ∅ 4%Z ExampleTasks.image_film ExampleTasks.image_rngs Hreq Hrun)
           (fun _ => Hfit)).
Defined.

(** At the surface vertex of the example NEE is possible: the NEE edge splats
    one half, and the light the walk then hits leaves the film as it was.  At
    the camera vertex, which is specular, the hit splats its emission. *)
Lemma emission_only_without_nee_witness :
  path_is_specular_component (plane_scene f1)
    (Renderer_VolPT.sp surface_vertex) (Renderer_VolPT.comp surface_vertex) = false
  /\ film_after (Renderer_VolPT.walk_body (plane_scene f1) (lit 2 10) 2 surface_vertex)
       = Some [(mkVec2 (lit 1 2) (lit 1 2), vec3 (lit 1 2))]
  /\ [(mkVec2 (lit 1 2) (lit 1 2), vec3 (lit 1 2))]
       = fst (Renderer_VolPT.nee_edge (plane_scene f1) 2 surface_vertex).
Proof.
  assert (Hs : path_is_specular_component (plane_scene f1)
                 (Renderer_VolPT.sp surface_vertex) (Renderer_VolPT.comp surface_vertex)
               = false) by reflexivity.
  assert (Hf : film_after
                 (Renderer_VolPT.walk_body (plane_scene f1) (lit 2 10) 2 surface_vertex)
               = Some [(mkVec2 (lit 1 2) (lit 1 2), vec3 (lit 1 2))])
    by (vm_compute; reflexivity).
  split; [exact Hs|]. split; [exact Hf|].
  exact (proj1 (emission_only_without_nee (plane_scene f1) (lit 2 10) 2 surface_vertex)
           Hs _ Hf).
Defined.

Example camera_vertex_emission :
  film_after (Renderer_VolPT.walk_body (plane_scene f1) (lit 2 10) 1 camera_vertex)
    = Some [(mkVec2 (lit 1 2) (lit 1 2), vec3 f1)].
Proof. vm_compute. reflexivity. Qed.

Lemma mixture_alpha_half_space_witness :
  opposite up (mkVec3 f0 f0 f1) (mkVec3 f0 f0 (- f1)) = true
  /\ Material_WavefrontObj_Mixture.eval
       (constant_lobe (lit 3 4) (lit 1 4) (lit 1 2) false)
       (constant_lobe (lit 1 4) f1 (of_int 2) false)
       (constant_lobe f0 f1 f1 true) (Some half_alpha) up
       (mkVec3 f0 f0 f1) (mkVec3 f0 f0 (- f1)) EL true
     = sscale (f1 - Material_WavefrontObj_Mixture.eval_alpha (Some half_alpha) up)
         (Material_WavefrontObj_Mixture.m_eval (constant_lobe f0 f1 f1 true) up
            (mkVec3 f0 f0 f1) (mkVec3 f0 f0 (- f1)) EL true).
Proof.
  assert (Ho : opposite up (mkVec3 f0 f0 f1) (mkVec3 f0 f0 (- f1)) = true)
    by (vm_compute; reflexivity).
  split; [exact Ho|].
  exact (proj1 (proj1 (mixture_alpha_half_space
                         (constant_lobe (lit 3 4) (lit 1 4) (lit 1 2) false)
                         (constant_lobe (lit 1 4) f1 (of_int 2) false)
                         (constant_lobe f0 f1 f1 true) (Some half_alpha) up
                         (mkVec3 f0 f0 f1) (mkVec3 f0 f0 (- f1)) EL true) Ho)).
Defined.

(** The rescaled film of the example: four splats of a quarter each. *)
Example example_render_film :
  option_map (fun st => map snd (fst st))
    (match fst (Renderer_PT.render (plane_scene f1) 8 (Some 7%Z) MIS Pixel (sequential 4)
                  [] ∅ (plane_scene f1)) with
     | Ok r => r
     | Throw _ _ => None
     end)
  = Some [vec3 (lit 1 4); vec3 (lit 1 4); vec3 (lit 1 4); vec3 (lit 1 4)].
Proof. vm_compute. reflexivity. Qed.

(** Glass with [Ni = 1.5] at normal incidence reflects 4 percent. *)
Example fresnel_normal_incidence :
  (Material_Glass.fresnel (lit 3 2) (mkVec3 f0 f0 f1) vzero
     (mkGeom vzero (mkVec3 f0 f0 f1) false false v2zero vzero) <? lit 401 10000) = true
  /\ (lit 399 10000 <?
        Material_Glass.fresnel (lit 3 2) (mkVec3 f0 f0 f1) vzero
          (mkGeom vzero (mkVec3 f0 f0 f1) false false v2zero vzero)) = true.
Proof. vm_compute. split; reflexivity. Qed.

(** The mixture with alpha one half, diffuse and glossy albedo 3/4 and 1/4:
    straight through the surface only the mask contributes, on the same side
    only the two other lobes. *)
Example mixture_through_and_back :
  let diffuse := constant_lobe (lit 3 4) (lit 1 4) (lit 1 2) false in
  let glossy := constant_lobe (lit 1 4) f1 (of_int 2) false in
  let mask := constant_lobe f0 f1 f1 true in
  Material_WavefrontObj_Mixture.eval diffuse glossy mask (Some half_alpha) up
    (mkVec3 f0 f0 f1) (mkVec3 f0 f0 (- f1)) EL true = vec3 (lit 1 2)
  /\ Material_WavefrontObj_Mixture.pdf_direction diffuse glossy mask (Some half_alpha) up
       (mkVec3 f0 f0 f1) (mkVec3 f0 f0 (- f1)) true = Some (lit 1 2)
  /\ Material_WavefrontObj_Mixture.eval diffuse glossy mask (Some half_alpha) up
       (mkVec3 f0 f0 f1) (mkVec3 f0 f0 f1) EL true = vec3 (lit 5 4)
  /\ Material_WavefrontObj_Mixture.pdf_direction diffuse glossy mask (Some half_alpha) up
       (mkVec3 f0 f0 f1) (mkVec3 f0 f0 f1) true = Some (lit 7 32).
Proof. vm_compute. repeat split. Qed.

(** The NEE weight on the example: densities 1 and 3 weigh the light sample
    by a quarter in [MIS] mode and by one in [NEE] mode; the primary vertex
    samples a NEE edge in [Image] mode only. *)
Example nee_weight_values :
  let s := mkRaySample (at_x (- f1)) 0 (mkVec3 f1 f0 f0) (vec3 f1) in
  let sL := mkRaySample (at_x f1) 0 (mkVec3 (- f1) f0 f0) (vec3 f1) in
  Renderer_PT.nee_misw (plane_scene f1) MIS s sL vzero = lit 1 4
  /\ Renderer_PT.nee_misw (plane_scene f1) NEE s sL vzero = f1
  /\ Renderer_PT.nee (plane_scene f1) MIS Pixel 0 s = false
  /\ Renderer_PT.nee (plane_scene f1) MIS Image 0 s = true
  /\ Renderer_PT.nee (plane_scene f1) MIS Pixel 1 s = true
  /\ Renderer_PT.nee (plane_scene f1) Naive Image 1 s = false.
Proof. vm_compute. repeat split. Qed.

Example balance_heuristic_values :
  balance_heuristic f0 f0 = f0 /\ balance_heuristic f1 (of_int 3) = lit 1 4.
Proof. vm_compute. split; reflexivity. Qed.

End OnExample64.

Section OnLargeFilm.
#[local] Existing Instance Binary64Ops.
#[local] Existing Instance Example64.math64.
#[local] Existing Instance Example64.lcg.
#[local] Existing Instance Example64.wide_log.
Import Example64.
Local Open Scope fl_scope.

(** C3 as stated fails.  On a film of 46341 x 46341 pixels in [Image] mode
    the run completes with 4 samples, but the [int] product [W * H] is
    2147488281, beyond [2^31 - 1]: the film is not rescaled by
    [W * H / processed], the factor being undefined. *)
Lemma render_overflows_on_large_film :
  fst (require_renderable (plane_scene f1)) = Ok tt
  /\ run (sequential 4) _
       (Renderer_PT.process (plane_scene f1) 8 (Some 7%Z) MIS Image
          (film_size (film_clear [])))
       (Some (film_clear [], ∅))
     = (4%Z, Some (ExampleTasks.image_film, ExampleTasks.image_rngs))
  /\ (size_w (film_size (film_clear [])) * size_h (film_size (film_clear []))
      = 2147488281)%Z
  /\ fst (Renderer_PT.render (plane_scene f1) 8 (Some 7%Z) MIS Image (sequential 4)
            [] ∅ (plane_scene f1))
       = Ok None
  /\ fst (Renderer_PT.render (plane_scene f1) 8 (Some 7%Z) MIS Image (sequential 4)
            [] ∅ (plane_scene f1))
       <> Ok (Some (film_rescale ExampleTasks.image_film
                      (of_int (46341 * 46341) / of_int 4),
                    ExampleTasks.image_rngs)).
Proof.
  assert (Hrender : fst (Renderer_PT.render (plane_scene f1) 8 (Some 7%Z) MIS Image
                           (sequential 4) [] ∅ (plane_scene f1)) = Ok None)
    by (vm_compute; reflexivity).
  split; [vm_compute; reflexivity|]. split; [vm_compute; reflexivity|].
  split; [reflexivity|]. split; [exact Hrender|].
  rewrite Hrender. intros Heq. discriminate Heq.
Qed.
End OnLargeFilm.

Section OnExampleReal.
#[local] Existing Instance RealOps.
#[local] Existing Instance ExampleReal.mathR.
#[local] Existing Instance ExampleReal.fixed_rng.
Import ExampleReal.
Local Open Scope R_scope.


End OnExampleReal.

Section OnExampleWall.
#[local] Existing Instance RealOps.
#[local] Existing Instance ExampleReal.mathR.
#[local] Existing Instance ExampleReal.fixed_rng.
Import ExampleReal ExampleWall.
Local Open Scope R_scope.

(** The wall's query is geometric for the points of the plane. *)
Lemma wall_geometric (x0 : R) : geometric (wall_scene x0) (on_wall x0).
Proof.
  intros o d tmin tmax. unfold wall_scene, on_wall, point_on. cbn [intersect].
  unfold wall_hit. cbn [ray_o ray_d].
  destruct o as [ox oy oz], d as [dx dy dz]. cbn [vx vadd vscale].
  change (@fadd RealOps) with Rplus. change (@fmul RealOps) with Rmult.
  destruct (Reqb dx 0) eqn:Hdx.
  - apply Reqb_true in Hdx. subst dx.
    destruct (Reqb ox x0) eqn:Hox; cbn [andb].
    + apply Reqb_true in Hox. subst x0.
      destruct (Rltb tmax tmin) eqn:Hlt; cbn [negb].
      * apply Rltb_true in Hlt. split; [intros [x Hx]; discriminate Hx|].
        intros (t & Ht & _). lra.
      * apply Rltb_false in Hlt. split; [|eauto].
        intros _. exists tmin. split; [lra|]. cbn. change Float with R. ring.
    + split; [intros [x Hx]; discriminate Hx|].
      intros (t & _ & Ht). cbn in Ht.
      assert (Hne : Reqb ox x0 = true); [|rewrite Hne in Hox; discriminate].
      apply Reqb_true. change Float with R in *. lra.
  - assert (Hd0 : dx <> 0).
    { intros Hz. apply Reqb_true in Hz. rewrite Hz in Hdx. discriminate. }
    destruct (Rltb ((x0 - ox) / dx) tmin) eqn:Hlo; cbn [orb].
    + apply Rltb_true in Hlo. split; [intros [x Hx]; discriminate Hx|].
      intros (t & Ht & Hs). cbn in Hs. change Float with R in *.
      assert (t = (x0 - ox) / dx) by (field_simplify_eq; [lra|exact Hd0]). lra.
    + apply Rltb_false in Hlo.
      destruct (Rltb tmax ((x0 - ox) / dx)) eqn:Hhi.
      * apply Rltb_true in Hhi. split; [intros [x Hx]; discriminate Hx|].
        intros (t & Ht & Hs). cbn in Hs. change Float with R in *.
        assert (t = (x0 - ox) / dx) by (field_simplify_eq; [lra|exact Hd0]). lra.
      * apply Rltb_false in Hhi. split; [|eauto].
        intros _. exists ((x0 - ox) / dx). split; [lra|]. cbn.
        change Float with R. field. exact Hd0.
Qed.

(** The wall [x = 1/2] between the points [x = 0] and [x = 1]. *)
Lemma unit_length_forward :
  R_sqrt.sqrt ((1 - 0) * (1 - 0) + (0 - 0) * (0 - 0) + (0 - 0) * (0 - 0)) = 1.
Proof. replace ((1 - 0) * (1 - 0) + (0 - 0) * (0 - 0) + (0 - 0) * (0 - 0)) with 1 by ring. apply sqrt_1. Qed.

Lemma unit_length_backward :
  R_sqrt.sqrt ((0 - 1) * (0 - 1) + (0 - 0) * (0 - 0) + (0 - 0) * (0 - 0)) = 1.
Proof. replace ((0 - 1) * (0 - 1) + (0 - 0) * (0 - 0) + (0 - 0) * (0 - 0)) with 1 by ring. apply sqrt_1. Qed.

Lemma unit_distance : distance (pg_p (geom (at_x 0))) (pg_p (geom (at_x 1))) = 1.
Proof. exact unit_length_forward. Qed.

Lemma wall_clear_of_endpoints (t : R) :
  0 < t < distance (pg_p (geom (at_x 0))) (pg_p (geom (at_x 1))) ->
  t < Rmax Eps (distance (pg_p (geom (at_x 0))) (pg_p (geom (at_x 1))) * Eps)
  \/ distance (pg_p (geom (at_x 0))) (pg_p (geom (at_x 1))) - t
       < Rmax Eps (distance (pg_p (geom (at_x 0))) (pg_p (geom (at_x 1))) * Eps) ->
  ~ on_wall (1 / 2)
      (point_on (pg_p (geom (at_x 0)))
         (normalize (vsub (pg_p (geom (at_x 1))) (pg_p (geom (at_x 0))))) t).
Proof.
  rewrite unit_distance. unfold normalize, point_on, on_wall, length3, dot. cbn.
  change (@fsqrt RealOps) with R_sqrt.sqrt. rewrite unit_length_forward.
  replace (1 * (1 / 10000)) with (1 / 10000) by lra.
  rewrite Rmax_left by lra.
  intros Ht [Hnear|Hnear] Hon; change Float with R in *; lra.
Qed.

Lemma wall_blocks_both_ways :
  visible (wall_scene (1 / 2)) (at_x 0) (at_x 1) = false
  /\ visible (wall_scene (1 / 2)) (at_x 1) (at_x 0) = false.
Proof.
  assert (Hgeo := wall_geometric (1 / 2)).
  split.
  - rewrite (visible_finite _ (at_x 0) (at_x 1) eq_refl eq_refl).
    apply negb_false_iff, bool_decide_eq_true_2, Hgeo.
    rewrite unit_distance. exists (1 / 2). split; [cbn; lra|].
    unfold on_wall, point_on, normalize, length3, dot. cbn.
    change (@fsqrt RealOps) with R_sqrt.sqrt. rewrite unit_length_forward.
    change Float with R. lra.
  - rewrite (visible_finite _ (at_x 1) (at_x 0) eq_refl eq_refl).
    apply negb_false_iff, bool_decide_eq_true_2, Hgeo.
    rewrite (distance_sym (pg_p (geom (at_x 1)))), unit_distance.
    exists (1 / 2). split; [cbn; lra|].
    unfold on_wall, point_on, normalize, length3, dot. cbn.
    change (@fsqrt RealOps) with R_sqrt.sqrt. rewrite unit_length_backward.
    change Float with R. lra.
Qed.

End OnExampleWall.

(* ===================================================================== *)
(** ** Further properties of the modelled code *)
(* ===================================================================== *)

(** *** Conversions to [int] and container reads *)
Section IntConversions.

Lemma to_int_small (z : Z) : (- 2 ^ 31 <= z < 2 ^ 31)%Z -> to_int z = z.
Proof. intros Hz. unfold to_int. rewrite Z.mod_small; lia. Qed.

Lemma pixel_of_index (w h index : Z) :
  (0 < w)%Z -> (0 < h)%Z -> (w * h < 2 ^ 31)%Z -> (0 <= index < w * h)%Z ->
  to_int (Z.rem index w) = (index mod w)%Z /\
  to_int (Z.quot index w) = (index / w)%Z /\
  (0 <= index mod w < w)%Z /\ (0 <= index / w < h)%Z.
Proof.
  intros Hw Hh Hwh Hi.
  rewrite Z.rem_mod_nonneg, Z.quot_div_nonneg by lia.
  pose proof (Z.mod_pos_bound index w Hw) as Hm.
  assert (Hd : (0 <= index / w < h)%Z).
  { split; [apply Z.div_pos; lia|]. apply Z.div_lt_upper_bound; lia. }
  assert (w <= w * h)%Z by nia.
  assert (h <= w * h)%Z by nia.
  destruct Hm as [Hm0 Hm1]. destruct Hd as [Hd0 Hd1].
  rewrite (to_int_small (index mod w)), (to_int_small (index / w)) by lia.
  repeat split; assumption || reflexivity.
Qed.

Lemma elem_Some_inv {A : Type} (l : list A) (i : Z) (x : A) :
  elem l i = Some x -> (0 <= i)%Z /\ l !! Z.to_nat i = Some x.
Proof.
  unfold elem. destruct (Z.leb_spec 0 i); [|discriminate]. intros Hx. split; [lia|exact Hx].
Qed.

Lemma elem_in_range {A : Type} (l : list A) (i : Z) :
  (0 <= i < Z.of_nat (length l))%Z -> is_Some (elem l i).
Proof.
  intros [Hlo Hhi]. unfold elem. destruct (Z.leb_spec 0 i); [|lia].
  apply lookup_lt_is_Some. lia.
Qed.

Lemma elem_app_l {A : Type} (l l' : list A) (i : Z) (x : A) :
  elem l i = Some x -> elem (l ++ l') i = Some x.
Proof.
  unfold elem. destruct (0 <=? i)%Z; [|discriminate].
  intros Hx. rewrite lookup_app_l; [exact Hx|]. eapply lookup_lt_Some; exact Hx.
Qed.

End IntConversions.

(** *** model::wavefrontobj: assets, names and groups *)

Section ModelProperties.
Context `{FloatOps} `{!MathLib} `{!Framework}.
Import Model_WavefrontObj Model_WavefrontObj_Mesh.



Lemma register_length key c st :
  length (assets_ (register key c st)) = S (length (assets_ st)).
Proof. unfold register; cbn. rewrite length_app; cbn. lia. Qed.

Lemma index_ok_register key c st i : index_ok st i -> index_ok (register key c st) i.
Proof. unfold index_ok. rewrite register_length. lia. Qed.

Lemma register_keeps_indices key c st :
  indices_valid st -> indices_valid (register key c st).
Proof.
  intros Hv k i Hk. unfold register in Hk; cbn in Hk.
  destruct (decide (key = k)) as [->|Hne].
  - rewrite lookup_insert_eq in Hk. injection Hk as <-.
    unfold index_ok. rewrite register_length. lia.
  - rewrite lookup_insert_ne in Hk by exact Hne.
    apply index_ok_register. exact (Hv k i Hk).
Qed.

Lemma load_texture_keeps_indices prop path m st loc st1 :
  indices_valid st -> load_texture prop path m st = Some (loc, st1) ->
  indices_valid st1 /\ (length (assets_ st) <= length (assets_ st1))%nat.
Proof.
  intros Hv. unfold load_texture.
  case_bool_decide; [intros [= <- <-]; split; [exact Hv|lia]|].
  destruct (assets_map_ st !! _) as [i|]; [intros [= <- <-]; split; [exact Hv|lia]|].
  destruct (create _ _ _) as [tex|]; [|discriminate].
  intros [= <- <-]. split; [apply register_keeps_indices; exact Hv|].
  rewrite register_length. lia.
Qed.

(** X1. The material callback keeps every registered name pointing at an asset:
    it only appends to [assets_]. *)
Theorem process_material_keeps_indices (prop : Json) (path : string)
  (m : MTLMatParams) (st : Model) :
  indices_valid st ->
  indices_valid (snd (process_material prop path m st))
  /\ (length (assets_ st) <= length (assets_ (snd (process_material prop path m st))))%nat.
Proof.
  intros Hv. unfold process_material.
  destruct (json_find prop "base_material") as [it|].
  - destruct (create "material::proxy" _ _) as [mat|]; unfold snd; [|split; [exact Hv|lia]].
    split; [apply register_keeps_indices; exact Hv|rewrite register_length; lia].
  - destruct (load_texture prop path m st) as [[loc st1]|] eqn:Ht; unfold snd;
      [|split; [exact Hv|lia]].
    destruct (load_texture_keeps_indices _ _ _ _ _ _ Hv Ht) as [Hv1 Hlen].
    destruct (load_material prop m loc) as [mat|]; [|split; [exact Hv1|exact Hlen]].
    split; [apply register_keeps_indices; exact Hv1|rewrite register_length; lia].
Qed.

(** X2. A texture is created once: when the texture stage has succeeded, running
    it again for any material with the same texture file creates nothing and
    gives the same locator. *)
Theorem texture_loaded_once (prop : Json) (path : string) (m m' : MTLMatParams)
  (st st1 : Model) (loc : string) :
  load_texture prop path m st = Some (loc, st1) ->
  mapKd m' = mapKd m ->
  load_texture prop path m' st1 = Some (loc, st1).
Proof.
  unfold load_texture. intros Ht ->.
  case_bool_decide as He; [injection Ht as <- <-; reflexivity|].
  destruct (assets_map_ st !! _) as [i|] eqn:Hi.
  - injection Ht as <- <-. rewrite Hi. reflexivity.
  - destruct (create _ _ _) as [tex|]; [|discriminate].
    injection Ht as <- <-. unfold register at 1; cbn.
    rewrite lookup_insert_eq. reflexivity.
Qed.

Lemma underlying_register_eq key c st :
  underlying (register key c st) key = Found c.
Proof.
  unfold underlying, register; cbn. rewrite lookup_insert_eq.
  unfold elem. destruct (Z.leb_spec 0 (Z.of_nat (length (assets_ st)))); [|lia].
  rewrite Nat2Z.id, list_lookup_middle by reflexivity. reflexivity.
Qed.

Lemma underlying_register_ne key k c x st :
  key <> k -> underlying st key = Found c -> underlying (register k x st) key = Found c.
Proof.
  intros Hne. unfold underlying, register; cbn.
  rewrite lookup_insert_ne by congruence.
  destruct (assets_map_ st !! key) as [i|]; [|discriminate].
  destruct (elem (assets_ st) i) as [c'|] eqn:He; [|discriminate].
  intros [= <-]. rewrite (elem_app_l _ _ _ _ He). reflexivity.
Qed.

(** The texture stage only appends to [assets_]. *)
Lemma load_texture_extends prop path m st loc st1 :
  load_texture prop path m st = Some (loc, st1) ->
  exists l, assets_ st1 = assets_ st ++ l.
Proof.
  unfold load_texture.
  case_bool_decide; [intros [= <- <-]; exists []; rewrite app_nil_r; reflexivity|].
  destruct (assets_map_ st !! _) as [i|];
    [intros [= <- <-]; exists []; rewrite app_nil_r; reflexivity|].
  destruct (create _ _ _) as [tex|]; [|discriminate].
  intros [= <- <-]. exists [tex]. reflexivity.
Qed.

(** Registering under a name makes the name point at the asset appended
    last, whatever it pointed at before; the assets before stay in place. *)
Lemma register_overrides key c st st1 l :
  assets_ st1 = assets_ st ++ l ->
  last (assets_ (register key c st1)) = Some c
  /\ assets_map_ (register key c st1) !! key
       = Some (Z.of_nat (length (assets_ (register key c st1))) - 1)%Z
  /\ (length (assets_ st) < length (assets_ (register key c st1)))%nat
  /\ (forall i, index_ok st i ->
        assets_map_ (register key c st1) !! key <> Some i
        /\ assets_ (register key c st1) !! Z.to_nat i = assets_ st !! Z.to_nat i).
Proof.
  intros Hl. rewrite register_length. unfold register; cbn.
  rewrite last_snoc, lookup_insert_eq, Hl, length_app.
  split; [reflexivity|]. split; [f_equal; lia|]. split; [lia|].
  intros i [Hlo Hhi]. split.
  - intros [= Hi]. rewrite ?length_app in Hi. lia.
  - rewrite <- app_assoc. apply lookup_app_l. lia.
Qed.

(** X3. Lookup after the material callback: the name of the material resolves to
    the asset the factory has just returned (the proxy with a [base_material],
    else the result of "Load material"), which is the last of [assets_]; a
    registration of the name from before is overridden, its asset staying in
    place; and any other name that resolved keeps its asset (the texture
    identifier aside, which the callback may register). *)
Theorem underlying_after_process_material (prop : Json) (path : string)
  (m : MTLMatParams) (st st' : Model) :
  process_material prop path m st = (true, st') ->
  (exists mat,
     match json_find prop "base_material" with
     | Some it =>
         create "material::proxy" (make_loc (name m)) [("ref", PJson it)] = Some mat
     | None =>
         exists loc st1, load_texture prop path m st = Some (loc, st1)
                         /\ load_material prop m loc = Some mat
     end
     /\ underlying st' (name m) = Found mat
     /\ created_material prop path m st = Some mat
     /\ last (assets_ st') = Some mat
     /\ assets_map_ st' !! name m = Some (Z.of_nat (length (assets_ st')) - 1)%Z
     /\ (length (assets_ st) < length (assets_ st'))%nat
     /\ (forall i, assets_map_ st !! name m = Some i -> index_ok st i ->
           assets_map_ st' !! name m <> Some i
           /\ assets_ st' !! Z.to_nat i = assets_ st !! Z.to_nat i))
  /\ (forall key c,
        key <> name m ->
        key <> "texture_" +:+ path_stem (mapKd m) ->
        underlying st key = Found c ->
        underlying st' key = Found c).
Proof.
  intros Hp. split.
  - unfold created_material. rewrite Hp.
    revert Hp. unfold process_material.
    destruct (json_find prop "base_material") as [it|].
    + destruct (create "material::proxy" _ _) as [mat|]; [|discriminate].
      intros [= <-]. exists mat.
      destruct (register_overrides (name m) mat st st [] (eq_sym (app_nil_r _)))
        as (Hlast & Hidx & Hlen & Hover).
      split; [reflexivity|]. split; [apply underlying_register_eq|].
      split; [apply registered_lookup|]. split; [exact Hlast|]. split; [exact Hidx|].
      split; [exact Hlen|]. intros i _ Hi. exact (Hover i Hi).
    + destruct (load_texture prop path m st) as [[loc st1]|] eqn:Hl; [|discriminate].
      destruct (load_material prop m loc) as [mat|] eqn:Hm; [|discriminate].
      intros [= <-]. exists mat.
      destruct (load_texture_extends _ _ _ _ _ _ Hl) as [l Hext].
      destruct (register_overrides (name m) mat st st1 l Hext)
        as (Hlast & Hidx & Hlen & Hover).
      split; [exists loc, st1; split; [reflexivity|exact Hm]|].
      split; [apply underlying_register_eq|].
      split; [apply registered_lookup|]. split; [exact Hlast|]. split; [exact Hidx|].
      split; [exact Hlen|]. intros i _ Hi. exact (Hover i Hi).
  - intros key c Hn Ht Hu. revert Hp. unfold process_material.
    destruct (json_find prop "base_material") as [it|].
    + destruct (create "material::proxy" _ _) as [mat|]; [|discriminate].
      intros [= <-]. apply underlying_register_ne; assumption.
    + destruct (load_texture prop path m st) as [[loc st1]|] eqn:Hl; [|discriminate].
      destruct (load_material prop m loc) as [mat|]; [|discriminate].
      intros [= <-]. apply underlying_register_ne; [assumption|].
      revert Hl. unfold load_texture.
      case_bool_decide; [intros [= <- <-]; exact Hu|].
      destruct (assets_map_ st !! _); [intros [= <- <-]; exact Hu|].
      destruct (create _ _ _) as [tex|]; [|discriminate].
      intros [= <- <-]. apply underlying_register_ne; assumption.
Qed.
(** X4. With valid indices a lookup never reads outside [assets_]: it finds the
    asset of a registered name and throws for any other. *)
Theorem underlying_in_range (st : Model) (key : string) :
  indices_valid st ->
  (assets_map_ st !! key = None -> underlying st key = OutOfRange)
  /\ (forall i, assets_map_ st !! key = Some i ->
        exists c, underlying st key = Found c /\ assets_ st !! Z.to_nat i = Some c).
Proof.
  intros Hv. unfold underlying. split.
  - intros ->. reflexivity.
  - intros i Hi. rewrite Hi.
    destruct (elem_in_range (assets_ st) i (Hv key i Hi)) as [c Hc].
    rewrite Hc. exists c. split; [reflexivity|].
    unfold elem in Hc. destruct (0 <=? i)%Z; [exact Hc|discriminate].
Qed.

Lemma string_length_app (s t : string) :
  String.length (s +:+ t) = (String.length s + String.length t)%nat.
Proof. induction s as [|a s IH]; [reflexivity|]. simpl. f_equal. exact IH. Qed.

Lemma light_name_fresh (s : string) : s +:+ "_light" <> s.
Proof.
  intros Heq. apply (f_equal String.length) in Heq.
  rewrite string_length_app in Heq. cbn in Heq. lia.
Qed.

Lemma index_or_insert_valid key st :
  indices_valid st -> (0 < length (assets_ st))%nat ->
  index_ok st (fst (index_or_insert key st))
  /\ indices_valid (snd (index_or_insert key st))
  /\ assets_ (snd (index_or_insert key st)) = assets_ st.
Proof.
  intros Hv Hpos. unfold index_or_insert.
  destruct (assets_map_ st !! key) as [i|] eqn:Hi; cbn.
  - split; [exact (Hv key i Hi)|]. split; [exact Hv|reflexivity].
  - split; [unfold index_ok; lia|]. split; [|reflexivity].
    intros k i Hk; cbn in Hk. destruct (decide (key = k)) as [->|Hne].
    + rewrite lookup_insert_eq in Hk. injection Hk as <-. unfold index_ok; cbn. lia.
    + rewrite lookup_insert_ne in Hk by exact Hne. exact (Hv k i Hk).
Qed.

Lemma index_or_insert_found key st i :
  assets_map_ st !! key = Some i -> index_or_insert key st = (i, st).
Proof. unfold index_or_insert. intros ->. reflexivity. Qed.

Lemma group_valid_mono st st' g :
  (length (assets_ st) <= length (assets_ st'))%nat ->
  group_valid st g -> group_valid st' g.
Proof.
  unfold group_valid, index_ok. intros Hlen (Hm & Hmat & Hl).
  repeat split; lia.
Qed.

Variable create_mesh : string -> Json -> OBJMeshFace -> option Component.

(** The mesh callback keeps the model well formed: names index assets and
    groups refer to assets.  When it succeeds it appends one group, whose
    mesh is the asset it created first and whose light is absent exactly
    when [Ke] has no positive component. *)
Lemma process_mesh_keeps_groups (prop : Json) (fs : OBJMeshFace) (m : MTLMatParams)
  (s : ModelState) :
  state_valid s ->
  let mesh_name := "mesh_" +:+ pretty (length (assets_ (model s))) in
  let r := process_mesh create_mesh prop fs m s in
  state_valid (snd r)
  /\ (fst r = true ->
      exists g,
        groups_ (snd r) = groups_ s ++ [g]
        /\ g_mesh g = Z.of_nat (length (assets_ (model s)))
        /\ (g_light g = (-1)%Z <-> (compMax (Ke m) >? f0)%fl = false)
        /\ (g_light g <> (-1)%Z -> g_light g = Z.of_nat (S (length (assets_ (model s)))))
        /\ (forall i, assets_map_ (model s) !! name m = Some i ->
                      name m <> mesh_name -> name m <> mesh_name +:+ "_light" ->
                      g_material g = i)).
Proof.
  intros [Hv Hg] mesh_name r. subst r. unfold process_mesh. fold mesh_name.
  destruct (create_mesh (make_loc mesh_name) prop fs) as [mesh|]; cbn [fst snd];
    [|split; [split; assumption|discriminate]].
  set (st1 := register mesh_name mesh (model s)).
  assert (Hv1 : indices_valid st1) by (apply register_keeps_indices; exact Hv).
  assert (Hl1 : length (assets_ st1) = S (length (assets_ (model s))))
    by apply register_length.
  assert (Hg1 : Forall (group_valid st1) (groups_ s)).
  { eapply Forall_impl; [exact Hg|]. intros g. apply group_valid_mono. lia. }
  assert (Hm1 : assets_map_ st1 !! mesh_name = Some (Z.of_nat (length (assets_ (model s)))))
    by (unfold st1, register; cbn; apply lookup_insert_eq).
  destruct (compMax (Ke m) >? f0)%fl eqn:Hke.
  - (* a light is requested *)
    destruct (create _ (make_loc (mesh_name +:+ "_light")) _) as [light|]; cbn [fst snd];
      [|split; [split; assumption|discriminate]].
    set (st2 := register (mesh_name +:+ "_light") light st1).
    assert (Hv2 : indices_valid st2) by (apply register_keeps_indices; exact Hv1).
    assert (Hl2 : length (assets_ st2) = S (length (assets_ st1))) by apply register_length.
    assert (Hm2 : assets_map_ st2 !! mesh_name
                  = Some (Z.of_nat (length (assets_ (model s))))).
    { unfold st2, register; cbn. rewrite lookup_insert_ne by apply light_name_fresh.
      exact Hm1. }
    rewrite (index_or_insert_found mesh_name st2 _ Hm2).
    destruct (index_or_insert_valid (name m) st2 Hv2 ltac:(lia)) as (Hi & Hv4 & Ha4).
    destruct (index_or_insert (name m) st2) as [mi st4] eqn:Hio; cbn [fst snd] in *.
    split.
    + split; cbn [model groups_]; [exact Hv4|].
      apply Forall_app. split.
      * eapply Forall_impl; [exact Hg1|]. intros g. apply group_valid_mono.
        rewrite Ha4. lia.
      * apply Forall_singleton. unfold group_valid, index_ok in *; cbn.
        rewrite Ha4, ?length_app. cbn [length]. repeat split; lia.
    + intros _. eexists. split; [reflexivity|]. cbn. split; [reflexivity|].
      rewrite ?length_app; cbn [length].
      split; [split; [lia|discriminate]|]. split; [intros _; lia|].
      intros i Hi0 Hn1 Hn2.
      unfold index_or_insert in Hio.
      assert (Hk : assets_map_ st2 !! name m = Some i).
      { unfold st2, st1, register; cbn.
        rewrite lookup_insert_ne by congruence. rewrite lookup_insert_ne by congruence.
        exact Hi0. }
      rewrite Hk in Hio. injection Hio as <- _. reflexivity.
  - (* no light *)
    cbn [fst snd]. rewrite (index_or_insert_found mesh_name st1 _ Hm1).
    destruct (index_or_insert_valid (name m) st1 Hv1 ltac:(lia)) as (Hi & Hv4 & Ha4).
    destruct (index_or_insert (name m) st1) as [mi st4] eqn:Hio; cbn [fst snd] in *.
    split.
    + split; cbn [model groups_]; [exact Hv4|].
      apply Forall_app. split.
      * eapply Forall_impl; [exact Hg1|]. intros g. apply group_valid_mono.
        rewrite Ha4. lia.
      * apply Forall_singleton. unfold group_valid, index_ok in *; cbn.
        rewrite Ha4, ?length_app. cbn [length]. repeat split; lia.
    + intros _. eexists. split; [reflexivity|]. cbn. split; [reflexivity|].
      split; [split; reflexivity|]. split; [intros Hc; contradiction|].
      intros i Hi0 Hn1 Hn2.
      unfold index_or_insert in Hio.
      assert (Hk : assets_map_ st1 !! name m = Some i).
      { unfold st1, register; cbn. rewrite lookup_insert_ne by congruence. exact Hi0. }
      rewrite Hk in Hio. injection Hio as <- _. reflexivity.
Qed.

(** [operator[]] yields the registered index, or 0, and leaves the key
    registered with it. *)
Lemma index_or_insert_default key st :
  fst (index_or_insert key st) = default 0%Z (assets_map_ st !! key)
  /\ assets_map_ (snd (index_or_insert key st)) !! key
       = Some (default 0%Z (assets_map_ st !! key)).
Proof.
  unfold index_or_insert. destruct (assets_map_ st !! key) as [i|] eqn:Hi; cbn.
  - split; [reflexivity|exact Hi].
  - split; [reflexivity|apply lookup_insert_eq].
Qed.

(** The material index of the group the mesh callback appends is what
    [assets_map_[m.name]] yields once the mesh and the light are registered. *)
Lemma process_mesh_material (prop : Json) (fs : OBJMeshFace) (m : MTLMatParams)
  (s : ModelState) :
  let mesh_name := "mesh_" +:+ pretty (length (assets_ (model s))) in
  let r := process_mesh create_mesh prop fs m s in
  fst r = true ->
  exists g,
    groups_ (snd r) = groups_ s ++ [g]
    /\ g_material g =
         (if bool_decide (name m = mesh_name)
          then Z.of_nat (length (assets_ (model s)))
          else if bool_decide (name m = mesh_name +:+ "_light") && (compMax (Ke m) >? f0)%fl
          then Z.of_nat (S (length (assets_ (model s))))
          else default 0%Z (assets_map_ (model s) !! name m))
    /\ assets_map_ (model (snd r)) !! name m = Some (g_material g).
Proof.
  intros mesh_name r. subst r. unfold process_mesh. fold mesh_name.
  destruct (create_mesh (make_loc mesh_name) prop fs) as [mesh|]; cbn [fst snd];
    [|discriminate].
  set (st1 := register mesh_name mesh (model s)).
  assert (Hl1 : length (assets_ st1) = S (length (assets_ (model s))))
    by apply register_length.
  assert (Hm1 : assets_map_ st1 !! mesh_name = Some (Z.of_nat (length (assets_ (model s)))))
    by (unfold st1, register; cbn; apply lookup_insert_eq).
  destruct (compMax (Ke m) >? f0)%fl eqn:Hke.
  - destruct (create _ (make_loc (mesh_name +:+ "_light")) _) as [light|]; cbn [fst snd];
      [|discriminate].
    set (st2 := register (mesh_name +:+ "_light") light st1).
    assert (Hm2 : assets_map_ st2 !! mesh_name
                  = Some (Z.of_nat (length (assets_ (model s))))).
    { unfold st2, register; cbn. rewrite lookup_insert_ne by apply light_name_fresh.
      exact Hm1. }
    rewrite (index_or_insert_found mesh_name st2 _ Hm2).
    destruct (index_or_insert_default (name m) st2) as [Hfst Hsnd].
    destruct (index_or_insert (name m) st2) as [mi st4]; cbn [fst snd] in *.
    intros _. eexists. split; [reflexivity|]. cbn [g_material model].
    split; [|rewrite Hfst; exact Hsnd]. rewrite Hfst. rewrite andb_true_r.
    case_bool_decide as Hn1.
    + rewrite Hn1, Hm2. reflexivity.
    + case_bool_decide as Hn2.
      * rewrite Hn2. unfold st2, register; cbn. rewrite lookup_insert_eq. cbn.
        rewrite length_app. cbn. f_equal. lia.
      * unfold st2, st1, register; cbn.
        rewrite lookup_insert_ne by congruence. rewrite lookup_insert_ne by congruence.
        reflexivity.
  - cbn [fst snd]. rewrite (index_or_insert_found mesh_name st1 _ Hm1).
    destruct (index_or_insert_default (name m) st1) as [Hfst Hsnd].
    destruct (index_or_insert (name m) st1) as [mi st4]; cbn [fst snd] in *.
    intros _. eexists. split; [reflexivity|]. cbn [g_material model].
    split; [|rewrite Hfst; exact Hsnd]. rewrite Hfst. rewrite andb_false_r.
    case_bool_decide as Hn1.
    + rewrite Hn1, Hm1. reflexivity.
    + unfold st1, register; cbn. rewrite lookup_insert_ne by congruence. reflexivity.
Qed.

(** X5. The mesh callback keeps the model well formed: names index assets and
    groups refer to assets.  When it succeeds it appends one group: its mesh
    is the asset created first; its light is absent exactly when [Ke] has no
    positive component and is the next asset otherwise; its material is what
    [assets_map_[m.name]] yields after these registrations, that is the mesh
    or the light when the material carries their name, else the index
    registered for the name, and 0 when the name is not registered, which the
    lookup then registers. *)
Theorem process_mesh_keeps_state (prop : Json) (fs : OBJMeshFace) (m : MTLMatParams)
  (s : ModelState) :
  state_valid s ->
  let mesh_name := "mesh_" +:+ pretty (length (assets_ (model s))) in
  let r := process_mesh create_mesh prop fs m s in
  state_valid (snd r)
  /\ (fst r = true ->
      exists g,
        groups_ (snd r) = groups_ s ++ [g]
        /\ g_mesh g = Z.of_nat (length (assets_ (model s)))
        /\ (g_light g = (-1)%Z <-> (compMax (Ke m) >? f0)%fl = false)
        /\ (g_light g <> (-1)%Z -> g_light g = Z.of_nat (S (length (assets_ (model s)))))
        /\ (forall i, assets_map_ (model s) !! name m = Some i ->
                      name m <> mesh_name -> name m <> mesh_name +:+ "_light" ->
                      g_material g = i)
        /\ g_material g =
             (if bool_decide (name m = mesh_name)
              then g_mesh g
              else if bool_decide (name m = mesh_name +:+ "_light")
                      && (compMax (Ke m) >? f0)%fl
              then g_light g
              else default 0%Z (assets_map_ (model s) !! name m))
        /\ assets_map_ (model (snd r)) !! name m = Some (g_material g)).
Proof.
  intros Hs mesh_name r.
  destruct (process_mesh_keeps_groups prop fs m s Hs) as [Hv Hg].
  fold mesh_name in Hg. fold r in Hv, Hg.
  split; [exact Hv|]. intros Hr.
  destruct (Hg Hr) as (g & Hgs & Hgm & Hgl & Hgl' & Hmat).
  destruct (process_mesh_material prop fs m s Hr) as (g' & Hgs' & Hmat' & Hreg).
  fold r in Hgs', Hreg. fold mesh_name in Hmat'.
  assert (g' = g).
  { rewrite Hgs in Hgs'. apply app_inj_tail in Hgs'. destruct Hgs' as [_ Hgg]. congruence. }
  subst g'. exists g.
  split; [exact Hgs|]. split; [exact Hgm|]. split; [exact Hgl|]. split; [exact Hgl'|].
  split; [exact Hmat|]. split; [|exact Hreg].
  rewrite Hmat', Hgm. destruct (bool_decide (name m = mesh_name)); [reflexivity|].
  destruct (bool_decide (name m = mesh_name +:+ "_light")); cbn [andb]; [|reflexivity].
  destruct (compMax (Ke m) >? f0)%fl eqn:Hke; [|reflexivity].
  symmetry. apply Hgl'. intros Hneg. apply Hgl in Hneg. discriminate.
Qed.
Lemma create_primitives_from_valid st gs calls :
  Forall (group_valid st) gs ->
  exists cs,
    create_primitives_from st gs calls = (calls ++ cs, false)
    /\ Forall2 (fun g c =>
                  elem (assets_ st) (g_mesh g) = Some (fst (fst c))
                  /\ elem (assets_ st) (g_material g) = Some (snd (fst c))
                  /\ snd c = (if (g_light g <? 0)%Z then None
                              else elem (assets_ st) (g_light g))) gs cs.
Proof.
  intros Hg. revert calls. induction Hg as [|g gs Hgv Hrest IH]; intros calls.
  - exists []. cbn. rewrite app_nil_r. split; [reflexivity|constructor].
  - destruct Hgv as (Hm & Hmat & Hl). cbn.
    destruct (elem_in_range _ _ Hm) as [cm Hcm]. destruct (elem_in_range _ _ Hmat) as [cmat Hcmat].
    rewrite Hcm, Hcmat.
    destruct (Z.ltb_spec (g_light g) 0) as [Hneg|Hpos].
    + destruct (IH (calls ++ [(cm, cmat, None)])) as (cs & Hcs & HF).
      exists ((cm, cmat, None) :: cs). rewrite Hcs, <- app_assoc. split; [reflexivity|].
      constructor; [|exact HF]. cbn. destruct (Z.ltb_spec (g_light g) 0); [|lia].
      repeat split; assumption.
    + destruct Hl as [Hl|Hl]; [lia|].
      destruct (elem_in_range _ _ Hl) as [cl Hcl]. rewrite Hcl.
      destruct (IH (calls ++ [(cm, cmat, Some cl)])) as (cs & Hcs & HF).
      exists ((cm, cmat, Some cl) :: cs). rewrite Hcs, <- app_assoc. split; [reflexivity|].
      constructor; [|exact HF]. cbn. destruct (Z.ltb_spec (g_light g) 0); [lia|].
      repeat split; try assumption. symmetry; exact Hcl.
Qed.

(** X6. [create_primitives] on a well-formed model never throws: it calls
    [createPrimitive] once per group, in order, with the group's mesh and
    material and with a null light exactly for a negative light index. *)
Theorem create_primitives_total (s : ModelState) :
  state_valid s ->
  exists calls,
    create_primitives s = (calls, false)
    /\ length calls = length (groups_ s)
    /\ Forall2 (fun g c =>
                  elem (assets_ (model s)) (g_mesh g) = Some (fst (fst c))
                  /\ elem (assets_ (model s)) (g_material g) = Some (snd (fst c))
                  /\ snd c = (if (g_light g <? 0)%Z then None
                              else elem (assets_ (model s)) (g_light g)))
         (groups_ s) calls.
Proof.
  intros [_ Hg]. unfold create_primitives.
  destruct (create_primitives_from_valid (model s) (groups_ s) [] Hg) as (cs & Hcs & HF).
  exists cs. split; [exact Hcs|]. split; [|exact HF].
  symmetry. eapply Forall2_length; exact HF.
Qed.

End ModelProperties.

(** *** mesh::wavefrontobj *)

Section MeshProperties.
Context `{FloatOps}.
Import Model_WavefrontObj_Mesh Mesh_WavefrontObj.




Variable geo : OBJSurfaceGeometry.
Variable fs : OBJMeshFace.

Lemma corner_defined (f : OBJMeshFaceIndex) :
  face_index_ok geo f -> is_Some (corner geo f).
Proof.
  intros (Hp & Hn & Ht). unfold corner.
  destruct (elem_in_range (ps geo) (fi_p f) Hp) as [p ->]. cbn.
  destruct (Z.ltb_spec (fi_n f) 0) as [Hneg|Hpos]; cbn.
  - destruct (Z.ltb_spec (fi_t f) 0); cbn; [eexists; reflexivity|].
    destruct (elem_in_range (ts geo) (fi_t f)) as [t ->]; [lia|]. eexists; reflexivity.
  - destruct (elem_in_range (ns geo) (fi_n f)) as [n ->]; [lia|]. cbn.
    destruct (Z.ltb_spec (fi_t f) 0); cbn; [eexists; reflexivity|].
    destruct (elem_in_range (ts geo) (fi_t f)) as [t ->]; [lia|]. eexists; reflexivity.
Qed.

Lemma num_triangles_small :
  (Z.of_nat (length fs) < 2 ^ 31)%Z ->
  num_triangles fs = (Z.of_nat (length fs) / 3)%Z.
Proof.
  intros Hlen. unfold num_triangles. rewrite to_int_small by lia.
  apply Z.quot_div_nonneg; lia.
Qed.

Lemma triangle_at_defined (face : Z) :
  mesh_ok geo fs -> (0 <= face < num_triangles fs)%Z -> is_Some (triangle_at geo fs face).
Proof.
  intros [Hf Hlen] Hface. rewrite (num_triangles_small Hlen) in Hface.
  assert (Hb : (3 * face + 2 < Z.of_nat (length fs))%Z).
  { pose proof (Z.mul_div_le (Z.of_nat (length fs)) 3 ltac:(lia)). lia. }
  unfold triangle_at.
  destruct (elem_in_range fs (3 * face)) as [f1 Hf1]; [lia|].
  destruct (elem_in_range fs (3 * face + 1)) as [f2 Hf2]; [lia|].
  destruct (elem_in_range fs (3 * face + 2)) as [f3 Hf3]; [lia|].
  rewrite Hf1, Hf2, Hf3. cbn.
  rewrite Forall_lookup in Hf.
  destruct (corner_defined f1) as [c1 ->]; [eapply Hf, elem_Some_inv, Hf1|].
  destruct (corner_defined f2) as [c2 ->]; [eapply Hf, elem_Some_inv, Hf2|].
  destruct (corner_defined f3) as [c3 ->]; [eapply Hf, elem_Some_inv, Hf3|].
  eexists; reflexivity.
Qed.

Lemma foreach_triangle_from_spec (n : nat) (fi : Z) :
  (forall face, (fi <= face < fi + Z.of_nat n)%Z -> is_Some (triangle_at geo fs face)) ->
  exists l,
    foreach_triangle_from geo fs n fi = Some l
    /\ length l = n
    /\ forall (i : nat) (face : Z) (tri : Tri),
         l !! i = Some (face, tri) ->
         face = (fi + Z.of_nat i)%Z /\ triangle_at geo fs face = Some tri.
Proof.
  revert fi. induction n as [|n IH]; intros fi Hall.
  - exists []. split; [reflexivity|]. split; [reflexivity|].
    intros k face tri Hl. discriminate Hl.
  - destruct (Hall fi ltac:(lia)) as [tri Htri].
    destruct (IH (fi + 1)%Z) as (l & Hl & Hlen & Hnth); [intros face Hf; apply Hall; lia|].
    exists ((fi, tri) :: l). cbn. rewrite Htri; cbn. rewrite Hl; cbn.
    split; [reflexivity|]. split; [lia|].
    intros k face tri' Hk. destruct k as [|k]; cbn in Hk.
    + injection Hk as <- <-. split; [lia|exact Htri].
    + destruct (Hnth k face tri' Hk) as [-> Ht]. split; [lia|exact Ht].
Qed.

(** X7. On a mesh whose face indices are in range, [triangle_at] is defined for
    every face below [num_triangles], whatever the remainder of the face
    list modulo three, and [foreach_triangle] visits the faces
    [0 .. num_triangles - 1] in order, each once, with that triangle. *)
Theorem foreach_triangle_visits_all :
  mesh_ok geo fs ->
  num_triangles fs = (Z.of_nat (length fs) / 3)%Z
  /\ (forall face, (0 <= face < num_triangles fs)%Z -> is_Some (triangle_at geo fs face))
  /\ exists l,
       foreach_triangle geo fs = Some l
       /\ Z.of_nat (length l) = num_triangles fs
       /\ forall (i : nat) (face : Z) (tri : Tri),
            l !! i = Some (face, tri) ->
            face = Z.of_nat i /\ triangle_at geo fs face = Some tri.
Proof.
  intros Hok. pose proof Hok as [_ Hlen].
  split; [exact (num_triangles_small Hlen)|].
  split; [intros face; apply triangle_at_defined; exact Hok|].
  assert (Hnn : (0 <= num_triangles fs)%Z).
  { rewrite (num_triangles_small Hlen). apply Z.div_pos; lia. }
  destruct (foreach_triangle_from_spec (Z.to_nat (num_triangles fs)) 0) as (l & Hl & Hn & Hnth).
  { intros face Hf. apply triangle_at_defined; [exact Hok|lia]. }
  exists l. split; [exact Hl|]. split; [lia|].
  intros i face tri Hi. destruct (Hnth i face tri Hi) as [-> Ht]. split; [lia|exact Ht].
Qed.

Variable mix_barycentric : Vec3 -> Vec3 -> Vec3 -> Vec2 -> Vec3.
Variable mix_barycentric2 : Vec2 -> Vec2 -> Vec2 -> Vec2 -> Vec2.
Variable geometry_normal : Vec3 -> Vec3 -> Vec3 -> Vec3.

(** X8. [surface_point] looks only at the first corner to decide whether normals
    and texture coordinates exist.  Where [triangle_at] is defined and the
    other two corners have a normal (a texture coordinate) whenever the first
    has, it is defined too, and it interpolates the three positions of
    [triangle_at] and reports their geometry normal. *)
Theorem surface_point_defined (face : Z) (uv : Vec2) (tri : Tri) (f1 f2 f3 : OBJMeshFaceIndex) :
  elem fs (3 * face)%Z = Some f1 ->
  elem fs (3 * face + 1)%Z = Some f2 ->
  elem fs (3 * face + 2)%Z = Some f3 ->
  triangle_at geo fs face = Some tri ->
  ((0 <= fi_n f1)%Z -> (0 <= fi_n f2)%Z /\ (0 <= fi_n f3)%Z) ->
  ((0 <= fi_t f1)%Z -> (0 <= fi_t f2)%Z /\ (0 <= fi_t f3)%Z) ->
  exists ip,
    surface_point mix_barycentric mix_barycentric2 geometry_normal geo fs face uv = Some ip
    /\ ip_p ip = mix_barycentric (pt_p (tri_p1 tri)) (pt_p (tri_p2 tri)) (pt_p (tri_p3 tri)) uv
    /\ ip_gn ip = geometry_normal (pt_p (tri_p1 tri)) (pt_p (tri_p2 tri)) (pt_p (tri_p3 tri))
    /\ ((fi_n f1 < 0)%Z -> ip_n ip = ip_gn ip)
    /\ ((fi_t f1 < 0)%Z -> ip_t ip = v2zero).
Proof.
  intros Hf1 Hf2 Hf3 Htri Hn Ht.
  unfold triangle_at in Htri. rewrite Hf1, Hf2, Hf3 in Htri. cbn in Htri.
  unfold surface_point. rewrite Hf1, Hf2, Hf3. cbn.
  unfold corner in Htri.
  destruct (elem (ps geo) (fi_p f1)) as [p1|]; [|discriminate]. cbn in *.
  destruct (Z.ltb_spec (fi_n f1) 0) as [Hn1|Hn1]; cbn in *.
  - destruct (Z.ltb_spec (fi_t f1) 0) as [Ht1|Ht1]; cbn in *.
    + destruct (elem (ps geo) (fi_p f2)) as [p2|]; [|discriminate]. cbn in *.
      destruct (if (fi_n f2 <? 0)%Z then _ else _) as [n2|]; [|discriminate]. cbn in *.
      destruct (if (fi_t f2 <? 0)%Z then _ else _) as [t2|]; [|discriminate]. cbn in *.
      destruct (elem (ps geo) (fi_p f3)) as [p3|]; [|discriminate]. cbn in *.
      destruct (if (fi_n f3 <? 0)%Z then _ else _) as [n3|]; [|discriminate]. cbn in *.
      destruct (if (fi_t f3 <? 0)%Z then _ else _) as [t3|]; [|discriminate]. cbn in *.
      injection Htri as <-. eexists. split; [reflexivity|]. cbn. repeat split; try reflexivity; lia.
    + destruct (Ht Ht1) as [Ht2 Ht3].
      destruct (elem (ts geo) (fi_t f1)) as [t1|]; [|discriminate]. cbn in *.
      destruct (elem (ps geo) (fi_p f2)) as [p2|]; [|discriminate]. cbn in *.
      destruct (if (fi_n f2 <? 0)%Z then _ else _) as [n2|]; [|discriminate]. cbn in *.
      destruct (Z.ltb_spec (fi_t f2) 0); [lia|].
      destruct (elem (ts geo) (fi_t f2)) as [t2|]; [|discriminate]. cbn in *.
      destruct (elem (ps geo) (fi_p f3)) as [p3|]; [|discriminate]. cbn in *.
      destruct (if (fi_n f3 <? 0)%Z then _ else _) as [n3|]; [|discriminate]. cbn in *.
      destruct (Z.ltb_spec (fi_t f3) 0); [lia|].
      destruct (elem (ts geo) (fi_t f3)) as [t3|]; [|discriminate]. cbn in *.
      injection Htri as <-. eexists. split; [reflexivity|]. cbn. repeat split; try reflexivity; lia.
  - destruct (Hn Hn1) as [Hn2 Hn3].
    destruct (elem (ns geo) (fi_n f1)) as [n1|]; [|discriminate]. cbn in *.
    destruct (Z.ltb_spec (fi_t f1) 0) as [Ht1|Ht1]; cbn in *.
    + destruct (elem (ps geo) (fi_p f2)) as [p2|]; [|discriminate]. cbn in *.
      destruct (Z.ltb_spec (fi_n f2) 0); [lia|].
      destruct (elem (ns geo) (fi_n f2)) as [n2|]; [|discriminate]. cbn in *.
      destruct (if (fi_t f2 <? 0)%Z then _ else _) as [t2|]; [|discriminate]. cbn in *.
      destruct (elem (ps geo) (fi_p f3)) as [p3|]; [|discriminate]. cbn in *.
      destruct (Z.ltb_spec (fi_n f3) 0); [lia|].
      destruct (elem (ns geo) (fi_n f3)) as [n3|]; [|discriminate]. cbn in *.
      destruct (if (fi_t f3 <? 0)%Z then _ else _) as [t3|]; [|discriminate]. cbn in *.
      injection Htri as <-. eexists. split; [reflexivity|]. cbn. repeat split; try reflexivity; lia.
    + destruct (Ht Ht1) as [Ht2 Ht3].
      destruct (elem (ts geo) (fi_t f1)) as [t1|]; [|discriminate]. cbn in *.
      destruct (elem (ps geo) (fi_p f2)) as [p2|]; [|discriminate]. cbn in *.
      destruct (Z.ltb_spec (fi_n f2) 0); [lia|].
      destruct (elem (ns geo) (fi_n f2)) as [n2|]; [|discriminate]. cbn in *.
      destruct (Z.ltb_spec (fi_t f2) 0); [lia|].
      destruct (elem (ts geo) (fi_t f2)) as [t2|]; [|discriminate]. cbn in *.
      destruct (elem (ps geo) (fi_p f3)) as [p3|]; [|discriminate]. cbn in *.
      destruct (Z.ltb_spec (fi_n f3) 0); [lia|].
      destruct (elem (ns geo) (fi_n f3)) as [n3|]; [|discriminate]. cbn in *.
      destruct (Z.ltb_spec (fi_t f3) 0); [lia|].
      destruct (elem (ts geo) (fi_t f3)) as [t3|]; [|discriminate]. cbn in *.
      injection Htri as <-. eexists. split; [reflexivity|]. cbn. repeat split; try reflexivity; lia.
Qed.

End MeshProperties.

(** *** The mixture materials, in ideal arithmetic *)

Section VectorsOverR.
#[local] Existing Instance RealOps.
Local Open Scope R_scope.

Lemma fmax_R (a b : R) : @fmax RealOps a b = Rmax a b.
Proof.
  unfold fmax; cbn. unfold Rltb, Rmax.
  destruct (Rlt_dec a b), (Rle_dec a b); try reflexivity; lra.
Qed.

Lemma sscale_one (v : Vec3) : sscale 1 v = v.
Proof. destruct v as [x y z]. unfold sscale; cbn. f_equal; change Float with R; ring. Qed.

Lemma vneg_vneg (v : Vec3) : vneg (vneg v) = v.
Proof. destruct v as [x y z]. unfold vneg; cbn. f_equal; change Float with R; ring. Qed.

Lemma ratio_in_unit (a b : R) : 0 <= a -> 0 <= b -> a + b <> 0 -> 0 <= a / (a + b) <= 1.
Proof.
  intros Ha Hb Hab. assert (Hpos : 0 < a + b) by lra. split.
  - apply Rmult_le_pos; [exact Ha|]. left. apply Rinv_0_lt_compat. exact Hpos.
  - apply (Rmult_le_reg_r (a + b)); [exact Hpos|].
    unfold Rdiv. rewrite Rmult_assoc, Rinv_l by exact Hab. lra.
Qed.

End VectorsOverR.

Section MixtureSelection.
#[local] Existing Instance RealOps.
Context `{!MathLib} `{!RngOps}.
Local Open Scope R_scope.
Import Material_WavefrontObj_Mixture.

Variables diffuse glossy alpha_mask : Material.
Variable mask_tex : option Texture.

Lemma selection_weight_in_unit (geom : PointGeometry) (rd rg : Vec3) :
  m_reflectance diffuse geom = Some rd ->
  m_reflectance glossy geom = Some rg ->
  0 <= compMax rd -> 0 <= compMax rg ->
  exists wd, diffuse_selection_weight diffuse glossy geom = Some wd /\ 0 <= wd <= 1.
Proof.
  intros Hd Hg Ha Hb. unfold diffuse_selection_weight. rewrite Hd, Hg. cbn.
  eexists. split; [reflexivity|].
  destruct (Reqb (compMax rd) 0) eqn:E1; cbn.
  - destruct (Reqb (compMax rg) 0) eqn:E2; cbn; [unfold f1; cbn; lra|].
    apply Reqb_true in E1. apply ratio_in_unit; try assumption.
    intros Hz. assert (compMax rg = 0) by lra.
    unfold Reqb in E2. destruct (Req_dec_T (compMax rg) 0); [discriminate|contradiction].
  - apply ratio_in_unit; try assumption.
    intros Hz. assert (Hc : compMax rd = 0) by lra.
    unfold Reqb in E1. destruct (Req_dec_T (compMax rd) 0); [discriminate|contradiction].
Qed.

(** X9. The component selection of the mixture is a probability distribution:
    when the largest components of the two reflectances are not negative and
    the alpha of the texture lies in [0, 1], the three selection
    probabilities lie in [0, 1] and add up to 1 (also when both reflectances
    vanish, where the diffuse weight is 1). *)
Theorem mixture_selection_is_distribution (geom : PointGeometry) (rd rg : Vec3) :
  m_reflectance diffuse geom = Some rd ->
  m_reflectance glossy geom = Some rg ->
  0 <= compMax rd -> 0 <= compMax rg ->
  0 <= eval_alpha mask_tex geom <= 1 ->
  exists pD pG pA,
    pdf_comp_select diffuse glossy mask_tex geom Comp_Diffuse = Some pD
    /\ pdf_comp_select diffuse glossy mask_tex geom Comp_Glossy = Some pG
    /\ pdf_comp_select diffuse glossy mask_tex geom Comp_Alpha = Some pA
    /\ 0 <= pD <= 1 /\ 0 <= pG <= 1 /\ 0 <= pA <= 1
    /\ pD + pG + pA = 1.
Proof.
  intros Hd Hg Hrd Hrg Ha.
  destruct (selection_weight_in_unit geom rd rg Hd Hg Hrd Hrg) as (wd & Hw & Hwd).
  unfold pdf_comp_select. rewrite Hw. cbn.
  set (a := eval_alpha mask_tex geom) in *.
  exists (a * wd), (a * (1 - wd)), (1 - a).
  repeat split; try reflexivity; unfold f1; cbn; try nra.
Qed.

End MixtureSelection.

Section MixtureWithoutTexture.
#[local] Existing Instance RealOps.
Context `{!MathLib} `{!RngOps}.
Local Open Scope R_scope.
Import Material_WavefrontObj_Mixture.

Variables diffuse glossy alpha_mask : Material.

Lemma eval_alpha_no_texture (geom : PointGeometry) : eval_alpha None geom = 1.
Proof. reflexivity. Qed.

(** X10. Without an alpha texture the mixture never selects the Alpha lobe (the
    generator draws below 1), gives it probability 0, and on directions of
    one half-space its value and density are those of the mixture without
    alpha. *)
Theorem mixture_without_texture (geom : PointGeometry) (wi wo : Vec3)
  (trans_dir : TransDir) (rng : Rng) :
  fst (rng_u rng) < 1 ->
  fst (sample_comp_select diffuse glossy None rng geom) <> Some Comp_Alpha
  /\ pdf_comp_select diffuse glossy None geom Comp_Alpha = Some 0
  /\ (opposite geom wi wo = false ->
      eval diffuse glossy alpha_mask None geom wi wo trans_dir false
        = Material_WavefrontObj_Mixture_Without_Alpha.eval diffuse glossy geom wi wo
            trans_dir false
      /\ pdf_direction diffuse glossy alpha_mask None geom wi wo false
        = Material_WavefrontObj_Mixture_Without_Alpha.pdf_direction diffuse glossy
            geom wi wo false).
Proof.
  intros Hu. split; [|split].
  - unfold sample_comp_select. rewrite eval_alpha_no_texture.
    destruct (rng_u rng) as [u rng1]. cbn in Hu.
    change (@fltb RealOps 1 u) with (Rltb 1 u).
    assert (Hf : Rltb 1 u = false) by (apply Rltb_false; lra). rewrite Hf.
    destruct (diffuse_selection_weight diffuse glossy geom) as [wd|]; [|discriminate].
    destruct (rng_u rng1) as [u' rng2]. destruct (fltb u' wd); discriminate.
  - unfold pdf_comp_select. rewrite eval_alpha_no_texture. f_equal. unfold f1; cbn. ring.
  - intros Hopp. unfold eval, pdf_direction. rewrite Hopp.
    unfold Material_WavefrontObj_Mixture_Without_Alpha.eval,
      Material_WavefrontObj_Mixture_Without_Alpha.pdf_direction,
      Material_WavefrontObj_Mixture_Without_Alpha.eval_f,
      Material_WavefrontObj_Mixture_Without_Alpha.eval_pdf,
      Material_WavefrontObj_Mixture_Without_Alpha.pdf_comp_select,
      eval_f, eval_pdf, pdf_comp_select, eval_mix_weight.
    rewrite eval_alpha_no_texture. change (@f1 RealOps) with 1. rewrite !sscale_one.
    split; [reflexivity|].
    change (Material_WavefrontObj_Mixture_Without_Alpha.diffuse_selection_weight
              diffuse glossy geom) with (diffuse_selection_weight diffuse glossy geom).
    destruct (diffuse_selection_weight diffuse glossy geom) as [wd|]; [|reflexivity].
    cbn. f_equal. change Float with R. ring.
Qed.

(** X11. The two selection probabilities of the mixture without alpha lie in
    [0, 1] and add up to 1. *)
Theorem mixture_without_alpha_selection (geom : PointGeometry) (rd rg : Vec3) :
  m_reflectance diffuse geom = Some rd ->
  m_reflectance glossy geom = Some rg ->
  0 <= compMax rd -> 0 <= compMax rg ->
  exists pD pG,
    Material_WavefrontObj_Mixture_Without_Alpha.pdf_comp_select diffuse glossy geom
      Material_WavefrontObj_Mixture_Without_Alpha.Comp2_Diffuse = Some pD
    /\ Material_WavefrontObj_Mixture_Without_Alpha.pdf_comp_select diffuse glossy geom
      Material_WavefrontObj_Mixture_Without_Alpha.Comp2_Glossy = Some pG
    /\ 0 <= pD <= 1 /\ 0 <= pG <= 1 /\ pD + pG = 1.
Proof.
  intros Hd Hg Ha Hb.
  destruct (selection_weight_in_unit diffuse glossy geom rd rg Hd Hg Ha Hb) as (wd & Hw & Hwd).
  unfold Material_WavefrontObj_Mixture_Without_Alpha.pdf_comp_select.
  change (Material_WavefrontObj_Mixture_Without_Alpha.diffuse_selection_weight
            diffuse glossy geom) with (diffuse_selection_weight diffuse glossy geom).
  rewrite Hw. cbn. exists wd, (1 - wd).
  repeat split; try reflexivity; unfold f1; cbn; lra.
Qed.

End MixtureWithoutTexture.

(** *** The mixture material: sampling through the mask *)

Section MixtureSampling.
Context `{FloatOps} `{!MathLib} `{!RngOps}.
Import Material_WavefrontObj_Mixture.
Local Open Scope fl_scope.

Variables diffuse glossy alpha_mask : Material.
Variable mask_tex : option Texture.

(** X12. Sampling the mixture through the alpha mask.  When the first number
    drawn exceeds alpha, the mask lobe is sampled with the generator after
    that draw; when its direction lies in the other half-space, the sample
    has that direction, is flagged specular, and its weight is the quotient
    of the mask's value and density, both taken without their delta part and
    both scaled by [1 - alpha]. *)
Theorem mixture_sample_through_mask (rng rng2 : Rng) (geom : PointGeometry) (wi : Vec3)
    (trans_dir : TransDir) (s : MaterialSample) :
  (fst (rng_u rng) >? eval_alpha mask_tex geom) = true ->
  m_sample_direction alpha_mask (snd (rng_u rng)) geom wi trans_dir = (Some s, rng2) ->
  opposite geom wi (ms_wo s) = true ->
  sample_direction diffuse glossy alpha_mask mask_tex rng geom wi trans_dir
    = (Some (Some (mkMaterialSample (ms_wo s)
                     (vdivs (sscale (f1 - eval_alpha mask_tex geom)
                               (m_eval alpha_mask geom wi (ms_wo s) trans_dir false))
                            ((f1 - eval_alpha mask_tex geom)
                             * m_pdf_direction alpha_mask geom wi (ms_wo s) false))
                     true)),
       rng2).
Proof.
  intros Hsel Hs Hopp. unfold sample_direction, sample_comp_select.
  destruct (rng_u rng) as [u rng1]. cbn [fst snd] in *.
  rewrite Hsel. cbn [material_by_comp]. rewrite Hs.
  unfold pdf_direction, eval. rewrite Hopp.
  unfold eval_pdf, eval_f, pdf_comp_select, eval_mix_weight. cbn.
  reflexivity.
Qed.

End MixtureSampling.


(** *** Specular materials and the phase function *)

Section SpecularMaterials.
Context `{FloatOps} `{!MathLib} `{!RngOps}.

(** X13. Glass always returns a sample, after drawing one number; its
    component is 0 (reflection, weight 1) or 1 (refraction), its direction is
    the one [sample_direction_given_comp] gives for that component, and its
    density is reported as 0.  [sample_direction_given_comp] has no result
    for any other component. *)
Theorem glass_sample_matches_given_comp (Ni : Float) (rng : Rng) (geom : PointGeometry)
    (wi : Vec3) :
  exists s,
    Material_Glass.sample_direction Ni rng geom wi = (Some s, snd (rng_u rng)) /\
    (mds_comp s = 0%Z \/ mds_comp s = 1%Z) /\
    Material_Glass_Comp.sample_direction_given_comp Ni geom (mds_comp s) wi
      = Some (mds_wo s) /\
    (mds_comp s = 0%Z -> mds_weight s = vec3 f1) /\
    Material_Glass.pdf_direction geom (mds_comp s) wi (mds_wo s) = f0 /\
    (forall comp, comp <> 0%Z -> comp <> 1%Z ->
       Material_Glass_Comp.sample_direction_given_comp Ni geom comp wi = None).
Proof.
  unfold Material_Glass.sample_direction, Material_Glass_Comp.sample_direction_given_comp.
  destruct (refraction wi _ _) as [wt total] eqn:Hr.
  destruct (rng_u rng) as [u rng'] eqn:Hu. cbn [snd].
  destruct (fltb u _) eqn:Hlt.
  - eexists. split; [reflexivity|]. cbn.
    split; [left; reflexivity|]. split; [reflexivity|]. split; [reflexivity|].
    split; [reflexivity|].
    intros comp Hc0 Hc1.
    destruct (Z.eqb_spec comp 0); [contradiction|].
    destruct (Z.eqb_spec comp 1); [contradiction|]. reflexivity.
  - eexists. split; [reflexivity|]. cbn.
    split; [right; reflexivity|]. split; [reflexivity|]. split; [discriminate|].
    split; [reflexivity|].
    intros comp Hc0 Hc1.
    destruct (Z.eqb_spec comp 0); [contradiction|].
    destruct (Z.eqb_spec comp 1); [contradiction|]. reflexivity.
Qed.
End SpecularMaterials.

Section MirrorOverR.
#[local] Existing Instance RealOps.
Context `{!RngOps}.
Local Open Scope R_scope.

Lemma reflection_dot (wi n : Vec3) :
  dot n n = 1 -> dot (reflection wi n) n = dot wi n.
Proof.
  destruct wi as [wx wy wz], n as [nx ny nz].
  unfold reflection, dot, vsub, sscale. cbn. intros Hn.
  change (@Float RealOps) with R in *.
  assert (E : (2 * (wx * nx + wy * ny + wz * nz) * nx - wx) * nx +
              (2 * (wx * nx + wy * ny + wz * nz) * ny - wy) * ny +
              (2 * (wx * nx + wy * ny + wz * nz) * nz - wz) * nz
              = 2 * (wx * nx + wy * ny + wz * nz) * (nx * nx + ny * ny + nz * nz)
                - (wx * nx + wy * ny + wz * nz)) by ring.
  rewrite E, Hn. ring.
Qed.

Lemma reflection_involutive (wi n : Vec3) :
  dot n n = 1 -> reflection (reflection wi n) n = wi.
Proof.
  intros Hn. pose proof (reflection_dot wi n Hn) as Hd.
  unfold reflection at 1. rewrite Hd.
  destruct wi as [wx wy wz], n as [nx ny nz].
  unfold reflection, dot, vsub, sscale. cbn.
  f_equal; (change Float with R; ring).
Qed.

Lemma reflection_length (wi n : Vec3) :
  dot n n = 1 -> dot (reflection wi n) (reflection wi n) = dot wi wi.
Proof.
  destruct wi as [wx wy wz], n as [nx ny nz].
  unfold reflection, dot, vsub, sscale. cbn. intros Hn.
  change (@Float RealOps) with R in *.
  assert (E : (2 * (wx * nx + wy * ny + wz * nz) * nx - wx) *
              (2 * (wx * nx + wy * ny + wz * nz) * nx - wx) +
              (2 * (wx * nx + wy * ny + wz * nz) * ny - wy) *
              (2 * (wx * nx + wy * ny + wz * nz) * ny - wy) +
              (2 * (wx * nx + wy * ny + wz * nz) * nz - wz) *
              (2 * (wx * nx + wy * ny + wz * nz) * nz - wz)
              = 4 * (wx * nx + wy * ny + wz * nz) * (wx * nx + wy * ny + wz * nz)
                  * (nx * nx + ny * ny + nz * nz)
                - 4 * (wx * nx + wy * ny + wz * nz) * (wx * nx + wy * ny + wz * nz)
                + (wx * wx + wy * wy + wz * wz)) by ring.
  rewrite E, Hn. ring.
Qed.

(** X14. Mirror and mask sampling are involutions that draw no number.  At
    a unit normal the mirror keeps the cosine to the normal and the length of
    the direction, and sampling from the sampled direction gives the incident
    one back; the mask returns the opposite direction, and so does the same. *)
Theorem mirror_and_mask_reverse (DontCare : Z) (rng : Rng) (geom : PointGeometry) (wi : Vec3) :
  dot (pg_n geom) (pg_n geom) = 1 ->
  (exists s,
     Material_Mirror.sample_direction DontCare rng geom wi = (Some s, rng) /\
     mds_weight s = vec3 1 /\
     dot (mds_wo s) (pg_n geom) = dot wi (pg_n geom) /\
     dot (mds_wo s) (mds_wo s) = dot wi wi /\
     Material_Mirror.sample_direction DontCare rng geom (mds_wo s)
       = (Some (mkMDS wi DontCare (vec3 1)), rng))
  /\ (exists s,
     Material_Mask.sample_direction DontCare rng geom wi = (Some s, rng) /\
     vadd (mds_wo s) wi = vzero /\
     Material_Mask.sample_direction DontCare rng geom (mds_wo s)
       = (Some (mkMDS wi DontCare (vec3 1)), rng)).
Proof.
  intros Hn. split.
  - eexists. split; [reflexivity|]. cbn [mds_weight mds_wo].
    split; [reflexivity|]. split; [apply reflection_dot, Hn|]. split.
    + apply reflection_length, Hn.
    + unfold Material_Mirror.sample_direction.
      rewrite (reflection_involutive wi _ Hn). reflexivity.
  - eexists. split; [reflexivity|]. cbn [mds_wo]. split.
    + destruct wi as [wx wy wz]. unfold vadd, vneg, vzero, vec3, f0. cbn.
      f_equal; change Float with R; ring.
    + unfold Material_Mask.sample_direction. f_equal. f_equal.
      destruct wi as [wx wy wz]. unfold vneg. cbn. f_equal; f_equal; change Float with R; ring.
Qed.

End MirrorOverR.

Section HGOverR.
#[local] Existing Instance RealOps.
#[local] Existing Instance RealLibm.
Context `{!MathLib} `{!RngOps}.
Local Open Scope R_scope.

Lemma dot_comm (a b : Vec3) : dot a b = dot b a.
Proof. unfold dot. cbn. ring. Qed.

(** X15. The Henyey-Greenstein density is reciprocal (exchanging [wi] and
    [wo] does not change it, nor does reversing both), does not depend on the
    point, and for [g = 0] it is the isotropic density 1 / (4 Pi). *)
Theorem hg_pdf_reciprocal_and_isotropic (g : R) (geom geom' : PointGeometry) (wi wo : Vec3) :
  Phase_HenyeyGreenstein.pdf_direction g geom wi wo
    = Phase_HenyeyGreenstein.pdf_direction g geom' wo wi /\
  Phase_HenyeyGreenstein.pdf_direction g geom (vneg wi) (vneg wo)
    = Phase_HenyeyGreenstein.pdf_direction g geom wi wo /\
  Phase_HenyeyGreenstein.pdf_direction 0 geom wi wo = 1 / (Pi * 4).
Proof.
  unfold Phase_HenyeyGreenstein.pdf_direction. split; [|split].
  - rewrite (dot_comm wi wo). reflexivity.
  - replace (dot (vneg wi) (vneg wo)) with (dot wi wo)
      by (unfold dot, vneg; cbn; ring).
    reflexivity.
  - unfold f1. cbn.
    set (d := vx wi * vx wo + vy wi * vy wo + vz wi * vz wo).
    replace (1 + 0 * 0 + 2 * 0 * d) with 1 by ring.
    rewrite sqrt_1. f_equal. unfold Rdiv. rewrite Rmult_1_l, Rinv_1. ring.
Qed.
End HGOverR.

Section HGBounds.
Local Open Scope R_scope.

Lemma div_between (a b : R) : 0 < b -> - b <= a <= b -> -1 <= a / b <= 1.
Proof.
  intros Hb [Hlo Hhi]. split.
  - apply (Rmult_le_reg_r b); [exact Hb|].
    unfold Rdiv. rewrite Rmult_assoc, Rinv_l by lra. lra.
  - apply (Rmult_le_reg_r b); [exact Hb|].
    unfold Rdiv. rewrite Rmult_assoc, Rinv_l by lra. lra.
Qed.

Lemma div_between_neg (a b : R) : b < 0 -> b <= a <= - b -> -1 <= a / b <= 1.
Proof.
  intros Hb Hab. replace (a / b) with ((- a) / (- b)) by (field; lra).
  apply div_between; lra.
Qed.

Lemma hg_cos_bound (g u : R) :
  -1 < g < 1 -> g <> 0 -> 0 <= u < 1 ->
  -1 <= (1 + g * g - ((1 - g * g) / (1 - g + 2 * g * u)) * ((1 - g * g) / (1 - g + 2 * g * u)))
        / (2 * g) <= 1.
Proof.
  intros Hg Hg0 Hu.
  set (D := 1 - g + 2 * g * u).
  destruct (Rlt_dec 0 g) as [Hpos|Hneg].
  - assert (HD : 1 - g <= D < 1 + g) by (unfold D; nra).
    assert (HD0 : 0 < D) by lra.
    set (sq := (1 - g * g) / D).
    assert (Hsq : sq * D = 1 - g * g) by (unfold sq; field; lra).
    assert (Hb : 1 - g <= sq <= 1 + g).
    { split; apply (Rmult_le_reg_r D); try exact HD0; rewrite Hsq; nra. }
    apply div_between; [lra|]. nra.
  - assert (Hn : g < 0) by lra.
    assert (HD : 1 + g < D <= 1 - g) by (unfold D; nra).
    assert (HD0 : 0 < D) by lra.
    set (sq := (1 - g * g) / D).
    assert (Hsq : sq * D = 1 - g * g) by (unfold sq; field; lra).
    assert (Hb : 1 + g <= sq <= 1 - g).
    { split; apply (Rmult_le_reg_r D); try exact HD0; rewrite Hsq; nra. }
    apply div_between_neg; [lra|]. nra.
Qed.
End HGBounds.

Section HGSampleOverR.
#[local] Existing Instance RealOps.
#[local] Existing Instance RealLibm.
Context `{!MathLib} `{!RngOps}.
Local Open Scope R_scope.

Import Phase_HenyeyGreenstein_Sample.


Lemma cosT_in_range (g u : R) :
  -1 < g < 1 -> 0 < Eps -> 0 <= u < 1 -> -1 <= cosT g u <= 1.
Proof.
  intros Hg He Hu. unfold cosT.
  destruct (fltb _ _) eqn:Hlt.
  - unfold f1. cbn. lra.
  - apply (Rltb_false (Rabs g)) in Hlt.
    assert (Hg0 : g <> 0).
    { intros ->. rewrite Rabs_R0 in Hlt. lra. }
    unfold f1. cbn. apply hg_cos_bound; assumption.
Qed.

Lemma local_frame_cosine (bu bv w : Vec3) (lx ly c : R) :
  dot w w = 1 -> dot bu w = 0 -> dot bv w = 0 ->
  dot (mat3_mul bu bv (vneg w) (mkVec3 lx ly c)) (vneg w) = c.
Proof.
  destruct w as [wx wy wz], bu as [ux uy uz], bv as [vx' vy' vz'].
  unfold dot, mat3_mul, vneg. cbn. intros Hw Hbu Hbv.
  change (@Float RealOps) with R in *.
  assert (E : (ux * lx + vx' * ly + - wx * c) * - wx +
              (uy * lx + vy' * ly + - wy * c) * - wy +
              (uz * lx + vz' * ly + - wz * c) * - wz
              = c * (wx * wx + wy * wy + wz * wz)
                - lx * (ux * wx + uy * wy + uz * wz)
                - ly * (vx' * wx + vy' * wy + vz' * wz)) by ring.
  rewrite E, Hw, Hbu, Hbv. ring.
Qed.

(** X16. Sampling the phase function: for [|g| < 1] and a first uniform
    number in [0, 1) the sampled cosine lies in [-1, 1]; with [wi] of unit
    length and a basis orthogonal to it, the sampled direction makes exactly
    that cosine with [-wi].  The weight is 1, the sample is not specular and
    two numbers are drawn. *)
Theorem hg_sample_direction_cosine (g : R) (basis : Vec3 -> Vec3 * Vec3)
    (rng : Rng) (geom : PointGeometry) (wi : Vec3) :
  -1 < g < 1 -> 0 < Eps ->
  0 <= fst (rng_u rng) < 1 ->
  dot wi wi = 1 ->
  dot (fst (basis (vneg wi))) wi = 0 ->
  dot (snd (basis (vneg wi))) wi = 0 ->
  exists wo,
    sample_direction g basis rng geom wi
      = (Some (mkPDS wo (vec3 1) false), snd (rng_u (snd (rng_u rng)))) /\
    dot wo (vneg wi) = cosT g (fst (rng_u rng)) /\
    -1 <= dot wo (vneg wi) <= 1.
Proof.
  intros Hg He Hu Hw Hbu Hbv.
  pose proof (cosT_in_range g _ Hg He Hu) as Hc.
  unfold sample_direction.
  destruct (rng_u rng) as [u1 rng1] eqn:E1. cbn [fst snd] in *.
  destruct (rng_u rng1) as [u2 rng2] eqn:E2. cbn [fst snd].
  destruct (basis (vneg wi)) as [bu bv] eqn:Eb. cbn [fst snd] in *.
  eexists. split; [reflexivity|].
  split; [apply local_frame_cosine; assumption|].
  rewrite local_frame_cosine by assumption. exact Hc.
Qed.
End HGSampleOverR.

(** *** Visibility towards an endpoint at infinity *)

Section VisibleInfinite.
Context `{FloatOps} `{!MathLib} `{!RngOps}.
Local Open Scope fl_scope.

(** X17. [visible] with one endpoint at infinity: both orders of the
    arguments give the same answer, the position stored in the infinite
    endpoint plays no role, and the endpoints see each other exactly when
    nothing is hit from the finite one in the direction [-wo] of the infinite
    one within [Eps, Inf - 1]. *)
Theorem visible_infinite_endpoint (scene : Scene) (sp1 sp1' sp2 : SceneInteraction) :
  pg_infinite (geom sp1) = true ->
  pg_infinite (geom sp2) = false ->
  pg_infinite (geom sp1') = true ->
  pg_wo (geom sp1') = pg_wo (geom sp1) ->
  visible scene sp1 sp2 = visible scene sp2 sp1
  /\ visible scene sp1' sp2 = visible scene sp1 sp2
  /\ (visible scene sp1 sp2 = true <->
       intersect scene (mkRay (pg_p (geom sp2)) (vneg (pg_wo (geom sp1)))) Eps (Inf - f1)
         = None).
Proof.
  intros Hi1 Hi2 Hi1' Hwo. unfold visible, visible_.
  rewrite Hi1, Hi2, Hi1', Hwo. split; [reflexivity|]. split; [reflexivity|].
  destruct (intersect scene _ Eps (Inf - f1)) as [hit|].
  - split; [|discriminate]. intros Hv.
    apply negb_true_iff, bool_decide_eq_false in Hv. exfalso. apply Hv. eauto.
  - split; [reflexivity|]. intros _.
    apply negb_true_iff, bool_decide_eq_false. intros [? ?]. discriminate.
Qed.

End VisibleInfinite.

(** *** The renderers: checks, tasks and walks *)

Section RenderChecks.
Context `{FloatOps} `{!MathLib} `{!RngOps} `{!FilmOps} `{!PathLib}.
Local Open Scope fl_scope.

Lemma require_renderable_first_missing (s : Scene) (msg : string) :
  ((num_nodes s <= 1)%Z
     /\ msg = "Missing primitives. Use lm::primitive() function to add primitives.")
  \/ ((num_nodes s > 1)%Z /\ camera_node s = (-1)%Z
     /\ msg = "Missing camera primitive. Use lm::primitive() function to add camera primitive.")
  \/ ((num_nodes s > 1)%Z /\ camera_node s <> (-1)%Z /\ (num_lights s <= 0)%Z
     /\ msg = "No light in the scene. Add at least one light sources to the scene.")
  \/ ((num_nodes s > 1)%Z /\ camera_node s <> (-1)%Z /\ (num_lights s > 0)%Z
     /\ accel s = None
     /\ msg = "Missing acceleration structure. Use lm::build() function before rendering.") ->
  require_renderable s = (Throw Unsupported msg, s).
Proof.
  intros Hcase.
  rewrite require_renderable_run, require_primitive_run.
  destruct (Z.gtb_spec (num_nodes s) 1) as [Hn|Hn].
  2:{ destruct Hcase as [[_ ->]|[[? _]|[[? _]|[? _]]]]; try lia. reflexivity. }
  rewrite require_camera_run.
  destruct (Z.eqb_spec (camera_node s) (-1)) as [Hc|Hc].
  { destruct Hcase as [[? _]|[(_ & _ & ->)|[(_ & ? & _)|(_ & ? & _)]]];
      try lia; try contradiction. reflexivity. }
  rewrite require_light_run.
  destruct (Z.gtb_spec (num_lights s) 0) as [Hp|Hp].
  2:{ destruct Hcase as [[? _]|[(_ & ? & _)|[(_ & _ & _ & ->)|(_ & _ & ? & _)]]];
        try lia; try contradiction. reflexivity. }
  rewrite require_accel_run.
  destruct Hcase as [[? _]|[(_ & ? & _)|[(_ & _ & ? & _)|(_ & _ & _ & Ha & ->)]]];
    try lia; try contradiction.
  rewrite Ha. reflexivity.
Qed.

(** X18. Both renderers check the scene before anything else, in the order
    primitives, camera, light, acceleration structure: [render] throws
    [Unsupported] with the message of the first element that is missing,
    whatever the film, the scheduler and the other settings are. *)
Theorem render_reports_first_missing (scene : Scene) (msg : string)
    (max_length : Z) (seed : option Z) (mode : PTMode) (imode : ImageSampleMode)
    (max_verts : Z) (rr_prob : Float) (sched : Scheduler)
    (film : Film) (rngs : gmap Z Rng) :
  ((num_nodes scene <= 1)%Z
     /\ msg = "Missing primitives. Use lm::primitive() function to add primitives.")
  \/ ((num_nodes scene > 1)%Z /\ camera_node scene = (-1)%Z
     /\ msg = "Missing camera primitive. Use lm::primitive() function to add camera primitive.")
  \/ ((num_nodes scene > 1)%Z /\ camera_node scene <> (-1)%Z /\ (num_lights scene <= 0)%Z
     /\ msg = "No light in the scene. Add at least one light sources to the scene.")
  \/ ((num_nodes scene > 1)%Z /\ camera_node scene <> (-1)%Z /\ (num_lights scene > 0)%Z
     /\ accel scene = None
     /\ msg = "Missing acceleration structure. Use lm::build() function before rendering.") ->
  Renderer_PT.render scene max_length seed mode imode sched film rngs scene
    = (Throw Unsupported msg, scene)
  /\ Renderer_VolPT.render scene max_verts rr_prob seed sched film rngs scene
    = (Throw Unsupported msg, scene).
Proof.
  intros Hcase. apply require_renderable_first_missing in Hcase.
  split.
  - unfold Renderer_PT.render. unfold mbind at 1. unfold SceneM_bind.
    rewrite Hcase. reflexivity.
  - unfold Renderer_VolPT.render. unfold mbind at 1. unfold SceneM_bind.
    rewrite Hcase. reflexivity.
Qed.

(** X19. The volumetric renderer on a renderable scene clears the film,
    runs the scheduler on it, rescales the result by [W * H / processed] and
    reports [processed].  The source multiplies [W] and [H] as [int]s: the
    factor is for a film whose pixel count fits an [int], and beyond that
    the product overflows (undefined). *)
Theorem volpt_render_rescales_film (scene : Scene) (max_verts : Z) (rr_prob : Float)
    (seed : option Z) (sched : Scheduler) (film : Film) (rngs : gmap Z Rng)
    (processed : Z) (film1 : Film) (rngs1 : gmap Z Rng) :
  fst (require_renderable scene) = Ok tt ->
  run sched _ (Renderer_VolPT.process scene max_verts rr_prob seed)
      (Some (film_clear film, rngs)) = (processed, Some (film1, rngs1)) ->
  ((- 2 ^ 31 <= size_w (film_size (film_clear film)) * size_h (film_size (film_clear film))
    < 2 ^ 31)%Z ->
   fst (Renderer_VolPT.render scene max_verts rr_prob seed sched film rngs scene) =
     Ok (Some (film_rescale film1
                 (of_int (size_w (film_size (film_clear film))
                          * size_h (film_size (film_clear film)))
                  / of_int processed),
               rngs1),
         processed))
  /\ (~ (- 2 ^ 31 <= size_w (film_size (film_clear film)) * size_h (film_size (film_clear film))
        < 2 ^ 31)%Z ->
      fst (Renderer_VolPT.render scene max_verts rr_prob seed sched film rngs scene)
        = Ok (None, processed)).
Proof.
  intros Hreq Hrun.
  destruct (require_renderable scene) as [[[]|e m] s'] eqn:Hrr; cbn in Hreq; [|discriminate].
  assert (Hrender :
            fst (Renderer_VolPT.render scene max_verts rr_prob seed sched film rngs scene)
            = Ok (wh ← int_mul (size_w (film_size (film_clear film)))
                               (size_h (film_size (film_clear film)));
                  Some (film_rescale film1 (of_int wh / of_int processed), rngs1),
                  processed)).
  { unfold Renderer_VolPT.render. unfold mbind at 1. unfold SceneM_bind.
    rewrite Hrr. cbv zeta. rewrite Hrun. reflexivity. }
  rewrite Hrender. split.
  - intros Hfit. rewrite (int_mul_in_range _ _ Hfit). reflexivity.
  - intros Hout. rewrite (int_mul_overflow _ _ Hout). reflexivity.
Qed.

Lemma volpt_walk_body_vertex scene rr_prob num_verts w :
  match Renderer_VolPT.walk_body scene rr_prob num_verts w with
  | Break w' => Renderer_VolPT.sp w' = Renderer_VolPT.sp w
  | Continue w' => pg_infinite (geom (Renderer_VolPT.sp w')) = false
  | Undefined => True
  end.
Proof.
  unfold Renderer_VolPT.walk_body.
  destruct (if Renderer_VolPT.samplable_by_nee scene w then _ else _) as [film1 rng1].
  destruct (path_sample_direction rng1 scene _ _ _ EL) as [[s|] rng2]; [|reflexivity].
  destruct (if (num_verts =? 1)%Z then _ else _) as [rp|]; [|exact I].
  destruct (path_sample_distance rng2 scene _ _) as [[sd|] rng3]; [|reflexivity].
  destruct (pg_infinite (geom (dd_sp sd))) eqn:Hinf; [reflexivity|].
  destruct (num_verts >? 5)%Z.
  - destruct (rng_u rng3) as [u rng4]. destruct (u <? _); [reflexivity|].
    destruct (path_sample_component rng4 scene (dd_sp sd)) as [sc rng5]. exact Hinf.
  - destruct (path_sample_component rng3 scene (dd_sp sd)) as [sc rng5]. exact Hinf.
Qed.

(** X20. The vertices of a volumetric walk stay finite: the walk stops at
    an interaction at infinity instead of continuing from it. *)
Theorem volpt_walk_vertex_finite (scene : Scene) (rr_prob : Float) (n : nat) (num_verts : Z)
    (w w' : Renderer_VolPT.Walk) :
  pg_infinite (geom (Renderer_VolPT.sp w)) = false ->
  Renderer_VolPT.walk scene rr_prob n num_verts w = Some w' ->
  pg_infinite (geom (Renderer_VolPT.sp w')) = false.
Proof.
  revert num_verts w. induction n as [|n IH]; intros num_verts w Hfin Hwalk.
  - cbn in Hwalk. injection Hwalk as <-. exact Hfin.
  - cbn in Hwalk. pose proof (volpt_walk_body_vertex scene rr_prob num_verts w) as Hb.
    destruct (Renderer_VolPT.walk_body scene rr_prob num_verts w) as [wb|wc|].
    + injection Hwalk as <-. rewrite Hb. exact Hfin.
    + eapply IH; eassumption.
    + discriminate.
Qed.

(** X21. A task of the volumetric renderer that completes has sampled an
    initial vertex, stores the generator of its own thread and leaves those
    of the other threads alone; with [max_verts <= 1] there is no walk and
    the film is unchanged. *)
Theorem volpt_process_thread_local (scene : Scene) (max_verts : Z) (rr_prob : Float)
    (seed : option Z) (pixel_index sample_index threadid : Z)
    (film film' : Film) (rngs rngs' : gmap Z Rng) :
  Renderer_VolPT.process scene max_verts rr_prob seed pixel_index sample_index threadid
    (Some (film, rngs)) = Some (film', rngs') ->
  (forall t, t <> threadid -> rngs' !! t = rngs !! t)
  /\ is_Some (rngs' !! threadid)
  /\ is_Some (fst (path_sample_position (Renderer_VolPT.thread_rng seed rngs threadid) scene EL))
  /\ ((max_verts <= 1)%Z -> film' = film).
Proof.
  unfold Renderer_VolPT.process. cbn [mbind option_bind].
  destruct (path_sample_position _ scene EL) as [[sE|] rng1]; cbn; [|discriminate].
  destruct (path_sample_component rng1 scene (ps_sp sE)) as [sc rng2]; cbn.
  destruct (Renderer_VolPT.walk _ _ _ _ _) as [w|] eqn:Hw; cbn; [|discriminate].
  intros [= <- <-]. split; [|split; [|split]].
  - intros t Ht. apply lookup_insert_ne. congruence.
  - rewrite lookup_insert_eq. eauto.
  - eauto.
  - intros Hm. replace (Z.to_nat (max_verts - 1)) with O in Hw by lia.
    cbn in Hw. injection Hw as <-. reflexivity.
Qed.

End RenderChecks.

Section SeedsAndEdges.
Context `{FloatOps} `{!MathLib} `{!RngOps} `{!FilmOps} `{!PathLib}.
Local Open Scope fl_scope.

Lemma mod_eq_small (a b m : Z) :
  (0 < m)%Z -> (a mod m = b mod m)%Z -> (- m < a - b < m)%Z -> a = b.
Proof.
  intros Hm Heq Hd.
  pose proof (Z.div_mod a m ltac:(lia)) as Ha.
  pose proof (Z.div_mod b m ltac:(lia)) as Hb.
  rewrite Heq in Ha.
  assert (Hq : (a - b = m * (a / m - b / m))%Z) by lia.
  assert (a / m - b / m = 0)%Z by nia. lia.
Qed.

(** X22. With a seed given, the threads of both path tracers start from
    different seeds: the generator of thread [t] is constructed from
    [seed + t] in unsigned 32-bit arithmetic, which is different for
    different thread ids (an [int] each).  A generator already constructed
    is kept. *)
Theorem threads_seeded_apart (sd t1 t2 : Z) (rngs : gmap Z Rng) :
  (forall a b : Z, Rng_new a = Rng_new b -> a = b) ->
  (- 2 ^ 31 <= t1 < 2 ^ 31)%Z -> (- 2 ^ 31 <= t2 < 2 ^ 31)%Z -> t1 <> t2 ->
  rngs !! t1 = None -> rngs !! t2 = None ->
  Renderer_PT.thread_rng (Some sd) rngs t1 <> Renderer_PT.thread_rng (Some sd) rngs t2
  /\ Renderer_VolPT.thread_rng (Some sd) rngs t1 <> Renderer_VolPT.thread_rng (Some sd) rngs t2
  /\ (forall r, Renderer_PT.thread_rng (Some sd) (<[t1 := r]> rngs) t1 = r)
  /\ (forall r, Renderer_VolPT.thread_rng (Some sd) (<[t1 := r]> rngs) t1 = r).
Proof.
  intros Hinj Ht1 Ht2 Hne Hn1 Hn2.
  unfold Renderer_PT.thread_rng, Renderer_VolPT.thread_rng. rewrite Hn1, Hn2.
  assert (Hs : Rng_new ((sd + t1) mod 2 ^ 32) <> Rng_new ((sd + t2) mod 2 ^ 32)).
  { intros Heq. apply Hinj in Heq. apply Hne.
    assert (sd + t1 = sd + t2)%Z; [|lia].
    apply (mod_eq_small _ _ (2 ^ 32)); [lia|exact Heq|lia]. }
  split; [exact Hs|]. split; [exact Hs|].
  split; intros r; rewrite lookup_insert_eq; reflexivity.
Qed.

(** X23. The NEE edge of the volumetric walk splats exactly the
    contributions it does not know to be zero.  When a light was sampled, a
    raster position is known, and neither the transmittance nor the
    contribution of the vertex is zero, the film after is the film before with
    one splat of throughput * Tr * fs * weight at the raster position; when no
    light was sampled, no raster position is known, or the transmittance or
    the contribution is zero, the film is unchanged. *)
Theorem volpt_nee_edge_splats_nonzero (scene : Scene) (num_verts : Z)
    (w : Renderer_VolPT.Walk) :
  (forall (sL : RaySample) (rng1 : Rng) (rp : Vec2),
     path_sample_direct_light (Renderer_VolPT.rng w) scene (Renderer_VolPT.sp w)
       = (Some sL, rng1) ->
     (if (num_verts =? 1)%Z then path_raster_position scene (vneg (rs_wo sL))
      else Some (Renderer_VolPT.raster_pos w)) = Some rp ->
     is_zero (fst (path_eval_transmittance rng1 scene (Renderer_VolPT.sp w) (rs_sp sL)))
       = false ->
     is_zero (path_eval_contrb_direction scene (Renderer_VolPT.sp w)
                (Renderer_VolPT.wi w) (vneg (rs_wo sL)) (Renderer_VolPT.comp w) EL true)
       = false ->
     fst (Renderer_VolPT.nee_edge scene num_verts w)
     = film_splat (Renderer_VolPT.film w) rp
         (vmul (vmul (vmul (Renderer_VolPT.throughput w)
                           (fst (path_eval_transmittance rng1 scene
                                   (Renderer_VolPT.sp w) (rs_sp sL))))
                     (path_eval_contrb_direction scene (Renderer_VolPT.sp w)
                        (Renderer_VolPT.wi w) (vneg (rs_wo sL))
                        (Renderer_VolPT.comp w) EL true))
               (rs_weight sL)))
  /\ (fst (path_sample_direct_light (Renderer_VolPT.rng w) scene (Renderer_VolPT.sp w))
        = None ->
      fst (Renderer_VolPT.nee_edge scene num_verts w) = Renderer_VolPT.film w)
  /\ (forall (sL : RaySample) (rng1 : Rng),
        path_sample_direct_light (Renderer_VolPT.rng w) scene (Renderer_VolPT.sp w)
          = (Some sL, rng1) ->
        (if (num_verts =? 1)%Z then path_raster_position scene (vneg (rs_wo sL))
         else Some (Renderer_VolPT.raster_pos w)) = None
        \/ is_zero (fst (path_eval_transmittance rng1 scene (Renderer_VolPT.sp w)
                           (rs_sp sL))) = true
        \/ is_zero (path_eval_contrb_direction scene (Renderer_VolPT.sp w)
                      (Renderer_VolPT.wi w) (vneg (rs_wo sL)) (Renderer_VolPT.comp w)
                      EL true) = true ->
        fst (Renderer_VolPT.nee_edge scene num_verts w) = Renderer_VolPT.film w).
Proof.
  unfold Renderer_VolPT.nee_edge.
  destruct (path_sample_direct_light _ scene _) as [[sL|] rng1] eqn:HsL.
  - split; [|split; [discriminate|]].
    + intros sL' rng1' rp [= <- <-] Hrp Hz Hf. rewrite Hrp.
      destruct (path_eval_transmittance rng1 scene _ _) as [Tr rng2].
      cbn [fst] in *. rewrite Hz, Hf. reflexivity.
    + intros sL' rng1' [= <- <-] Hcase.
      destruct (if (num_verts =? 1)%Z then _ else _) as [rp|]; [|reflexivity].
      destruct (path_eval_transmittance rng1 scene _ _) as [Tr rng2].
      cbn [fst] in *.
      destruct (is_zero Tr); [reflexivity|].
      destruct (is_zero (path_eval_contrb_direction _ _ _ _ _ _ _)); [reflexivity|].
      destruct Hcase as [Hc|[Hc|Hc]]; discriminate Hc.
  - split; [intros sL rng1' rp Hc; discriminate Hc|].
    split; [reflexivity|]. intros sL rng1' Hc. discriminate Hc.
Qed.

End SeedsAndEdges.


Section PTMore.
Context `{FloatOps} `{!MathLib} `{!RngOps} `{!FilmOps}.
Local Open Scope fl_scope.

(** X24. A task of the path tracer that completes stores the generator of
    its own thread and leaves those of the other threads alone; with
    [max_length <= 0] there is no walk: the film is unchanged and the stored
    generator is the one the thread started with. *)
Theorem pt_process_thread_local (scene : Scene) (max_length : Z) (seed : option Z)
    (mode : PTMode) (imode : ImageSampleMode) (size : FilmSize)
    (pixel_index sample_index threadid : Z)
    (film film' : Film) (rngs rngs' : gmap Z Rng) :
  Renderer_PT.process scene max_length seed mode imode size pixel_index sample_index threadid
    (Some (film, rngs)) = Some (film', rngs') ->
  (forall t, t <> threadid -> rngs' !! t = rngs !! t)
  /\ is_Some (rngs' !! threadid)
  /\ ((max_length <= 0)%Z ->
      film' = film /\ rngs' !! threadid = Some (Renderer_PT.thread_rng seed rngs threadid)).
Proof.
  unfold Renderer_PT.process. cbn [mbind option_bind].
  destruct (Renderer_PT.walk _ _ _ _ _ _) as [w|] eqn:Hw; cbn; [|discriminate].
  intros [= <- <-]. split; [|split].
  - intros t Ht. apply lookup_insert_ne. congruence.
  - rewrite lookup_insert_eq. eauto.
  - intros Hm. replace (Z.to_nat max_length) with O in Hw by lia.
    cbn in Hw. injection Hw as <-. cbn. rewrite lookup_insert_eq. auto.
Qed.

(** X25. Without MIS a light is counted once.  In an iteration that
    samples a ray, the film afterwards is the film of the NEE edge when one
    is sampled (the light then hit adds nothing), and otherwise the film with
    the emission of the hit splatted at weight 1 when the hit is a light. *)
Theorem pt_light_counted_once (scene : Scene) (mode : PTMode) (imode : ImageSampleMode)
    (length : Z) (w : Renderer_PT.Walk) (s : RaySample) (rng1 : Rng) (rp : Vec2) :
  mode <> MIS ->
  sample_ray scene (Renderer_PT.rng w) (Renderer_PT.sp w) (Renderer_PT.wi w) = (Some s, rng1) ->
  is_zero (rs_weight s) = false ->
  (if (length =? 0)%Z
   then raster_position scene (rs_wo s) (film_aspect (Renderer_PT.film w))
   else Some (Renderer_PT.raster_pos w)) = Some rp ->
  exists w',
    (Renderer_PT.walk_body scene mode imode length w = Break w'
     \/ Renderer_PT.walk_body scene mode imode length w = Continue w')
    /\ Renderer_PT.film w' =
         if Renderer_PT.nee scene mode imode length s
         then fst (Renderer_PT.nee_edge scene mode length s w rp rng1)
         else
           match intersect scene (ray s) Eps Inf with
           | Some hit =>
               if is_light scene hit
               then film_splat (Renderer_PT.film w) rp
                      (vscale (vmul (vmul (Renderer_PT.throughput w) (rs_weight s))
                                    (eval_contrb_position scene (as_type hit LightEndpoint)
                                       (vneg (rs_wo s))))
                              f1)
               else Renderer_PT.film w
           | None => Renderer_PT.film w
           end.
Proof.
  intros Hmode Hs Hz Hrp. unfold Renderer_PT.walk_body.
  rewrite Hs, Hz, Hrp.
  destruct (Renderer_PT.nee scene mode imode length s) eqn:Hnee.
  - assert (Hm : mode = NEE).
    { destruct mode; [discriminate Hnee|reflexivity|contradiction]. }
    subst mode.
    destruct (Renderer_PT.nee_edge scene NEE length s w rp rng1) as [film1 rng2]. cbn [fst].
    destruct (intersect scene (ray s) Eps Inf) as [hit|]; [|eexists; split; [left; reflexivity|reflexivity]].
    unfold Renderer_PT.direct. cbn [negb andb].
    destruct (length >? 3)%Z.
    + destruct (rng_u rng2) as [u rng3]. destruct (u <? _);
        eexists; (split; [(left; reflexivity) || (right; reflexivity)|reflexivity]).
    + eexists; split; [right; reflexivity|reflexivity].
  - destruct (intersect scene (ray s) Eps Inf) as [hit|]; [|eexists; split; [left; reflexivity|reflexivity]].
    assert (Hd : Renderer_PT.direct scene mode false hit = is_light scene hit).
    { destruct mode; reflexivity. }
    assert (Hw : forall spL wi, Renderer_PT.direct_misw scene mode false s spL wi = f1).
    { intros. destruct mode; reflexivity. }
    rewrite Hd, Hw.
    destruct (length >? 3)%Z.
    + destruct (rng_u rng1) as [u rng3]. destruct (u <? _);
        eexists; (split; [(left; reflexivity) || (right; reflexivity)|]); cbn;
        destruct (is_light scene hit); reflexivity.
    + eexists; split; [right; reflexivity|]. cbn. destruct (is_light scene hit); reflexivity.
Qed.

End PTMore.

Section PTWindowOverR.
#[local] Existing Instance RealOps.
Local Open Scope R_scope.

(** X26. In ideal arithmetic the window of a pixel lies inside the unit
    square: for a film of [W x H < 2^31] pixels and a pixel index below
    [W * H], the window starts at [(x / W, y / H)] with [x = index mod W],
    [y = index / W], and its extent is exactly [(1 / W, 1 / H)]. *)
Theorem pt_window_inside_film (size : FilmSize) (pixel_index : Z) :
  (0 < size_w size)%Z -> (0 < size_h size)%Z ->
  (size_w size * size_h size < 2 ^ 31)%Z ->
  (0 <= pixel_index < size_w size * size_h size)%Z ->
  let v := Renderer_PT.window Pixel size pixel_index in
  v4x v = IZR (pixel_index mod size_w size) / IZR (size_w size)
  /\ v4y v = IZR (pixel_index / size_w size) / IZR (size_h size)
  /\ 0 <= v4x v /\ v4x v + v4z v <= 1
  /\ 0 <= v4y v /\ v4y v + v4w v <= 1
  /\ 0 < v4z v /\ 0 < v4w v
  /\ v4z v = 1 / IZR (size_w size) /\ v4w v = 1 / IZR (size_h size).
Proof.
  intros Hw Hh Hwh Hi.
  destruct (pixel_of_index _ _ _ Hw Hh Hwh Hi) as (Hx & Hy & Hxr & Hyr).
  unfold Renderer_PT.window. cbn zeta. rewrite Hx, Hy. cbn.
  set (x := (pixel_index mod size_w size)%Z) in *.
  set (y := (pixel_index / size_w size)%Z) in *.
  assert (HW : 0 < IZR (size_w size)) by (apply IZR_lt; lia).
  assert (HH : 0 < IZR (size_h size)) by (apply IZR_lt; lia).
  assert (Hx0 : 0 <= IZR x) by (apply IZR_le; lia).
  assert (Hy0 : 0 <= IZR y) by (apply IZR_le; lia).
  assert (Hx1 : IZR x + 1 <= IZR (size_w size)).
  { rewrite <- plus_IZR. apply IZR_le. lia. }
  assert (Hy1 : IZR y + 1 <= IZR (size_h size)).
  { rewrite <- plus_IZR. apply IZR_le. lia. }
  assert (Hiw : 0 < / IZR (size_w size)) by (apply Rinv_0_lt_compat; exact HW).
  assert (Hih : 0 < / IZR (size_h size)) by (apply Rinv_0_lt_compat; exact HH).
  unfold f1. cbn. unfold Rdiv. rewrite !Rmult_1_l.
  repeat split; try lra; try nra.
  - apply (Rmult_le_reg_r (IZR (size_w size))); [exact HW|].
    rewrite Rmult_plus_distr_r, Rmult_assoc, (Rmult_comm (IZR x)), <- Rmult_assoc.
    rewrite Rinv_l by lra. lra.
  - apply (Rmult_le_reg_r (IZR (size_h size))); [exact HH|].
    rewrite Rmult_plus_distr_r, Rmult_assoc, (Rmult_comm (IZR y)), <- Rmult_assoc.
    rewrite Rinv_l by lra. lra.
Qed.
End PTWindowOverR.

(** *** renderer::ptdirect *)

Section PTDirectProperties.
Context `{FloatOps} `{!MathLib} `{!RngOps}.
Local Open Scope fl_scope.

Variable SurfPoint : Type.
Variable sp_p : SurfPoint -> Vec3.
Variable FilmD : Type.
Variable film_size_wh : FilmD -> Z * Z.
Variable setPixel : FilmD -> Z -> Z -> Vec3 -> FilmD.
Variable spp maxLength : Z.
Variable scene : Renderer_PTDirect.SceneD SurfPoint.

#[local] Abbreviation walk_body := (Renderer_PTDirect.walk_body SurfPoint sp_p scene).
#[local] Abbreviation walk := (Renderer_PTDirect.walk SurfPoint sp_p scene).
#[local] Abbreviation samples := (Renderer_PTDirect.samples SurfPoint sp_p maxLength scene).
#[local] Abbreviation process :=
  (Renderer_PTDirect.process SurfPoint sp_p FilmD film_size_wh setPixel spp maxLength scene).

(** X27. Pixel positions from a pixel index: for a film of
    [w x h < 2^31] pixels and an index below [w * h], the position lies on
    the film and [y * w + x] is the index again. *)
Theorem ptdirect_pixel_of_index (w h index : Z) :
  (0 < w)%Z -> (0 < h)%Z -> (w * h < 2 ^ 31)%Z -> (0 <= index < w * h)%Z ->
  (0 <= Renderer_PTDirect.pixel_x w index < w)%Z
  /\ (0 <= Renderer_PTDirect.pixel_y w index < h)%Z
  /\ (Renderer_PTDirect.pixel_y w index * w + Renderer_PTDirect.pixel_x w index = index)%Z.
Proof.
  intros Hw Hh Hwh Hi. unfold Renderer_PTDirect.pixel_x, Renderer_PTDirect.pixel_y.
  destruct (pixel_of_index _ _ _ Hw Hh Hwh Hi) as (-> & -> & Hx & Hy).
  split; [exact Hx|]. split; [exact Hy|].
  pose proof (Z.div_mod index w ltac:(lia)). lia.
Qed.


Lemma walk_body_defined x y w h length st :
  has_vertex length st ->
  match walk_body x y w h length st with
  | Undefined => False
  | Break _ => True
  | Continue st' => is_Some (Renderer_PTDirect.cur SurfPoint st')
  end.
Proof.
  intros Hv. unfold Renderer_PTDirect.walk_body.
  destruct (Renderer_PTDirect.sample_ray_of _ _ _ _ _ _ _ _) as [[s|] rng1]; [|exact I].
  destruct (is_zero _); [exact I|].
  assert (Hnee : exists L1 rng2,
             (if (length >? 0)%Z && negb (Renderer_PTDirect.isSpecular SurfPoint scene
                                           (Renderer_PTDirect.rd_sp SurfPoint s))
              then Renderer_PTDirect.nee_edge SurfPoint sp_p scene s st rng1
              else Some (Renderer_PTDirect.L SurfPoint st, rng1)) = Some (L1, rng2)).
  { destruct (Z.gtb_spec length 0) as [Hl|Hl]; cbn [andb]; [|eauto].
    destruct (negb _); [|eauto].
    unfold Renderer_PTDirect.nee_edge.
    destruct (Renderer_PTDirect.sampleLight _ _ _ _) as [[sL|] rng2]; [|eauto].
    destruct (bool_decide _); [eauto|].
    destruct (Hv ltac:(lia)) as [[sp wi] ->]. eauto. }
  destruct Hnee as (L1 & rng2 & ->).
  destruct (Renderer_PTDirect.intersectD _ _ _ _ _) as [hit|]; [|exact I].
  destruct (length >? 3)%Z.
  - destruct (rng_u rng2) as [u rng3]. destruct (u <? _); [exact I|]. cbn. eauto.
  - cbn. eauto.
Qed.

Lemma walk_defined x y w h n length st :
  has_vertex length st -> (0 <= length)%Z -> is_Some (walk x y w h n length st).
Proof.
  revert length st. induction n as [|n IH]; intros length st Hv Hl; cbn; [eauto|].
  pose proof (walk_body_defined x y w h length st Hv) as Hb.
  destruct (walk_body x y w h length st) as [sb|sc|]; [eauto| |contradiction].
  apply IH; [intros _; exact Hb|lia].
Qed.

Lemma samples_defined x y w h n L0 r : is_Some (samples x y w h n L0 r).
Proof.
  revert L0 r. induction n as [|n IH]; intros L0 r; cbn; [eauto|].
  destruct (walk_defined x y w h (Z.to_nat maxLength) 0
              (Renderer_PTDirect.mkWalkD SurfPoint (vec3 f1) None L0 r)) as [st Hst].
  { intros Hl. lia. }
  { lia. }
  rewrite Hst. cbn. apply IH.
Qed.

(** X28. The task of renderer::ptdirect never reads the incident direction
    before it is set: NEE is only enabled past the primary ray.  It always
    completes, sets the pixel of its index to [L / spp] and stores the
    generator of its thread; with [spp <= 0] no sample is taken. *)
Theorem ptdirect_process_defined (index threadId : Z) (film : FilmD) (rngs : gmap Z Rng) :
  exists L1 r1,
    process index threadId (film, rngs)
      = Some (setPixel film
                (Renderer_PTDirect.pixel_x (fst (film_size_wh film)) index)
                (Renderer_PTDirect.pixel_y (fst (film_size_wh film)) index)
                (vdivs L1 (of_int spp)),
              <[threadId := r1]> rngs)
    /\ ((spp <= 0)%Z ->
        L1 = vec3 f0
        /\ r1 = match rngs !! threadId with
                | Some r => r
                | None => Rng_new (42 + threadId)
                end).
Proof.
  unfold Renderer_PTDirect.process.
  destruct (film_size_wh film) as [w h] eqn:Hwh. cbn [fst].
  set (r0 := match rngs !! threadId with Some r => r | None => _ end).
  destruct (samples_defined (Renderer_PTDirect.pixel_x w index)
              (Renderer_PTDirect.pixel_y w index) w h (Z.to_nat spp) (vec3 f0) r0)
    as [[L1 r1] Hs].
  exists L1, r1. rewrite Hs. cbn. split; [reflexivity|].
  intros Hspp. replace (Z.to_nat spp) with O in Hs by lia. cbn in Hs.
  injection Hs as <- <-. split; reflexivity.
Qed.

Lemma walk_body_first_keeps_L x y w h st :
  match walk_body x y w h 0 st with
  | Break st' | Continue st' => Renderer_PTDirect.L SurfPoint st' = Renderer_PTDirect.L SurfPoint st
  | Undefined => False
  end.
Proof.
  unfold Renderer_PTDirect.walk_body.
  destruct (Renderer_PTDirect.sample_ray_of _ _ _ _ _ _ _ _) as [[s|] rng1]; [|reflexivity].
  destruct (is_zero _); [reflexivity|].
  cbn [Z.gtb Z.compare andb].
  destruct (Renderer_PTDirect.intersectD _ _ _ _ _) as [hit|]; [|reflexivity].
  cbn. reflexivity.
Qed.

Lemma samples_short x y w h n L0 r :
  (maxLength <= 1)%Z ->
  exists r', samples x y w h n L0 r = Some (L0, r').
Proof.
  intros Hm. revert r. induction n as [|n IH]; intros r; cbn; [eauto|].
  assert (Hw : exists st, walk x y w h (Z.to_nat maxLength) 0
                 (Renderer_PTDirect.mkWalkD SurfPoint (vec3 f1) None L0 r) = Some st
               /\ Renderer_PTDirect.L SurfPoint st = L0).
  { destruct (Z.to_nat maxLength) as [|[|k]] eqn:Hk; [cbn; eauto| |lia].
    cbn. pose proof (walk_body_first_keeps_L x y w h
                       (Renderer_PTDirect.mkWalkD SurfPoint (vec3 f1) None L0 r)) as Hb.
    destruct (walk_body x y w h 0 _) as [sb|sc|]; [eauto|eauto|contradiction]. }
  destruct Hw as (st & -> & HL). cbn. rewrite HL. apply IH.
Qed.

(** X29. With [maxLength <= 1] the walk ends before any NEE edge: every
    pixel is set to the zero radiance over [spp], whatever the scene. *)
Theorem ptdirect_short_paths_black (index threadId : Z) (film : FilmD) (rngs : gmap Z Rng) :
  (maxLength <= 1)%Z ->
  exists r1,
    process index threadId (film, rngs)
      = Some (setPixel film
                (Renderer_PTDirect.pixel_x (fst (film_size_wh film)) index)
                (Renderer_PTDirect.pixel_y (fst (film_size_wh film)) index)
                (vdivs (vec3 f0) (of_int spp)),
              <[threadId := r1]> rngs).
Proof.
  intros Hm. unfold Renderer_PTDirect.process.
  destruct (film_size_wh film) as [w h] eqn:Hwh. cbn [fst].
  set (r0 := match rngs !! threadId with Some r => r | None => _ end).
  destruct (samples_short (Renderer_PTDirect.pixel_x w index)
              (Renderer_PTDirect.pixel_y w index) w h (Z.to_nat spp) (vec3 f0) r0 Hm)
    as [r1 Hs].
  exists r1. rewrite Hs. reflexivity.
Qed.

End PTDirectProperties.

(** *** The further properties on the examples *)

Section ModelChecks.
Context `{FloatOps} `{!MathLib} `{!Framework}.
Import Model_WavefrontObj Model_WavefrontObj_Mesh.

(** Validity of a concrete model, by evaluation. *)
Lemma indices_valid_check (st : Model) :
  forallb (fun kv => (0 <=? snd kv)%Z && (snd kv <? Z.of_nat (length (assets_ st)))%Z)
          (map_to_list (assets_map_ st)) = true ->
  indices_valid st.
Proof.
  intros Hall key i Hk. apply elem_of_map_to_list in Hk.
  rewrite forallb_forall in Hall.
  assert (Hin : In (key, i) (map_to_list (assets_map_ st))).
  { apply list_elem_of_In. exact Hk. }
  specialize (Hall _ Hin). cbn in Hall.
  apply andb_true_iff in Hall as [Hlo Hhi]. unfold index_ok. lia.
Qed.

Lemma state_valid_check (s : ModelState) :
  indices_valid (model s) ->
  forallb (fun g =>
             let ok i := (0 <=? i)%Z && (i <? Z.of_nat (length (assets_ (model s))))%Z in
             ok (g_mesh g) && ok (g_material g) && ((g_light g =? -1)%Z || ok (g_light g)))
          (groups_ s) = true ->
  state_valid s.
Proof.
  intros Hv Hall. split; [exact Hv|].
  rewrite forallb_forall in Hall. apply Forall_forall. intros g Hg.
  apply list_elem_of_In in Hg. specialize (Hall g Hg). cbn in Hall.
  apply andb_true_iff in Hall as [Hall Hl]. apply andb_true_iff in Hall as [Hm Hmat].
  apply andb_true_iff in Hm as [Hm1 Hm2]. apply andb_true_iff in Hmat as [Ha1 Ha2].
  unfold group_valid, index_ok. split; [lia|]. split; [lia|].
  apply orb_true_iff in Hl as [Hl|Hl]; [left; lia|].
  apply andb_true_iff in Hl as [Hl1 Hl2]. right. lia.
Qed.

End ModelChecks.

Section OnExampleModel.
#[local] Existing Instance Binary64Ops.
#[local] Existing Instance Example64.math64.
#[local] Existing Instance Example64.recorder.
Import Example64 ExampleModel.
Import Model_WavefrontObj Model_WavefrontObj_Mesh Mesh_WavefrontObj.
Local Open Scope fl_scope.

Lemma lamp_model_valid : indices_valid lamp_model.
Proof. apply indices_valid_check. vm_compute. reflexivity. Qed.

Lemma lamp_state_valid : state_valid lamp_state.
Proof.
  apply state_valid_check; [apply indices_valid_check|]; vm_compute; reflexivity.
Qed.

Lemma process_material_keeps_indices_witness :
  indices_valid lamp_model
  /\ indices_valid (snd (process_material [] "scene.obj" mirror_mtl lamp_model))
  /\ (length (assets_ lamp_model)
      <= length (assets_ (snd (process_material [] "scene.obj" mirror_mtl lamp_model))))%nat.
Proof.
  split; [exact lamp_model_valid|].
  exact (process_material_keeps_indices [] "scene.obj" mirror_mtl lamp_model lamp_model_valid).
Defined.

Lemma texture_loaded_once_witness :
  load_texture [] "scene.obj" lamp_mtl empty_model
    = Some ("$.assets.model.texture_wood.png", wood_model)
  /\ mapKd shade_mtl = mapKd lamp_mtl
  /\ load_texture [] "scene.obj" shade_mtl wood_model
    = Some ("$.assets.model.texture_wood.png", wood_model).
Proof.
  assert (Hl : load_texture [] "scene.obj" lamp_mtl empty_model
               = Some ("$.assets.model.texture_wood.png", wood_model))
    by (vm_compute; reflexivity).
  assert (Hk : mapKd shade_mtl = mapKd lamp_mtl) by reflexivity.
  split; [exact Hl|]. split; [exact Hk|].
  exact (texture_loaded_once [] "scene.obj" lamp_mtl shade_mtl empty_model wood_model
           "$.assets.model.texture_wood.png" Hl Hk).
Defined.

Lemma underlying_after_process_material_witness :
  process_material [] "scene.obj" lamp_mtl lamp_model = (true, relit_model)
  /\ assets_map_ lamp_model !! "Lamp" = Some 1%Z
  /\ exists mat,
       load_material [] lamp_mtl "$.assets.model.texture_wood.png" = Some mat
       /\ underlying relit_model "Lamp" = Found mat
       /\ last (assets_ relit_model) = Some mat
       /\ assets_map_ relit_model !! "Lamp" = Some 2%Z
       /\ assets_ relit_model !! 1%nat = assets_ lamp_model !! 1%nat.
Proof.
  assert (Hp : process_material [] "scene.obj" lamp_mtl lamp_model = (true, relit_model))
    by (vm_compute; reflexivity).
  assert (Hi : assets_map_ lamp_model !! "Lamp" = Some 1%Z) by (vm_compute; reflexivity).
  split; [exact Hp|]. split; [exact Hi|].
  destruct (proj1 (@underlying_after_process_material Binary64Ops math64 recorder
                     [] "scene.obj" lamp_mtl lamp_model
                     relit_model Hp))
    as (mat & Hmat & Hu & _ & Hlast & Hidx & _ & Hover).
  exists mat.
  destruct Hmat as (loc & st1 & Hl & Hm).
  assert (Hloc : loc = "$.assets.model.texture_wood.png").
  { assert (Hl' : load_texture [] "scene.obj" lamp_mtl lamp_model
                  = Some ("$.assets.model.texture_wood.png", lamp_model))
      by (vm_compute; reflexivity).
    rewrite Hl' in Hl. injection Hl as <- _. reflexivity. }
  subst loc.
  split; [exact Hm|]. split; [exact Hu|]. split; [exact Hlast|].
  split; [exact Hidx|].
  exact (proj2 (Hover 1%Z Hi (lamp_model_valid "Lamp" 1%Z Hi))).
Defined.
Lemma underlying_in_range_witness :
  indices_valid lamp_model
  /\ (assets_map_ lamp_model !! "Mirror" = None -> underlying lamp_model "Mirror" = OutOfRange).
Proof.
  split; [exact lamp_model_valid|].
  exact (proj1 (underlying_in_range lamp_model "Mirror" lamp_model_valid)).
Defined.

Lemma lamp_start_valid : state_valid (mkModelState lamp_model []).
Proof. split; [exact lamp_model_valid|constructor]. Qed.

Lemma process_mesh_keeps_state_witness :
  state_valid (mkModelState lamp_model [])
  /\ state_valid (snd (process_mesh mesh_recorder [] quad lamp_mtl
                         (mkModelState lamp_model [])))
  /\ assets_map_ lamp_model !! "Mirror" = None
  /\ exists g,
       groups_ (snd (process_mesh mesh_recorder [] quad mirror_mtl
                       (mkModelState lamp_model []))) = [g]
       /\ g_mesh g = 2%Z /\ g_material g = 0%Z /\ g_light g = (-1)%Z.
Proof.
  split; [exact lamp_start_valid|].
  split; [exact (proj1 (@process_mesh_keeps_state Binary64Ops recorder
                          mesh_recorder [] quad lamp_mtl
                          (mkModelState lamp_model []) lamp_start_valid))|].
  split; [vm_compute; reflexivity|].
  destruct (proj2 (@process_mesh_keeps_state Binary64Ops recorder
                     mesh_recorder [] quad mirror_mtl
                     (mkModelState lamp_model []) lamp_start_valid) eq_refl)
    as (g & Hgs & Hgm & Hgl & _ & _ & Hmat & _).
  exists g. split; [exact Hgs|]. split; [exact Hgm|]. split.
  - rewrite Hmat. vm_compute. reflexivity.
  - apply Hgl. vm_compute. reflexivity.
Defined.
Lemma create_primitives_total_witness :
  state_valid lamp_state
  /\ exists calls,
       create_primitives lamp_state = (calls, false)
       /\ length calls = length (groups_ lamp_state)
       /\ Forall2 (fun g c =>
                     elem (assets_ (model lamp_state)) (g_mesh g) = Some (fst (fst c))
                     /\ elem (assets_ (model lamp_state)) (g_material g) = Some (snd (fst c))
                     /\ snd c = (if (g_light g <? 0)%Z then None
                                 else elem (assets_ (model lamp_state)) (g_light g)))
            (groups_ lamp_state) calls.
Proof.
  split; [exact lamp_state_valid|].
  exact (create_primitives_total lamp_state lamp_state_valid).
Defined.

(** The quad lists seven face indices: two triangles, and the seventh index
    is never read. *)
Lemma quad_ok : mesh_ok quad_geo quad.
Proof.
  split; [|cbn; lia].
  repeat constructor; cbn; lia.
Qed.

Lemma foreach_triangle_visits_all_witness :
  mesh_ok quad_geo quad /\ num_triangles quad = (Z.of_nat (length quad) / 3)%Z.
Proof.
  split; [exact quad_ok|].
  exact (proj1 (foreach_triangle_visits_all quad_geo quad quad_ok)).
Defined.

Lemma surface_point_defined_witness :
  triangle_at quad_geo quad 0 = Some quad_first
  /\ exists ip,
       surface_point mix3 mix2 triangle_normal quad_geo quad 0 (mkVec2 (lit 1 4) (lit 1 4))
         = Some ip
       /\ ip_p ip = mix3 (pt_p (tri_p1 quad_first)) (pt_p (tri_p2 quad_first))
                      (pt_p (tri_p3 quad_first)) (mkVec2 (lit 1 4) (lit 1 4))
       /\ ip_gn ip = triangle_normal (pt_p (tri_p1 quad_first)) (pt_p (tri_p2 quad_first))
                       (pt_p (tri_p3 quad_first))
       /\ ((0 < 0)%Z -> ip_n ip = ip_gn ip)
       /\ ((-1 < 0)%Z -> ip_t ip = v2zero).
Proof.
  assert (Ht : triangle_at quad_geo quad 0 = Some quad_first) by reflexivity.
  split; [exact Ht|].
  refine (surface_point_defined quad_geo quad mix3 mix2 triangle_normal 0
            (mkVec2 (lit 1 4) (lit 1 4)) quad_first
            (mkFaceIndex 0 (-1) 0) (mkFaceIndex 1 (-1) 0) (mkFaceIndex 2 (-1) 0)
            _ _ _ Ht _ _); try reflexivity; cbn; lia.
Defined.

End OnExampleModel.

Section OnExampleTasks.
#[local] Existing Instance Binary64Ops.
#[local] Existing Instance Example64.math64.
#[local] Existing Instance Example64.lcg.
#[local] Existing Instance Example64.splat_log.
#[local] Existing Instance Example64.forward_path.
Import Example64 ExampleTasks.
Local Open Scope fl_scope.

Lemma visible_infinite_endpoint_witness :
  pg_infinite (geom (sky vzero)) = true
  /\ pg_infinite (geom (at_x f0)) = false
  /\ visible (plane_scene f1) (sky vzero) (at_x f0)
       = visible (plane_scene f1) (at_x f0) (sky vzero)
  /\ visible (plane_scene f1) (sky (vec3 f1)) (at_x f0)
       = visible (plane_scene f1) (sky vzero) (at_x f0).
Proof.
  assert (Hi1 : pg_infinite (geom (sky vzero)) = true) by reflexivity.
  assert (Hi2 : pg_infinite (geom (at_x f0)) = false) by reflexivity.
  assert (Hi3 : pg_infinite (geom (sky (vec3 f1))) = true) by reflexivity.
  assert (Hwo : pg_wo (geom (sky (vec3 f1))) = pg_wo (geom (sky vzero))) by reflexivity.
  split; [exact Hi1|]. split; [exact Hi2|].
  pose proof (visible_infinite_endpoint (plane_scene f1) (sky vzero) (sky (vec3 f1))
                (at_x f0) Hi1 Hi2 Hi3 Hwo) as Hv.
  split; [exact (proj1 Hv)|exact (proj1 (proj2 Hv))].
Defined.

Lemma render_reports_first_missing_witness :
  num_lights unlit_scene = 0%Z
  /\ Renderer_PT.render unlit_scene 8 (Some 7%Z) MIS Pixel (sequential 4) [] ∅ unlit_scene
       = (Throw Unsupported
            "No light in the scene. Add at least one light sources to the scene.",
          unlit_scene).
Proof.
  split; [reflexivity|].
  refine (proj1 (render_reports_first_missing unlit_scene
                   "No light in the scene. Add at least one light sources to the scene."
                   8 (Some 7%Z) MIS Pixel 4 (lit 2 10) (sequential 4) [] ∅ _)).
  right. right. left. cbn. repeat split; try lia.
Defined.

(** At a surface vertex of the plane scene the light is sampled, the
    transmittance is 1 and the surface reflects one half: one splat. *)
Lemma volpt_nee_edge_splats_nonzero_witness :
  fst (Renderer_VolPT.nee_edge (plane_scene f1) 2 surface_vertex)
    = [(mkVec2 (lit 1 2) (lit 1 2), vec3 (lit 1 2))].
Proof.
  exact (proj1 (volpt_nee_edge_splats_nonzero (plane_scene f1) 2 surface_vertex)
           (mkRaySample
              (mkSI LightEndpoint 1
                 (mkGeom (mkVec3 f1 f0 f0) (mkVec3 f1 f0 f0) false false v2zero vzero))
              0 (mkVec3 (- f1) f0 f0) (vec3 f1))
           7%Z (mkVec2 (lit 1 2) (lit 1 2)) eq_refl eq_refl eq_refl eq_refl).
Defined.
Lemma volpt_render_rescales_film_witness :
  fst (require_renderable (plane_scene f1)) = Ok tt
  /\ run (sequential 4) _
       (Renderer_VolPT.process (plane_scene f1) 4 (lit 2 10) (Some 7%Z))
       (Some (film_clear [], ∅)) = (4%Z, Some (volpt_film, volpt_rngs))
  /\ (- 2 ^ 31 <= 2 * 2 < 2 ^ 31)%Z
  /\ fst (Renderer_VolPT.render (plane_scene f1) 4 (lit 2 10) (Some 7%Z) (sequential 4)
            [] ∅ (plane_scene f1))
       = Ok (Some (film_rescale volpt_film (of_int (2 * 2) / of_int 4), volpt_rngs), 4%Z).
Proof.
  assert (Hreq : fst (require_renderable (plane_scene f1)) = Ok tt)
    by (vm_compute; reflexivity).
  assert (Hrun : run (sequential 4) _
            (Renderer_VolPT.process (plane_scene f1) 4 (lit 2 10) (Some 7%Z))
            (Some (film_clear [], ∅)) = (4%Z, Some (volpt_film, volpt_rngs)))
    by (vm_compute; reflexivity).
  assert (Hfit : (- 2 ^ 31 <= 2 * 2 < 2 ^ 31)%Z) by lia.
  split; [exact Hreq|]. split; [exact Hrun|]. split; [exact Hfit|].
  exact (proj1 (volpt_render_rescales_film (plane_scene f1) 4 (lit 2 10) (Some 7%Z)
                  (sequential 4) [] ∅ 4%Z volpt_film volpt_rngs Hreq Hrun) Hfit).
Defined.

Lemma volpt_walk_vertex_finite_witness :
  pg_infinite (geom (Renderer_VolPT.sp camera_vertex)) = false
  /\ Renderer_VolPT.walk (plane_scene f1) (lit 2 10) 3 1 camera_vertex = Some volpt_walk_end
  /\ pg_infinite (geom (Renderer_VolPT.sp volpt_walk_end)) = false.
Proof.
  assert (Hf : pg_infinite (geom (Renderer_VolPT.sp camera_vertex)) = false) by reflexivity.
  assert (Hw : Renderer_VolPT.walk (plane_scene f1) (lit 2 10) 3 1 camera_vertex
               = Some volpt_walk_end) by reflexivity.
  split; [exact Hf|]. split; [exact Hw|].
  exact (volpt_walk_vertex_finite (plane_scene f1) (lit 2 10) 3 1 camera_vertex
           volpt_walk_end Hf Hw).
Defined.

Lemma volpt_process_thread_local_witness :
  Renderer_VolPT.process (plane_scene f1) 4 (lit 2 10) (Some 7%Z) 1 1 3
    (Some ([], {[ 0%Z := 5%Z ]})) = Some (volpt_task_film, volpt_task_rngs)
  /\ (forall t, t <> 3%Z -> volpt_task_rngs !! t = ({[ 0%Z := 5%Z ]} : gmap Z Z) !! t)
  /\ is_Some (volpt_task_rngs !! 3%Z).
Proof.
  assert (Hp : Renderer_VolPT.process (plane_scene f1) 4 (lit 2 10) (Some 7%Z) 1 1 3
                 (Some ([], {[ 0%Z := 5%Z ]})) = Some (volpt_task_film, volpt_task_rngs))
    by (vm_compute; reflexivity).
  split; [exact Hp|].
  pose proof (volpt_process_thread_local (plane_scene f1) 4 (lit 2 10) (Some 7%Z) 1 1 3
                [] volpt_task_film {[ 0%Z := 5%Z ]} volpt_task_rngs Hp) as Ht.
  split; [exact (proj1 Ht)|exact (proj1 (proj2 Ht))].
Defined.

Lemma pt_process_thread_local_witness :
  Renderer_PT.process (plane_scene f1) 8 (Some 7%Z) NEE Pixel (mkFilmSize 2 2) 1 1 3
    (Some ([], {[ 0%Z := 5%Z ]})) = Some (pt_task_film, pt_task_rngs)
  /\ (forall t, t <> 3%Z -> pt_task_rngs !! t = ({[ 0%Z := 5%Z ]} : gmap Z Z) !! t)
  /\ is_Some (pt_task_rngs !! 3%Z).
Proof.
  assert (Hp : Renderer_PT.process (plane_scene f1) 8 (Some 7%Z) NEE Pixel (mkFilmSize 2 2)
                 1 1 3 (Some ([], {[ 0%Z := 5%Z ]})) = Some (pt_task_film, pt_task_rngs))
    by (vm_compute; reflexivity).
  split; [exact Hp|].
  pose proof (pt_process_thread_local (plane_scene f1) 8 (Some 7%Z) NEE Pixel
                (mkFilmSize 2 2) 1 1 3 [] pt_task_film {[ 0%Z := 5%Z ]} pt_task_rngs Hp)
    as Ht.
  split; [exact (proj1 Ht)|exact (proj1 (proj2 Ht))].
Defined.

(** In [MIS] and [Image] mode the primary vertex of the bounce scene samples
    a NEE edge: it splats 1/2 at weight 1/4, and the light then hit splats
    its emission at weight 3/4. *)
Lemma nee_edge_sampled_witness :
  (MIS <> Naive
   /\ is_specular bounce_scene (rs_sp camera_ray) (rs_comp camera_ray) = false
   /\ (Image = Image \/ (0 > 0)%Z))
  /\ exists w',
       (Renderer_PT.walk_body bounce_scene MIS Image 0 pt_camera_vertex = Break w'
        \/ Renderer_PT.walk_body bounce_scene MIS Image 0 pt_camera_vertex = Continue w')
       /\ Renderer_PT.film w'
          = [(mkVec2 (lit 1 2) (lit 1 2), vec3 (lit 3 4));
             (mkVec2 (lit 1 2) (lit 1 2), vec3 (lit 1 8))].
Proof.
  assert (Hc : MIS <> Naive
               /\ is_specular bounce_scene (rs_sp camera_ray) (rs_comp camera_ray) = false
               /\ (Image = Image \/ (0 > 0)%Z)).
  { split; [discriminate|]. split; [reflexivity|left; reflexivity]. }
  split; [exact Hc|].
  destruct (proj1 (proj2 (proj2 (nee_edge_sampled_iff bounce_scene MIS Image 0 camera_ray)))
              pt_camera_vertex 7%Z (mkVec2 (lit 1 2) (lit 1 2)))
    as (w' & Hstep & Hyes & _).
  - reflexivity.
  - vm_compute. reflexivity.
  - vm_compute. reflexivity.
  - exists w'. split; [exact Hstep|].
    rewrite (proj1 (Hyes Hc)). vm_compute. reflexivity.
Defined.

Lemma pt_light_counted_once_witness :
  sample_ray (plane_scene f1) (Renderer_PT.rng pt_camera_vertex)
    (Renderer_PT.sp pt_camera_vertex) (Renderer_PT.wi pt_camera_vertex)
    = (Some camera_ray, 7%Z)
  /\ exists w',
       (Renderer_PT.walk_body (plane_scene f1) NEE Pixel 0 pt_camera_vertex = Break w'
        \/ Renderer_PT.walk_body (plane_scene f1) NEE Pixel 0 pt_camera_vertex = Continue w')
       /\ Renderer_PT.film w' =
            if Renderer_PT.nee (plane_scene f1) NEE Pixel 0 camera_ray
            then fst (Renderer_PT.nee_edge (plane_scene f1) NEE 0 camera_ray pt_camera_vertex
                        (mkVec2 (lit 1 2) (lit 1 2)) 7%Z)
            else
              match intersect (plane_scene f1) (ray camera_ray) Eps Inf with
              | Some hit =>
                  if is_light (plane_scene f1) hit
                  then film_splat (Renderer_PT.film pt_camera_vertex)
                         (mkVec2 (lit 1 2) (lit 1 2))
                         (vscale (vmul (vmul (Renderer_PT.throughput pt_camera_vertex)
                                             (rs_weight camera_ray))
                                       (eval_contrb_position (plane_scene f1)
                                          (as_type hit LightEndpoint)
                                          (vneg (rs_wo camera_ray))))
                                 f1)
                  else Renderer_PT.film pt_camera_vertex
              | None => Renderer_PT.film pt_camera_vertex
              end.
Proof.
  assert (Hs : sample_ray (plane_scene f1) (Renderer_PT.rng pt_camera_vertex)
                 (Renderer_PT.sp pt_camera_vertex) (Renderer_PT.wi pt_camera_vertex)
               = (Some camera_ray, 7%Z)) by reflexivity.
  split; [exact Hs|].
  refine (pt_light_counted_once (plane_scene f1) NEE Pixel 0 pt_camera_vertex camera_ray
            7%Z (mkVec2 (lit 1 2) (lit 1 2)) _ Hs _ _);
    [discriminate | vm_compute; reflexivity | vm_compute; reflexivity].
Defined.

Lemma ptdirect_pixel_of_index_witness :
  (0 <= Renderer_PTDirect.pixel_x 4 7 < 4)%Z
  /\ (0 <= Renderer_PTDirect.pixel_y 4 7 < 3)%Z
  /\ (Renderer_PTDirect.pixel_y 4 7 * 4 + Renderer_PTDirect.pixel_x 4 7 = 7)%Z.
Proof.
  apply (ptdirect_pixel_of_index 4 3 7); lia.
Defined.

Lemma ptdirect_short_paths_black_witness :
  exists r1,
    Renderer_PTDirect.process Vec3 (fun p => p) pixel_log (fun _ => (2, 2)%Z)
      (fun f x y v => (x, y, v) :: f) 4 1 direct_scene 3 0 ([], ∅)
    = Some ([(1%Z, 1%Z, vdivs (vec3 f0) (of_int 4))], <[0%Z := r1]> ∅).
Proof.
  refine (ptdirect_short_paths_black Vec3 (fun p => p) pixel_log (fun _ => (2, 2)%Z)
            (fun f x y v => (x, y, v) :: f) 4 1 direct_scene 3 0 [] ∅ _).
  lia.
Defined.

(** With one more vertex the NEE edge at the plane reaches the pixel. *)
Example ptdirect_two_vertices :
  option_map fst
    (Renderer_PTDirect.process Vec3 (fun p => p) pixel_log (fun _ => (2, 2)%Z)
       (fun f x y v => (x, y, v) :: f) 4 2 direct_scene 3 0 ([], ∅))
  = Some [(1%Z, 1%Z, vec3 (lit 1 2))].
Proof. vm_compute. reflexivity. Qed.

End OnExampleTasks.

Section OnExampleLobes.
#[local] Existing Instance RealOps.
#[local] Existing Instance RealLibm.
#[local] Existing Instance ExampleReal.mathR.
#[local] Existing Instance ExampleReal.fixed_rng.
Import ExampleLobes.
Import Material_WavefrontObj_Mixture.
Local Open Scope R_scope.

Lemma compMax_constant (k : R) : compMax (mkVec3 k k k) = k.
Proof.
  unfold compMax, fmax. cbn. unfold Rltb.
  destruct (Rlt_dec k k) as [Hlt|Hge]; [lra|].
  destruct (Rlt_dec k k); reflexivity.
Qed.

Lemma mixture_selection_is_distribution_witness :
  0 <= eval_alpha (Some half_alpha) up <= 1
  /\ exists pD pG pA,
       pdf_comp_select (constant_lobe (3 / 4) (1 / 4) (1 / 2) false)
         (constant_lobe (1 / 4) 1 2 false) (Some half_alpha) up Comp_Diffuse = Some pD
       /\ pdf_comp_select (constant_lobe (3 / 4) (1 / 4) (1 / 2) false)
         (constant_lobe (1 / 4) 1 2 false) (Some half_alpha) up Comp_Glossy = Some pG
       /\ pdf_comp_select (constant_lobe (3 / 4) (1 / 4) (1 / 2) false)
         (constant_lobe (1 / 4) 1 2 false) (Some half_alpha) up Comp_Alpha = Some pA
       /\ 0 <= pD <= 1 /\ 0 <= pG <= 1 /\ 0 <= pA <= 1 /\ pD + pG + pA = 1.
Proof.
  assert (Ha : 0 <= eval_alpha (Some half_alpha) up <= 1) by (cbn; lra).
  split; [exact Ha|].
  refine (mixture_selection_is_distribution (constant_lobe (3 / 4) (1 / 4) (1 / 2) false)
            (constant_lobe (1 / 4) 1 2 false) (Some half_alpha) up
            (mkVec3 (3 / 4) (3 / 4) (3 / 4)) (mkVec3 (1 / 4) (1 / 4) (1 / 4))
            eq_refl eq_refl _ _ Ha);
    rewrite compMax_constant; lra.
Defined.

Lemma mixture_without_texture_witness :
  fst (rng_u tt) < 1
  /\ fst (sample_comp_select (constant_lobe (3 / 4) (1 / 4) (1 / 2) false)
            (constant_lobe (1 / 4) 1 2 false) None tt up) <> Some Comp_Alpha.
Proof.
  assert (Hu : fst (rng_u tt) < 1) by (cbn; lra).
  split; [exact Hu|].
  exact (proj1 (mixture_without_texture (constant_lobe (3 / 4) (1 / 4) (1 / 2) false)
                  (constant_lobe (1 / 4) 1 2 false) (constant_lobe 0 1 1 true) up
                  (mkVec3 0 0 1) (mkVec3 0 0 1) EL tt Hu)).
Defined.

Lemma mixture_without_alpha_selection_witness :
  exists pD pG,
    Material_WavefrontObj_Mixture_Without_Alpha.pdf_comp_select
      (constant_lobe (3 / 4) (1 / 4) (1 / 2) false) (constant_lobe (1 / 4) 1 2 false) up
      Material_WavefrontObj_Mixture_Without_Alpha.Comp2_Diffuse = Some pD
    /\ Material_WavefrontObj_Mixture_Without_Alpha.pdf_comp_select
      (constant_lobe (3 / 4) (1 / 4) (1 / 2) false) (constant_lobe (1 / 4) 1 2 false) up
      Material_WavefrontObj_Mixture_Without_Alpha.Comp2_Glossy = Some pG
    /\ 0 <= pD <= 1 /\ 0 <= pG <= 1 /\ pD + pG = 1.
Proof.
  refine (mixture_without_alpha_selection (constant_lobe (3 / 4) (1 / 4) (1 / 2) false)
            (constant_lobe (1 / 4) 1 2 false) up
            (mkVec3 (3 / 4) (3 / 4) (3 / 4)) (mkVec3 (1 / 4) (1 / 4) (1 / 4))
            eq_refl eq_refl _ _);
    rewrite compMax_constant; lra.
Defined.

Lemma up_normal_unit : dot (pg_n up) (pg_n up) = 1.
Proof. unfold dot. cbn. ring. Qed.

Lemma mirror_and_mask_reverse_witness :
  dot (pg_n up) (pg_n up) = 1
  /\ exists s,
       Material_Mirror.sample_direction (-1) tt up (mkVec3 (3 / 5) 0 (4 / 5)) = (Some s, tt)
       /\ mds_weight s = vec3 1
       /\ dot (mds_wo s) (pg_n up) = dot (mkVec3 (3 / 5) 0 (4 / 5)) (pg_n up)
       /\ dot (mds_wo s) (mds_wo s) = dot (mkVec3 (3 / 5) 0 (4 / 5)) (mkVec3 (3 / 5) 0 (4 / 5))
       /\ Material_Mirror.sample_direction (-1) tt up (mds_wo s)
            = (Some (mkMDS (mkVec3 (3 / 5) 0 (4 / 5)) (-1) (vec3 1)), tt).
Proof.
  split; [exact up_normal_unit|].
  exact (proj1 (mirror_and_mask_reverse (-1) tt up (mkVec3 (3 / 5) 0 (4 / 5))
                  up_normal_unit)).
Defined.

Lemma hg_sample_direction_cosine_witness :
  -1 < 1 / 2 < 1
  /\ 0 <= fst (rng_u tt) < 1
  /\ exists wo,
       Phase_HenyeyGreenstein_Sample.sample_direction (1 / 2) basis_z tt up (mkVec3 0 0 1)
         = (Some (Phase_HenyeyGreenstein_Sample.mkPDS wo (vec3 1) false),
            snd (rng_u (snd (rng_u tt))))
       /\ dot wo (vneg (mkVec3 0 0 1))
            = Phase_HenyeyGreenstein_Sample.cosT (1 / 2) (fst (rng_u tt))
       /\ -1 <= dot wo (vneg (mkVec3 0 0 1)) <= 1.
Proof.
  assert (Hg : -1 < 1 / 2 < 1) by lra.
  assert (Hu : 0 <= fst (rng_u tt) < 1) by (cbn; lra).
  split; [exact Hg|]. split; [exact Hu|].
  refine (hg_sample_direction_cosine (1 / 2) basis_z tt up (mkVec3 0 0 1) Hg _ Hu _ _ _).
  - cbn. lra.
  - unfold dot. cbn. ring.
  - unfold dot. cbn. ring.
  - unfold dot. cbn. ring.
Defined.

Lemma pt_window_inside_film_witness :
  v4x (Renderer_PT.window Pixel (mkFilmSize 4 3) 7) = IZR (7 mod 4) / IZR 4
  /\ v4y (Renderer_PT.window Pixel (mkFilmSize 4 3) 7) = IZR (7 / 4) / IZR 3
  /\ v4z (Renderer_PT.window Pixel (mkFilmSize 4 3) 7) = 1 / IZR 4
  /\ v4w (Renderer_PT.window Pixel (mkFilmSize 4 3) 7) = 1 / IZR 3.
Proof.
  assert (Hw : (0 < size_w (mkFilmSize 4 3))%Z) by (cbn; lia).
  assert (Hh : (0 < size_h (mkFilmSize 4 3))%Z) by (cbn; lia).
  assert (Hs : (size_w (mkFilmSize 4 3) * size_h (mkFilmSize 4 3) < 2 ^ 31)%Z) by (cbn; lia).
  assert (Hi : (0 <= 7 < size_w (mkFilmSize 4 3) * size_h (mkFilmSize 4 3))%Z) by (cbn; lia).
  pose proof (pt_window_inside_film (mkFilmSize 4 3) 7 Hw Hh Hs Hi) as Hv.
  split; [exact (proj1 Hv)|]. split; [exact (proj1 (proj2 Hv))|].
  exact (proj2 (proj2 (proj2 (proj2 (proj2 (proj2 (proj2 (proj2 Hv)))))))).
Defined.

End OnExampleLobes.

Section OnExampleMixture.
#[local] Existing Instance Binary64Ops.
#[local] Existing Instance Example64.math64.
#[local] Existing Instance Example64.lcg.
Import Example64.
Import Material_WavefrontObj_Mixture.
Local Open Scope fl_scope.

(** With a generator whose first number is 1000/1024 and alpha one half the
    mask is chosen; a mask of value and density 1 gives the weight
    (1/2 * 1) / (1/2 * 1). *)
Lemma mixture_sample_through_mask_witness :
  (fst (rng_u 1000%Z) >? eval_alpha (Some half_alpha) up) = true
  /\ opposite up (mkVec3 f0 f0 f1) (mkVec3 f0 f0 (- f1)) = true
  /\ sample_direction (constant_lobe (lit 3 4) (lit 1 4) (lit 1 2) false)
       (constant_lobe (lit 1 4) f1 (of_int 2) false) (constant_lobe f0 f1 f1 false)
       (Some half_alpha) 1000%Z up (mkVec3 f0 f0 f1) EL
     = (Some (Some (mkMaterialSample (mkVec3 (- f0) (- f0) (- f1))
                      (vdivs (sscale (f1 - lit 1 2) (vec3 f1)) ((f1 - lit 1 2) * f1))
                      true)),
        snd (rng_u 1000%Z)).
Proof.
  assert (Hsel : (fst (rng_u 1000%Z) >? eval_alpha (Some half_alpha) up) = true)
    by (vm_compute; reflexivity).
  assert (Hopp : opposite up (mkVec3 f0 f0 f1) (mkVec3 f0 f0 (- f1)) = true)
    by (vm_compute; reflexivity).
  split; [exact Hsel|]. split; [exact Hopp|].
  exact (mixture_sample_through_mask (constant_lobe (lit 3 4) (lit 1 4) (lit 1 2) false)
           (constant_lobe (lit 1 4) f1 (of_int 2) false) (constant_lobe f0 f1 f1 false)
           (Some half_alpha) 1000%Z (snd (rng_u 1000%Z)) up (mkVec3 f0 f0 f1) EL
           (mkMaterialSample (vneg (mkVec3 f0 f0 f1)) (vec3 f1) false)
           Hsel eq_refl Hopp).
Defined.

End OnExampleMixture.

Section OnExampleSeeds.
#[local] Existing Instance Binary64Ops.
#[local] Existing Instance Example64.lcg.
Import Example64.

Lemma threads_seeded_apart_witness :
  Renderer_PT.thread_rng (Some 7%Z) ∅ 0 <> Renderer_PT.thread_rng (Some 7%Z) ∅ 1.
Proof.
  refine (proj1 (threads_seeded_apart 7 0 1 ∅ _ _ _ _ _ _)).
  - intros a b Hab. exact Hab.
  - lia.
  - lia.
  - lia.
  - reflexivity.
  - reflexivity.
Defined.

End OnExampleSeeds.
